(** * axiom-go: ingestion pipeline and HTTP transport, a shallow embedding

    The development follows [axiom/datasets.go] and [axiom/client.go],
    and with them the plans and the licenses of [axiom/orgs.go], the
    options of package [ingest] and the filters of package [sas].
    Go values are modelled as follows:
    - a [[]byte] is a [list ascii], a Go [string] a [string] (or its list
      of bytes);
    - a [rune] and a [time.Duration] (nanoseconds) are integers of [Z];
    - an [error] is a value of the inductive type [error] below;
    - an [io.Reader] is the script of what its successive [Read] calls
      deliver;
    - what a function does to the world around it (round trips, waits,
      closing of bodies, writes to the pipe) is the list of events it
      returns.
    The parts of the Go standard library and of the third-party packages
    that the code relies on are modelled after their implementation where
    that can be written down ([unicode/utf8], [unicode], [bufio], [io],
    [regexp] on the one pattern in use, [backoff], the rounding of
    [float64]); the others ([net/url],
    [encoding/json], [zstd], the letter table of Unicode) and the
    declarations of the repository that are not at hand are parameters:
    type classes, or variables of a section.

    The file has two parts: the definitions, then the proofs. *)

From Stdlib Require Import String Ascii ZArith QArith Qround Bool Lia Lqa Arith List.
From Stdlib Require DecimalString Qpower.
Import ListNotations.

Set Implicit Arguments.
Open Scope Z_scope.

(** ** Errors *)

(** [LimitScope] and [Limit] are the rate-limit metadata a [Response]
    carries (limit, remaining, reset). *)
Record Limit : Type := mkLimit {
  limit_Scope : string;
  limit_Limit : Z;
  limit_Remaining : Z;
  limit_Reset : Z
}.

Inductive error : Type :=
  (* io, bufio *)
  | EOF
  | ErrNoProgress
  | ErrInvalidUnreadRune
  | ErrBufferFull
  (* errors.New(msg) *)
  | errors_New (msg : string)
  (* sentinel errors of package axiom *)
  | ErrUnprivilegedToken
  | ErrUnauthenticated
  | ErrUnauthorized
  | ErrNotFound
  | ErrExists
  (* &LimitError{Limit: ...} *)
  | LimitError (l : Limit)
  (* &Error{Status: ..., Message: ...} *)
  | HTTPError (status : Z) (message : string)
  (* fmt.Errorf("got status code %d", code) *)
  | ErrStatusCode (code : Z)
  (* fmt.Errorf("error decoding %d error response: %w", statusCode, err) *)
  | ErrDecodingErrorResponse (status : Z) (cause : error)
  (* errors of the libraries, with their text *)
  | url_Error (msg : string)
  | json_Error (msg : string)
  | http_Error (msg : string)
  | zstd_Error (msg : string)
  | net_Error (msg : string).

Definition bytes := list ascii.

Definition val (b : ascii) : Z := Z.of_N (N_of_ascii b).

(** ** unicode/utf8 *)

Module utf8.

Definition RuneError : Z := 0xFFFD.
Definition RuneSelf : Z := 0x80.
Definition UTFMax : nat := 4.

Definition maskx : Z := 0x3F.
Definition mask2 : Z := 0x1F.
Definition mask3 : Z := 0x0F.
Definition mask4 : Z := 0x07.
Definition locb : Z := 0x80.
Definition hicb : Z := 0xBF.

Definition xx : Z := 0xF1.
Definition as_ : Z := 0xF0.
Definition s1 : Z := 0x02.
Definition s2 : Z := 0x13.
Definition s3 : Z := 0x03.
Definition s4 : Z := 0x23.
Definition s5 : Z := 0x34.
Definition s6 : Z := 0x04.
Definition s7 : Z := 0x44.

(** The table [first]: information about the first byte of an encoding. *)
Definition first (b : ascii) : Z :=
  let x := val b in
  if x <? 0x80 then as_
  else if x <? 0xC2 then xx
  else if x <? 0xE0 then s1
  else if x =? 0xE0 then s2
  else if x <? 0xED then s3
  else if x =? 0xED then s4
  else if x <? 0xF0 then s3
  else if x =? 0xF0 then s5
  else if x <? 0xF4 then s6
  else if x =? 0xF4 then s7
  else xx.

(** The table [acceptRanges], as (lo, hi). *)
Definition acceptRanges (i : Z) : Z * Z :=
  match i with
  | 0 => (locb, hicb)
  | 1 => (0xA0, hicb)
  | 2 => (locb, 0x9F)
  | 3 => (0x90, hicb)
  | 4 => (locb, 0x8F)
  | _ => (0, 0)
  end.

Definition outside (b : ascii) (lo hi : Z) : bool :=
  (val b <? lo) || (hi <? val b).

(** [FullRune p]: do the bytes in [p] begin with a full encoding of a rune
    (an invalid encoding counts as a full rune of width one). *)
Definition FullRune (p : bytes) : bool :=
  match p with
  | [] => false
  | p0 :: t =>
    let x := first p0 in
    if (Z.to_nat (Z.land x 7) <=? length p)%nat then true
    else
      let '(lo, hi) := acceptRanges (Z.shiftr x 4) in
      match t with
      | [] => false
      | b1 :: t1 =>
        if outside b1 lo hi then true
        else match t1 with
             | [] => false
             | b2 :: _ => outside b2 locb hicb
             end
      end
  end.

(** [DecodeRune p]: the first rune of [p] and its width in bytes. *)
Definition DecodeRune (p : bytes) : Z * nat :=
  match p with
  | [] => (RuneError, 0%nat)
  | p0 :: t =>
    let x := first p0 in
    if as_ <=? x then
      (* mask := rune(x) << 31 >> 31 on int32: all ones when bit 0 is set *)
      let mask := if Z.testbit x 0 then (-1) else 0 in
      (Z.lor (Z.land (val p0) (Z.lnot mask)) (Z.land RuneError mask), 1%nat)
    else
      let sz := Z.to_nat (Z.land x 7) in
      let '(lo, hi) := acceptRanges (Z.shiftr x 4) in
      if (length p <? sz)%nat then (RuneError, 1%nat)
      else match t with
      | [] => (RuneError, 1%nat)
      | b1 :: t1 =>
        if outside b1 lo hi then (RuneError, 1%nat)
        else if (sz <=? 2)%nat then
          (Z.lor (Z.shiftl (Z.land (val p0) mask2) 6) (Z.land (val b1) maskx),
           2%nat)
        else match t1 with
        | [] => (RuneError, 1%nat)
        | b2 :: t2 =>
          if outside b2 locb hicb then (RuneError, 1%nat)
          else if (sz <=? 3)%nat then
            (Z.lor (Z.lor (Z.shiftl (Z.land (val p0) mask3) 12)
                          (Z.shiftl (Z.land (val b1) maskx) 6))
                   (Z.land (val b2) maskx), 3%nat)
          else match t2 with
          | [] => (RuneError, 1%nat)
          | b3 :: _ =>
            if outside b3 locb hicb then (RuneError, 1%nat)
            else
              (Z.lor (Z.lor (Z.lor (Z.shiftl (Z.land (val p0) mask4) 18)
                                   (Z.shiftl (Z.land (val b1) maskx) 12))
                            (Z.shiftl (Z.land (val b2) maskx) 6))
                     (Z.land (val b3) maskx), 4%nat)
          end
        end
      end
  end.

End utf8.

(** ** unicode *)

Module unicode.

Definition MaxLatin1 : Z := 0xFF.

Definition between (lo hi r : Z) : bool := (lo <=? r) && (r <=? hi).

(** The Latin-1 part of the table [properties], read through [pLmask]. *)
Definition latin1_letter (r : Z) : bool :=
  between 0x41 0x5A r || between 0x61 0x7A r
  || (r =? 0xAA) || (r =? 0xB5) || (r =? 0xBA)
  || between 0xC0 0xD6 r || between 0xD8 0xF6 r || between 0xF8 0xFF r.

(** The range table [White_Space] above Latin-1. *)
Definition White_Space_excluding_latin (r : Z) : bool :=
  (r =? 0x1680) || between 0x2000 0x200A r || between 0x2028 0x2029 r
  || (r =? 0x202F) || (r =? 0x205F) || (r =? 0x3000).

Definition IsSpace (r : Z) : bool :=
  if between 0 MaxLatin1 r then
    (r =? 0x09) || (r =? 0x0A) || (r =? 0x0B) || (r =? 0x0C) || (r =? 0x0D)
    || (r =? 0x20) || (r =? 0x85) || (r =? 0xA0)
  else White_Space_excluding_latin r.

Section Letter.
(** The range table [unicode.Letter] above Latin-1 (category L). *)
Variable Letter_excluding_latin : Z -> bool.

Definition IsLetter (r : Z) : bool :=
  if between 0 MaxLatin1 r then latin1_letter r
  else Letter_excluding_latin r.
End Letter.

End unicode.

(** ** io.Reader *)

(** What one call of [Read] delivers: some bytes (none: a read of zero bytes
    with a nil error), or an error.  A reader is the list of what its calls
    deliver, in order; after the list it reports [io.EOF] for ever. *)
Inductive ReadEvent : Type :=
  | Data (bs : bytes)
  | Fail (e : error).

Definition Reader := list ReadEvent.

(** [Read rd n]: one call [rd.Read(p)] with [len(p) = n]. *)
Definition Read (rd : Reader) (n : nat) : bytes * option error * Reader :=
  match rd with
  | [] => ([], Some EOF, [])
  | Fail e :: rest => ([], Some e, rest)
  | Data bs :: rest =>
    if (length bs <=? n)%nat then (bs, None, rest)
    else (firstn n bs, None, Data (skipn n bs) :: rest)
  end.

(** [strings.NewReader(s)]. *)
Definition strings_NewReader (s : string) : Reader :=
  match list_ascii_of_string s with
  | [] => []
  | bs => [Data bs]
  end.

(** [io.ReadAll(rd)]: the bytes read until [io.EOF] (no error) or until the
    first error. *)
Fixpoint ReadAll (rd : Reader) : bytes * option error :=
  match rd with
  | [] => ([], None)
  | Fail e :: _ => ([], Some e)
  | Data bs :: rest => let '(out, e) := ReadAll rest in (bs ++ out, e)
  end.

(** [io.MultiReader(bytes.NewReader(buf), rd)]: an exhausted
    [bytes.Reader] is skipped within the same call. *)
Definition MultiReader (buf : bytes) (rd : Reader) : Reader :=
  match buf with
  | [] => rd
  | _ => Data buf :: rd
  end.

(** ** bufio.Reader *)

Module bufio.

Definition defaultBufSize : nat := 4096.
Definition maxConsecutiveEmptyReads : nat := 100.

(** [data] is [b.buf[0:b.w]]: what lies beyond [b.w] is never read. *)
Record Reader_ : Type := mkReader {
  size : nat;            (* len(b.buf) *)
  data : bytes;          (* b.buf[:b.w] *)
  r : nat;               (* b.r *)
  rd : Reader;           (* b.rd *)
  err : option error;    (* b.err *)
  lastRuneSize : Z       (* b.lastRuneSize *)
}.

Definition w (b : Reader_) : nat := length (data b).

Definition NewReader (rd0 : Reader) : Reader_ :=
  mkReader defaultBufSize [] 0 rd0 None (-1).

(** The loop of [fill] that reads new data, [i] tries left. *)
Fixpoint fill_read (i : nat) (b : Reader_) : Reader_ :=
  match i with
  | O => mkReader (size b) (data b) (r b) (rd b) (Some ErrNoProgress)
                   (lastRuneSize b)
  | S i' =>
    let '(bs, e, rd') := Read (rd b) (size b - w b) in
    let b' := mkReader (size b) (data b ++ bs) (r b) rd' (err b)
                       (lastRuneSize b) in
    match e with
    | Some e' => mkReader (size b') (data b') (r b') (rd b') (Some e')
                          (lastRuneSize b')
    | None => if (0 <? length bs)%nat then b' else fill_read i' b'
    end
  end.

Arguments fill_read : simpl never.

Definition fill (b : Reader_) : Reader_ :=
  let b1 :=
    if (0 <? r b)%nat
    then mkReader (size b) (skipn (r b) (data b)) 0 (rd b) (err b)
                  (lastRuneSize b)
    else b in
  fill_read maxConsecutiveEmptyReads b1.

Definition readErr (b : Reader_) : option error * Reader_ :=
  (err b, mkReader (size b) (data b) (r b) (rd b) None (lastRuneSize b)).

Definition unread (b : Reader_) : bytes := skipn (r b) (data b).

(** The loop at the head of [ReadRune]; each round adds a byte or sets
    [b.err], so [UTFMax] rounds are all it can make. *)
Fixpoint ReadRune_loop (n : nat) (b : Reader_) : Reader_ :=
  match n with
  | O => b
  | S n' =>
    if (w b <? r b + utf8.UTFMax)%nat
       && negb (utf8.FullRune (unread b))
       && (match err b with None => true | Some _ => false end)
       && (w b - r b <? size b)%nat
    then ReadRune_loop n' (fill b)
    else b
  end.

Definition ReadRune (b : Reader_) : Z * nat * option error * Reader_ :=
  let b1 := ReadRune_loop utf8.UTFMax b in
  if (r b1 =? w b1)%nat then
    let '(e, b2) := readErr b1 in
    (0, 0%nat, e, mkReader (size b2) (data b2) (r b2) (rd b2) (err b2) (-1))
  else
    let '(c, sz) :=
      match unread b1 with
      | [] => (0, 1%nat)
      | p0 :: _ =>
        if val p0 <? utf8.RuneSelf then (val p0, 1%nat)
        else utf8.DecodeRune (unread b1)
      end in
    (c, sz, None,
     mkReader (size b1) (data b1) (r b1 + sz) (rd b1) (err b1) (Z.of_nat sz)).

Definition UnreadRune (b : Reader_) : option error * Reader_ :=
  if (lastRuneSize b <? 0) || (Z.of_nat (r b) <? lastRuneSize b)
  then (Some ErrInvalidUnreadRune, b)
  else (None,
        mkReader (size b) (data b) (r b - Z.to_nat (lastRuneSize b)) (rd b)
                 (err b) (-1)).

Definition Buffered (b : Reader_) : nat := (w b - r b)%nat.

(** The loop at the head of [Peek]. *)
Fixpoint Peek_loop (fuel n : nat) (b : Reader_) : Reader_ :=
  match fuel with
  | O => b
  | S fuel' =>
    if (w b - r b <? n)%nat && (w b - r b <? size b)%nat
       && (match err b with None => true | Some _ => false end)
    then Peek_loop fuel' n (fill b)
    else b
  end.

Definition Peek (n : nat) (b : Reader_) : bytes * option error * Reader_ :=
  let b0 := mkReader (size b) (data b) (r b) (rd b) (err b) (-1) in
  let b1 := Peek_loop (S n) n b0 in
  if (size b1 <? n)%nat then (unread b1, Some ErrBufferFull, b1)
  else
    let avail := (w b1 - r b1)%nat in
    if (avail <? n)%nat then
      let '(e, b2) := readErr b1 in
      (unread b2,
       Some (match e with Some e' => e' | None => ErrBufferFull end), b2)
    else (firstn n (unread b1), None, b1).

End bufio.

(** ** package axiom: datasets.go *)

Inductive ContentType : Type := JSON | NDJSON | CSV.

Section DetectContentType.
Variable Letter_excluding_latin : Z -> bool.

Definition rune (c : ascii) : Z := val c.

(** What follows the [if] chain once [typ] is set: [br.UnreadRune()],
    [break], and the construction of the reader that is returned. *)
Definition detected (typ : ContentType) (br : bufio.Reader_)
  : error + (Reader * ContentType) :=
  match bufio.UnreadRune br with
  | (Some e, _) => inl e
  | (None, br1) =>
    match bufio.Peek (bufio.Buffered br1) br1 with
    | (_, Some e, _) => inl e
    | (buf, None, br2) => inr (MultiReader buf (bufio.rd br2), typ)
    end
  end.

(** The [for] loop of [DetectContentType]; [None]: out of fuel. *)
Fixpoint detect_loop (fuel : nat) (br : bufio.Reader_)
  : option (error + (Reader * ContentType)) :=
  match fuel with
  | O => None
  | S fuel' =>
    let '(c, _, e, br1) := bufio.ReadRune br in
    match e with
    | Some EOF =>
      Some (inl (errors_New
                   "couldn't find beginning of supported ingestion format"))
    | Some e' => Some (inl e')
    | None =>
      if c =? rune "[" then Some (detected JSON br1)
      else if c =? rune "{" then Some (detected NDJSON br1)
      else if unicode.IsLetter Letter_excluding_latin c
              || (c =? rune "034") then Some (detected CSV br1)
      else if unicode.IsSpace c then detect_loop fuel' br1
      else Some (inl (errors_New "cannot determine content type"))
    end
  end.

(** The bytes a reader still holds: a bound on the rounds of the loop,
    each of which consumes one byte at least. *)
Fixpoint reader_bytes (rd : Reader) : nat :=
  match rd with
  | [] => 0
  | Data bs :: rest => (length bs + reader_bytes rest)%nat
  | Fail _ :: rest => reader_bytes rest
  end.

Definition DetectContentType (rd : Reader)
  : option (error + (Reader * ContentType)) :=
  detect_loop (S (reader_bytes rd)) (bufio.NewReader rd).

End DetectContentType.

(** ** The detector, as the specification words it *)

(** What a reader delivers when every [Read] succeeds with some bytes. *)
Definition nonempty_data (ev : ReadEvent) : bool :=
  match ev with
  | Data (_ :: _) => true
  | _ => false
  end.

Definition well_behaved (rd : Reader) : bool := forallb nonempty_data rd.

Definition content (rd : Reader) : bytes := fst (ReadAll rd).

(** [s] without its leading white space; [n] bounds the runes skipped. *)
Fixpoint skip_space_aux (n : nat) (s : bytes) : bytes :=
  match n with
  | O => s
  | S n' =>
    match s with
    | [] => []
    | _ :: _ =>
      let '(c, sz) := utf8.DecodeRune s in
      if unicode.IsSpace c then skip_space_aux n' (skipn sz s) else s
    end
  end.

Definition skip_space (s : bytes) : bytes := skip_space_aux (length s) s.

Section Classify.
Variable Letter_excluding_latin : Z -> bool.

(** The content type by the first character that is not white space. *)
Definition classify (s : bytes) : error + ContentType :=
  match skip_space s with
  | [] =>
    inl (errors_New "couldn't find beginning of supported ingestion format")
  | (_ :: _) as s' =>
    let c := fst (utf8.DecodeRune s') in
    if c =? rune "[" then inr JSON
    else if c =? rune "{" then inr NDJSON
    else if unicode.IsLetter Letter_excluding_latin c || (c =? rune "034")
    then inr CSV
    else inl (errors_New "cannot determine content type")
  end.

(** No letter is white space (the categories of Unicode are disjoint). *)
Definition letters_not_space : Prop :=
  forall c, unicode.IsSpace c = true ->
            unicode.IsLetter Letter_excluding_latin c = false.
End Classify.

(** ** The state of a [bufio.Reader] between two calls *)

(** [inv b rest]: [b] is consistent and [rest] is what is still to come,
    first from its buffer, then from the reader beneath it. *)
Record inv (b : bufio.Reader_) (rest : bytes) : Prop := mkInv {
  inv_r : (bufio.r b <= bufio.w b)%nat;
  inv_w : (bufio.w b <= bufio.size b)%nat;
  inv_size : (4 <= bufio.size b)%nat;
  inv_rd : well_behaved (bufio.rd b) = true;
  inv_err : bufio.err b = None
            \/ (bufio.err b = Some EOF /\ bufio.rd b = []);
  inv_rest : bufio.unread b ++ content (bufio.rd b) = rest
}.

(** The condition of the loop at the head of [ReadRune]. *)
Definition loop_cond (b : bufio.Reader_) : bool :=
  (bufio.w b <? bufio.r b + utf8.UTFMax)%nat
  && negb (utf8.FullRune (bufio.unread b))
  && (match bufio.err b with None => true | Some _ => false end)
  && (bufio.w b - bufio.r b <? bufio.size b)%nat.

(** [b] has left that loop: the next rune of [rest] can be decoded from
    the buffer alone. *)
Definition settled (b : bufio.Reader_) (rest : bytes) : Prop :=
  inv b rest
  /\ (bufio.unread b = [] -> bufio.err b = Some EOF /\ rest = [])
  /\ (bufio.unread b <> [] ->
      utf8.DecodeRune (bufio.unread b) = utf8.DecodeRune rest).

(** The bytes still to come, from the buffer and from the reader. *)
Definition pending (b : bufio.Reader_) : nat :=
  (length (bufio.unread b) + reader_bytes (bufio.rd b))%nat.
(** ** regexp *)

Module regexp.

(** The fragment of RE2 syntax the package uses.  A pattern that opens
    with [^] and closes with [$] (no flags) matches a string when the
    whole string is in its language.  The matcher goes by bytes where
    [regexp] goes by runes: for a pattern whose only classes are [[^c]] and
    the dot under [+], with [c] in ASCII, that is the same, since no byte of
    a longer encoding (and no invalid byte) equals [c]. *)
Inductive Regexp : Type :=
  | Void
  | Eps
  | Chr (c : ascii)          (* the literal c *)
  | NotChr (c : ascii)       (* [^c]; with c a newline, the dot *)
  | Cat (r1 r2 : Regexp)
  | Alt (r1 r2 : Regexp)
  | Star (r : Regexp).

Definition Plus (r : Regexp) : Regexp := Cat r (Star r).
Definition Opt (r : Regexp) : Regexp := Alt r Eps.
Definition Dot : Regexp := NotChr "010".

Fixpoint Str (s : string) : Regexp :=
  match s with
  | EmptyString => Eps
  | String c s' => Cat (Chr c) (Str s')
  end.

Fixpoint nullable (r : Regexp) : bool :=
  match r with
  | Void => false
  | Eps => true
  | Chr _ => false
  | NotChr _ => false
  | Cat r1 r2 => nullable r1 && nullable r2
  | Alt r1 r2 => nullable r1 || nullable r2
  | Star _ => true
  end.

(** The derivative of [r] by the character [a]. *)
Fixpoint deriv (a : ascii) (r : Regexp) : Regexp :=
  match r with
  | Void => Void
  | Eps => Void
  | Chr c => if Ascii.eqb a c then Eps else Void
  | NotChr c => if Ascii.eqb a c then Void else Eps
  | Cat r1 r2 =>
    if nullable r1 then Alt (Cat (deriv a r1) r2) (deriv a r2)
    else Cat (deriv a r1) r2
  | Alt r1 r2 => Alt (deriv a r1) (deriv a r2)
  | Star r1 => Cat (deriv a r1) (Star r1)
  end.

Fixpoint matches (r : Regexp) (s : bytes) : bool :=
  match s with
  | [] => nullable r
  | a :: s' => matches (deriv a r) s'
  end.

Definition MatchString (r : Regexp) (s : string) : bool :=
  matches r (list_ascii_of_string s).

End regexp.

(** ** strings *)

Definition HasPrefix (s prefix : string) : bool := String.prefix prefix s.

(** [strings.ReplaceAll(s, old, new)] for [old] a single character. *)
Fixpoint ReplaceAll1 (s : string) (old : ascii) (new : string) : string :=
  match s with
  | EmptyString => EmptyString
  | String c s' =>
    if Ascii.eqb c old then (new ++ ReplaceAll1 s' old new)%string
    else String c (ReplaceAll1 s' old new)
  end.

(** ** net/http, net/url, encoding/json, internal/config *)

Definition Header := list (string * string).

Definition Header_has (h : Header) (k : string) : bool :=
  existsb (fun p => String.eqb (fst p) k) h.

(** [h.Get(k)]: the value of [k], the empty string when there is none. *)
Definition Header_Get (h : Header) (k : string) : string :=
  match find (fun p => String.eqb (fst p) k) h with
  | Some p => snd p
  | None => EmptyString
  end.

Definition Header_Set (h : Header) (k v : string) : Header :=
  (k, v) :: filter (fun p => negb (String.eqb (fst p) k)) h.

Record URL : Type := mkURL {
  url_Scheme : string;
  url_Host : string;
  url_Path : string;
  url_RawQuery : string
}.

Record Request : Type := mkRequest {
  req_Method : string;
  req_URL : string;
  req_Header : Header;
  req_Body : option Reader
}.

Record HTTPResponse : Type := mkHTTPResponse {
  StatusCode : Z;
  resp_Header : Header;
  resp_Body : bytes
}.

(** The packages the client calls; an error of theirs is its text. *)
Class NetURL : Type := {
  url_ParseRequestURI : string -> string + URL;
  url_ResolveReference : URL -> URL -> URL;
  url_String : URL -> string
}.

Class NetHTTP : Type := {
  (* why http.NewRequestWithContext refuses a method and a URL, if it does *)
  http_NewRequest_error : string -> string -> option string;
  http_StatusText : Z -> string
}.

(** [Value] stands for the Go values handed over as [any]. *)
Class EncodingJSON (Value : Type) : Type := {
  (* json.Marshal(v) *)
  json_Marshal : Value -> string + bytes;
  (* json.NewDecoder(io.TeeReader(body, &buf)).Decode(&errResp) for errResp
     of type *Error: the bytes the decoder has read from the body, and
     the decoded "message" ([None]: the body is the JSON null, which sets
     errResp to nil) *)
  json_Decode_Error : bytes -> bytes * (string + option string)
}.

Definition newline : ascii := "010".

(** What [json.NewEncoder(w).Encode(v)] hands to [w] in one [Write]: the
    encoding of [v] and a newline. *)
Definition Encoder_bytes {Value : Type} `{EncodingJSON Value} (v : Value)
  : string + bytes :=
  match json_Marshal v with
  | inl msg => inl msg
  | inr b => inr (b ++ [newline])
  end.

(** [ingest.Options]: the query parameters of an ingest request. *)
Record Options : Type := mkOptions {
  TimestampField : string;
  TimestampFormat : string;
  CSVDelimiter : string
}.

(** Declared in parts of the repository that are not at hand
    ([internal/config], [limit.go], [response.go], [AddOptions]). *)
Class AxiomPkg : Type := {
  IsAPIToken : string -> bool;
  IsPersonalToken : string -> bool;
  httpStatusLimitExceeded : Z;
  parseLimit : HTTPResponse -> Limit;
  AddOptions : string -> Options -> string + string
}.

(** ** package axiom: client.go *)

Definition headerAuthorization : string := "Authorization".
Definition headerOrganizationID : string := "X-Axiom-Org-Id".
Definition headerAccept : string := "Accept".
Definition headerContentType : string := "Content-Type".
Definition headerUserAgent : string := "User-Agent".
Definition defaultMediaType : string := "application/octet-stream".
Definition mediaTypeJSON : string := "application/json".
Definition mediaTypeNDJSON : string := "application/x-ndjson".

(** [^/api/v1/datasets/([^/]+/(ingest|query)|_apl)(\?.+)?$] *)
Definition validOnlyAPITokenPaths : regexp.Regexp :=
  regexp.Cat (regexp.Str "/api/v1/datasets/")
    (regexp.Cat
       (regexp.Alt
          (regexp.Cat (regexp.Plus (regexp.NotChr "/"))
             (regexp.Cat (regexp.Chr "/")
                (regexp.Alt (regexp.Str "ingest") (regexp.Str "query"))))
          (regexp.Str "_apl"))
       (regexp.Opt (regexp.Cat (regexp.Chr "?") (regexp.Plus regexp.Dot)))).

Record Config : Type := mkConfig {
  BaseURL : URL;
  AccessToken : string;
  OrganizationID : string
}.

Record Client : Type := mkClient {
  config : Config;
  userAgent : string;
  strictDecoding : bool
}.

(** The argument [body any] of [NewRequest]. *)
Inductive Body (Value : Type) : Type :=
  | body_nil
  | body_Reader (r : Reader)
  | body_Value (v : Value).
Arguments body_nil {Value}.
Arguments body_Reader {Value} r.
Arguments body_Value {Value} v.

Definition body_not_nil {Value : Type} (body : Body Value) : bool :=
  match body with
  | body_nil => false
  | _ => true
  end.

(** A [bytes.Buffer] that holds [bs], read as an [io.Reader]. *)
Definition bytes_Buffer (bs : bytes) : Reader :=
  match bs with
  | [] => []
  | _ => [Data bs]
  end.

Section NewRequest.
Context {Value : Type} `{NetURL} `{NetHTTP} `{EncodingJSON Value} `{AxiomPkg}.

Definition NewRequest (c : Client) (method path : string) (body : Body Value)
  : error + Request :=
  match url_ParseRequestURI path with
  | inl msg => inl (url_Error msg)
  | inr rel =>
    let endpoint := url_ResolveReference (BaseURL (config c)) rel in
    if IsAPIToken (AccessToken (config c))
       && negb (regexp.MatchString validOnlyAPITokenPaths (url_Path endpoint))
    then inl ErrUnprivilegedToken
    else
      let encoded : error + (option Reader * bool) :=
        match body with
        | body_nil => inr (None, false)
        | body_Reader r => inr (Some r, true)
        | body_Value v =>
          match Encoder_bytes v with
          | inl msg => inl (json_Error msg)
          | inr buf => inr (Some (bytes_Buffer buf), false)
          end
        end in
      match encoded with
      | inl e => inl e
      | inr (r, isReader) =>
        match http_NewRequest_error method (url_String endpoint) with
        | Some msg => inl (http_Error msg)
        | None =>
          let h0 : Header := [] in
          (* Set Content-Type. *)
          let h1 :=
            if body_not_nil body && negb isReader
            then Header_Set h0 headerContentType mediaTypeJSON
            else if body_not_nil body
            then Header_Set h0 headerContentType defaultMediaType
            else h0 in
          (* Set authorization header, if present. *)
          let h2 :=
            if String.eqb (AccessToken (config c)) EmptyString then h1
            else Header_Set h1 headerAuthorization
                   ("Bearer " ++ AccessToken (config c))%string in
          (* Set organization ID header when using a personal token. *)
          let h3 :=
            if IsPersonalToken (AccessToken (config c))
               && negb (String.eqb (OrganizationID (config c)) EmptyString)
            then Header_Set h2 headerOrganizationID
                   (OrganizationID (config c))
            else h2 in
          (* Set other headers. *)
          let h4 := Header_Set h3 headerAccept mediaTypeJSON in
          let h5 := Header_Set h4 headerUserAgent (userAgent c) in
          inr (mkRequest (if String.eqb method EmptyString then "GET"
                          else method)
                         (url_String endpoint) h5 r)
        end
      end
  end.

End NewRequest.
(** ** time *)

Definition Millisecond : Z := 1000000.
Definition Second : Z := 1000 * Millisecond.
Definition Minute : Z := 60 * Second.

(** ** github.com/cenkalti/backoff/v4 *)

Module backoff.

Definition Stop : Z := -1.

Definition DefaultInitialInterval : Z := 500 * Millisecond.
Definition DefaultRandomizationFactor : Q := 1 # 2.
Definition DefaultMultiplier : Q := 3 # 2.
Definition DefaultMaxInterval : Z := 60 * Second.
Definition DefaultMaxElapsedTime : Z := 15 * Minute.

(** Durations are nanoseconds; the [float64] fields and the products the
    library forms with them are exact rationals here. *)
Record ExponentialBackOff : Type := mkExponentialBackOff {
  InitialInterval : Z;
  RandomizationFactor : Q;
  Multiplier : Q;
  MaxInterval : Z;
  MaxElapsedTime : Z;
  currentInterval : Z;
  startTime : Z
}.

(** [time.Duration(f)] for a float [f]: the fraction is dropped. *)
Definition Duration_of (q : Q) : Z :=
  if Qle_bool 0 q then Qfloor q else Qceiling q.

(** [b.Reset()] at the instant [now]. *)
Definition Reset (now : Z) (b : ExponentialBackOff) : ExponentialBackOff :=
  mkExponentialBackOff (InitialInterval b) (RandomizationFactor b)
    (Multiplier b) (MaxInterval b) (MaxElapsedTime b)
    (InitialInterval b) now.

Definition NewExponentialBackOff (now : Z) : ExponentialBackOff :=
  Reset now
    (mkExponentialBackOff DefaultInitialInterval DefaultRandomizationFactor
       DefaultMultiplier DefaultMaxInterval DefaultMaxElapsedTime 0 0).

Definition GetElapsedTime (now : Z) (b : ExponentialBackOff) : Z :=
  now - startTime b.

Definition getRandomValueFromInterval
  (randomizationFactor random : Q) (currentInterval : Z) : Z :=
  let delta := (randomizationFactor * inject_Z currentInterval)%Q in
  let minInterval := (inject_Z currentInterval - delta)%Q in
  let maxInterval := (inject_Z currentInterval + delta)%Q in
  Duration_of (minInterval + random * (maxInterval - minInterval + 1))%Q.

Definition incrementCurrentInterval (b : ExponentialBackOff)
  : ExponentialBackOff :=
  let next :=
    if Qle_bool (inject_Z (MaxInterval b) / Multiplier b)
                (inject_Z (currentInterval b))
    then MaxInterval b
    else Duration_of (inject_Z (currentInterval b) * Multiplier b)%Q in
  mkExponentialBackOff (InitialInterval b) (RandomizationFactor b)
    (Multiplier b) (MaxInterval b) (MaxElapsedTime b) next (startTime b).

(** [b.NextBackOff()] at the instant [now], [random] being the value
    [rand.Float64()] returns. *)
Definition NextBackOff (now : Z) (random : Q) (b : ExponentialBackOff)
  : Z * ExponentialBackOff :=
  let elapsed := GetElapsedTime now b in
  let next :=
    getRandomValueFromInterval (RandomizationFactor b) random
                               (currentInterval b) in
  let b' := incrementCurrentInterval b in
  if negb (MaxElapsedTime b =? 0) && (MaxElapsedTime b <? elapsed + next)
  then (Stop, b')
  else (next, b').

End backoff.

(** [rand.Float64()]: a multiple of 2^-53 in [0, 1). *)
Definition Float64_of (k : N) : Q :=
  (inject_Z (Z.of_N k mod 2 ^ 53) / inject_Z (2 ^ 53))%Q.

(** ** package axiom: client.go, [Do] *)

(** [Response] wraps the response of attempt [Response_attempt] (a ghost
    field: it names the body that has to be drained and closed). *)
Record Response : Type := mkResponse {
  Response_http : HTTPResponse;
  Response_Limit : Limit;
  Response_attempt : nat
}.

(** What [Do] does to the world around it, in order. *)
Inductive Event : Type :=
  | EvRoundTrip (attempt : nat) (req : Request)  (* c.httpClient.Do(req) *)
  | EvSleep (d : Z)                              (* the timer of Retry *)
  | EvDrain (attempt : nat)          (* io.Copy(io.Discard, resp.Body) *)
  | EvClose (attempt : nat).         (* resp.Body.Close() *)

(** What the world does in answer to an attempt: how long the round trip
    takes, what the transport returns (its error, or a response), and the
    number [rand.Float64()] draws should a retry be considered. *)
Record Attempt : Type := mkAttempt {
  took : N;
  outcome : string + HTTPResponse;
  draw : N
}.

Definition World := nat -> Attempt.

(** The argument [v any] of [Do]. *)
Inductive Target (A : Type) : Type :=
  | v_nil
  | v_Writer
  | v_Value (decode : bool -> bytes -> string + A).
Arguments v_nil {A}.
Arguments v_Writer {A}.
Arguments v_Value {A} decode.

Inductive Output (A : Type) : Type :=
  | out_none
  | out_written (bs : bytes)
  | out_decoded (a : A).
Arguments out_none {A}.
Arguments out_written {A} bs.
Arguments out_decoded {A} a.

Inductive Outcome (A : Type) : Type :=
  | Returned (resp : option Response) (err : option error) (out : Output A)
  | Panicked.
Arguments Returned {A} resp err out.
Arguments Panicked {A}.

(** The variables the closure handed to [backoff.Retry] shares with [Do],
    with the clock and the trace of the world. *)
Record DoState : Type := mkDoState {
  now : Z;
  attempts : nat;
  resp : option Response;
  trace : list Event
}.

Section Do.
Context {Value : Type} `{NetHTTP} `{EncodingJSON Value} `{AxiomPkg}.

Definition newResponse (r : HTTPResponse) (attempt : nat) : Response :=
  mkResponse r (parseLimit r) attempt.

(** The closure handed to [backoff.Retry]. *)
Definition operation (w : World) (req : Request) (st : DoState)
  : option error * DoState :=
  let a := w (attempts st) in
  let st1 := mkDoState (now st + Z.of_N (took a)) (S (attempts st)) (resp st)
                       (trace st ++ [EvRoundTrip (attempts st) req]) in
  match outcome a with
  | inl msg => (Some (net_Error msg), st1)
  | inr httpResp =>
    let st2 := mkDoState (now st1) (attempts st1)
                         (Some (newResponse httpResp (attempts st)))
                         (trace st1) in
    (* We should only retry in the case the status code is >= 500,
       anything below isn't worth retrying. *)
    if 500 <=? StatusCode httpResp
    then (Some (ErrStatusCode (StatusCode httpResp)), st2)
    else (None, st2)
  end.

(** The loop of [backoff.Retry] ([None]: out of fuel).  The operation
    returns no [PermanentError] and the context is the background one. *)
Fixpoint Retry_loop (fuel : nat) (w : World) (req : Request)
  (b : backoff.ExponentialBackOff) (st : DoState)
  : option (option error * DoState) :=
  match fuel with
  | O => None
  | S fuel' =>
    match operation w req st with
    | (None, st1) => Some (None, st1)
    | (Some err, st1) =>
      let '(next, b1) :=
        backoff.NextBackOff (now st1) (Float64_of (draw (w (attempts st))))
                            b in
      if next =? backoff.Stop then Some (Some err, st1)
      else Retry_loop fuel' w req b1
             (mkDoState (now st1 + next) (attempts st1) (resp st1)
                        (trace st1 ++ [EvSleep next]))
    end
  end.

Definition Retry (fuel : nat) (w : World) (req : Request)
  (b : backoff.ExponentialBackOff) (st : DoState)
  : option (option error * DoState) :=
  Retry_loop fuel w req (backoff.Reset (now st) b) st.

(** What [Do] does once [backoff.Retry] has returned [err], with [resp]
    the response the closure has stored last. *)
Definition Do_result {A : Type} (c : Client) (resp : option Response)
  (err : option error) (v : Target A) : Outcome A :=
  match err with
  | Some e => Returned resp (Some e) out_none
  | None =>
    match resp with
    | None => Panicked
    | Some r =>
      let statusCode := StatusCode (Response_http r) in
      let contentType :=
        Header_Get (resp_Header (Response_http r)) headerContentType in
      if 400 <=? statusCode then
        if statusCode =? 401 then Returned resp (Some ErrUnauthenticated)
                                           out_none
        else if statusCode =? 403 then Returned resp (Some ErrUnauthorized)
                                                out_none
        else if statusCode =? 404 then Returned resp (Some ErrNotFound)
                                                out_none
        else if statusCode =? 409 then Returned resp (Some ErrExists)
                                                out_none
        else if (statusCode =? 429) || (statusCode =? httpStatusLimitExceeded)
        then Returned resp (Some (LimitError (Response_Limit r))) out_none
        else if negb (HasPrefix contentType mediaTypeJSON)
        then Returned resp
               (Some (HTTPError statusCode (http_StatusText statusCode)))
               out_none
        else
          let '(buf, decoded) :=
            json_Decode_Error (resp_Body (Response_http r)) in
          match decoded with
          | inl msg =>
            Returned resp
              (Some (ErrDecodingErrorResponse statusCode (json_Error msg)))
              out_none
          | inr None => Panicked
          | inr (Some message) =>
            if String.eqb message EmptyString
            then Returned resp
                   (Some (HTTPError statusCode
                            (ReplaceAll1 (string_of_list_ascii buf) newline
                                         " ")))
                   out_none
            else Returned resp (Some (HTTPError statusCode message)) out_none
          end
      else
        match v with
        | v_nil => Returned resp None out_none
        | v_Writer =>
          Returned resp None (out_written (resp_Body (Response_http r)))
        | v_Value decode =>
          if HasPrefix contentType mediaTypeJSON then
            match decode (strictDecoding c) (resp_Body (Response_http r)) with
            | inl msg => Returned resp (Some (json_Error msg)) out_none
            | inr a => Returned resp None (out_decoded a)
            end
          else
            Returned resp
              (Some (errors_New
                       "cannot decode response with unknown content type"))
              out_none
        end
    end
  end.

(** The deferred function of [Do]. *)
Definition Do_deferred (resp : option Response) : list Event :=
  match resp with
  | Some r => [EvDrain (Response_attempt r); EvClose (Response_attempt r)]
  | None => []
  end.

(** The attempts the retry budget leaves room for: every wait is a tenth
    of a second at least and none ends later than ten seconds after the
    start (see [spec_retry_100] and [Do_total]). *)
Definition max_attempts : nat := 101.

(** [Do], entered at the instant [t0]. *)
Definition Do {A : Type} (c : Client) (w : World) (t0 : Z) (req : Request)
  (v : Target A) : option (Outcome A * list Event) :=
  let bck := backoff.NewExponentialBackOff t0 in
  let bck :=
    backoff.mkExponentialBackOff
      (200 * Millisecond) (backoff.RandomizationFactor bck)
      2 (backoff.MaxInterval bck) (10 * Second)
      (backoff.currentInterval bck) (backoff.startTime bck) in
  match Retry max_attempts w req bck (mkDoState t0 0 None []) with
  | None => None
  | Some (err, st) =>
    Some (Do_result c (resp st) err v, trace st ++ Do_deferred (resp st))
  end.

End Do.
(** ** github.com/klauspost/compress/zstd and io.Pipe *)

(** The streaming compressor over the write end of the pipe.  A [Write]
    and the final [Close] each hand some bytes (maybe none) on to the pipe
    and may fail; [zstd_Decode] is what a [zstd.Reader] yields over a
    complete stream. *)
Class Zstd : Type := {
  zstd_Encoder : Type;
  zstd_NewWriter : string + zstd_Encoder;
  zstd_Write : zstd_Encoder -> bytes -> zstd_Encoder * bytes * option string;
  zstd_Close : zstd_Encoder -> bytes * option string;
  zstd_Decode : bytes -> option bytes
}.

(** What the encoder goroutine does to the compressor and to the pipe. *)
Inductive PipeOp : Type :=
  | OpWrite (out : bytes)              (* zsw.Write: out reaches the pipe *)
  | OpClose (out : bytes)              (* zsw.Close(): out reaches the pipe *)
  | OpCloseWithError (e : option error).   (* pw.CloseWithError(e) *)

(** The read end of the pipe, given what was done to its write end. *)
Fixpoint pipe_reader (log : list PipeOp) : Reader :=
  match log with
  | [] => []
  | OpWrite out :: log' => bytes_Buffer out ++ pipe_reader log'
  | OpClose out :: log' => bytes_Buffer out ++ pipe_reader log'
  | OpCloseWithError None :: _ => []
  | OpCloseWithError (Some e) :: _ => [Fail e]
  end.

(** ** package axiom: datasets.go, ingestion *)

(** [ingest.Failure] and [ingest.Status], after the JSON schema
    {ingested, failed, failures[], processedBytes, blocksCreated,
    walLength}. *)
Record Failure : Type := mkFailure {
  failure_Timestamp : string;
  failure_Error : string
}.

Record Status : Type := mkStatus {
  Ingested : Z;
  Failed : Z;
  Failures : list Failure;
  ProcessedBytes : Z;
  BlocksCreated : Z;
  WALLength : Z
}.

(** [ingest.Status{}] *)
Definition Status_zero : Status := mkStatus 0 0 [] 0 0 0.

Definition ContentType_String (typ : ContentType) : string :=
  match typ with
  | JSON => "application/json"
  | NDJSON => "application/x-ndjson"
  | CSV => "text/csv"
  end.

Inductive ContentEncoding : Type := Identity | Gzip | Zstd_.

Definition ContentEncoding_String (enc : ContentEncoding) : string :=
  match enc with
  | Identity => ""
  | Gzip => "gzip"
  | Zstd_ => "zstd"
  end.

Record DatasetsService : Type := mkDatasetsService {
  client : Client;
  basePath : string
}.

(** What an ingest call returns: a status, an error, or a panic. *)
Inductive IngestResult : Type :=
  | Ingest_ok (res : Status)
  | Ingest_err (e : error)
  | Ingest_panic.

Section Ingest.
Context {Value : Type} `{NetURL} `{NetHTTP} `{EncodingJSON Value} `{AxiomPkg}
        `{Zstd}.
(** [json.NewDecoder(body).Decode(&res)] for [res] an [ingest.Status];
    the flag is [DisallowUnknownFields]. *)
Variable json_Decode_Status : bool -> bytes -> string + Status.

(** The [for] loop over the events: the compressor after it, what reached
    the pipe, and [encErr]. *)
Fixpoint encode_events (zsw : zstd_Encoder) (events : list Value)
  : zstd_Encoder * list PipeOp * option error :=
  match events with
  | [] => (zsw, [], None)
  | event :: rest =>
    match Encoder_bytes event with
    | inl msg => (zsw, [], Some (json_Error msg))
    | inr line =>
      let '(zsw1, out, werr) := zstd_Write zsw line in
      match werr with
      | Some msg => (zsw1, [OpWrite out], Some (zstd_Error msg))
      | None =>
        let '(zsw2, ops, encErr) := encode_events zsw1 rest in
        (zsw2, OpWrite out :: ops, encErr)
      end
    end
  end.

(** The goroutine once the compressor exists: the loop, [zsw.Close()],
    [pw.CloseWithError(encErr)]. *)
Definition encode_and_close (zsw : zstd_Encoder) (events : list Value)
  : list PipeOp :=
  let '(zsw1, ops, encErr) := encode_events zsw events in
  let '(out, closeErr) := zstd_Close zsw1 in
  let encErr1 :=
    match encErr with
    | None =>
      (* If we have no error from encoding but from closing, capture that
         one. *)
      option_map zstd_Error closeErr
    | Some _ => encErr
    end in
  ops ++ [OpClose out; OpCloseWithError encErr1].

(** The goroutine of [IngestEvents]. *)
Definition IngestEvents_goroutine (events : list Value) : list PipeOp :=
  match zstd_NewWriter with
  | inl wErr => [OpCloseWithError (Some (zstd_Error wErr))]
  | inr zsw => encode_and_close zsw events
  end.

(** The goroutine of [IngestChannel]; [events] is what the channel
    delivers before it is closed. *)
Definition IngestChannel_goroutine (events : list Value) : list PipeOp :=
  match zstd_NewWriter with
  | inl wErr => [OpCloseWithError (Some (zstd_Error wErr))]
  | inr zsw => encode_and_close zsw events
  end.

(** From [NewRequest] on, [IngestEvents] and [IngestChannel] read alike. *)
Definition send_ingest (s : DatasetsService) (w : World) (t0 : Z)
  (path : string) (pr : Reader) : option (IngestResult * list Event) :=
  match NewRequest (client s) "POST" path (body_Reader pr) with
  | inl e => Some (Ingest_err e, [])
  | inr req =>
    let h1 := Header_Set (req_Header req) "Content-Type"
                         (ContentType_String NDJSON) in
    let h2 := Header_Set h1 "Content-Encoding"
                         (ContentEncoding_String Zstd_) in
    let req1 := mkRequest (req_Method req) (req_URL req) h2 (req_Body req) in
    match Do (client s) w t0 req1 (v_Value json_Decode_Status) with
    | None => None
    | Some (Returned _ (Some e) _, tr) => Some (Ingest_err e, tr)
    | Some (Returned _ None (out_decoded res), tr) => Some (Ingest_ok res, tr)
    (* res as declared, had Do decoded nothing into it *)
    | Some (Returned _ None _, tr) => Some (Ingest_ok Status_zero, tr)
    | Some (Panicked, tr) => Some (Ingest_panic, tr)
    end
  end.

Definition IngestEvents (s : DatasetsService) (w : World) (t0 : Z)
  (id : string) (events : list Value) (opts : Options)
  : option (IngestResult * list Event) :=
  if (length events =? 0)%nat then Some (Ingest_ok Status_zero, [])
  else
    match AddOptions (basePath s ++ "/" ++ id ++ "/ingest")%string opts with
    | inl msg => Some (Ingest_err (url_Error msg), [])
    | inr path =>
      send_ingest s w t0 path (pipe_reader (IngestEvents_goroutine events))
    end.

Definition IngestChannel (s : DatasetsService) (w : World) (t0 : Z)
  (id : string) (events : list Value) (opts : Options)
  : option (IngestResult * list Event) :=
  match AddOptions (basePath s ++ "/" ++ id ++ "/ingest")%string opts with
  | inl msg => Some (Ingest_err (url_Error msg), [])
  | inr path =>
    send_ingest s w t0 path (pipe_reader (IngestChannel_goroutine events))
  end.

End Ingest.

(** ** The language of a pattern *)

Inductive lang : regexp.Regexp -> bytes -> Prop :=
  | lang_Eps : lang regexp.Eps []
  | lang_Chr (c : ascii) : lang (regexp.Chr c) [c]
  | lang_NotChr (c a : ascii) : a <> c -> lang (regexp.NotChr c) [a]
  | lang_Cat (r1 r2 : regexp.Regexp) (s1 s2 : bytes) :
      lang r1 s1 -> lang r2 s2 -> lang (regexp.Cat r1 r2) (s1 ++ s2)
  | lang_AltL (r1 r2 : regexp.Regexp) (s : bytes) :
      lang r1 s -> lang (regexp.Alt r1 r2) s
  | lang_AltR (r1 r2 : regexp.Regexp) (s : bytes) :
      lang r2 s -> lang (regexp.Alt r1 r2) s
  | lang_Star0 (r : regexp.Regexp) : lang (regexp.Star r) []
  | lang_StarS (r : regexp.Regexp) (s1 s2 : bytes) :
      lang r s1 -> lang (regexp.Star r) s2 -> lang (regexp.Star r) (s1 ++ s2).

(** The paths a token of API scope may be used on: the ingest and the
    query endpoint of a dataset and the APL query endpoint, each with an
    optional query string. *)
Definition query_suffix (q : bytes) : Prop :=
  q = []
  \/ exists q', q = "?"%char :: q' /\ q' <> [] /\ Forall (fun a => a <> newline) q'.

Definition api_token_path (p : bytes) : Prop :=
  exists rest q,
    p = list_ascii_of_string "/api/v1/datasets/" ++ rest ++ q
    /\ query_suffix q
    /\ ((exists id action,
           rest = id ++ "/"%char :: list_ascii_of_string action
           /\ id <> [] /\ Forall (fun a => a <> "/"%char) id
           /\ (action = "ingest"%string \/ action = "query"%string))
        \/ rest = list_ascii_of_string "_apl").

(** ** The retry policy, as the specification words it *)

(** An attempt is worth a retry when the transport fails or the status
    is 500 or above. *)
Definition retryable (a : Attempt) : bool :=
  match outcome a with
  | inl _ => true
  | inr h => 500 <=? StatusCode h
  end.

(** The interval before the jitter: 200ms at first, doubled after each
    attempt, 60s at most. *)
Definition spec_interval (j : nat) : Z :=
  Z.min (200 * Millisecond * 2 ^ Z.of_nat j) (60 * Second).

(** The wait after attempt [j]: the interval with its jitter. *)
Definition spec_wait (w : World) (j : nat) : Z :=
  backoff.getRandomValueFromInterval (1 # 2) (Float64_of (draw (w j)))
                                     (spec_interval j).

(** The instant attempt [j] starts, when the attempts before it were all
    retried. *)
Fixpoint spec_start (w : World) (t0 : Z) (j : nat) : Z :=
  match j with
  | O => t0
  | S j' => spec_start w t0 j' + Z.of_N (took (w j')) + spec_wait w j'
  end.

Definition spec_finish (w : World) (t0 : Z) (j : nat) : Z :=
  spec_start w t0 j + Z.of_N (took (w j)).

(** Attempt [j] is retried: it is worth a retry, and the wait after it
    ends within ten seconds of the start. *)
Definition spec_retry (w : World) (t0 : Z) (j : nat) : bool :=
  retryable (w j)
  && (spec_finish w t0 j - t0 + spec_wait w j <=? 10 * Second).

(** The policy [Do] hands to [backoff.Retry], after [j] waits. *)
Definition policy (j : nat) (start : Z) : backoff.ExponentialBackOff :=
  backoff.mkExponentialBackOff (200 * Millisecond) (1 # 2) 2 (60 * Second)
    (10 * Second) (spec_interval j) start.

Section SpecRun.
Context `{AxiomPkg}.

(** What the closure has stored in [resp] before attempt [j]: the
    response of the latest attempt that received one. *)
Fixpoint spec_resp (w : World) (j : nat) : option Response :=
  match j with
  | O => None
  | S j' =>
    match outcome (w j') with
    | inr h => Some (newResponse h j')
    | inl _ => spec_resp w j'
    end
  end.

(** The error the closure returns for an attempt. *)
Definition spec_err (a : Attempt) : option error :=
  match outcome a with
  | inl msg => Some (net_Error msg)
  | inr h =>
    if 500 <=? StatusCode h then Some (ErrStatusCode (StatusCode h))
    else None
  end.

(** What has happened before attempt [j]. *)
Fixpoint spec_trace (w : World) (req : Request) (j : nat) : list Event :=
  match j with
  | O => []
  | S j' =>
    spec_trace w req j' ++ [EvRoundTrip j' req; EvSleep (spec_wait w j')]
  end.

(** The variables of [Do] as attempt [j] starts. *)
Definition state_at (w : World) (req : Request) (t0 : Z) (j : nat)
  : DoState :=
  mkDoState (spec_start w t0 j) j (spec_resp w j) (spec_trace w req j).

(** ... and as it returns. *)
Definition state_after (w : World) (req : Request) (t0 : Z) (j : nat)
  : DoState :=
  mkDoState (spec_finish w t0 j) (S j) (spec_resp w (S j))
            (spec_trace w req j ++ [EvRoundTrip j req]).
End SpecRun.


(** ** The encoder, as the specification words it *)

(** Newline-delimited JSON: each object on a line of its own. *)
Definition ndjson (objects : list bytes) : bytes :=
  concat (map (fun object => object ++ [newline]) objects).

(** What reached the pipe. *)
Fixpoint written (log : list PipeOp) : bytes :=
  match log with
  | [] => []
  | OpWrite out :: log' => out ++ written log'
  | OpClose out :: log' => out ++ written log'
  | OpCloseWithError _ :: log' => written log'
  end.

Definition is_write (op : PipeOp) : bool :=
  match op with
  | OpWrite _ => true
  | _ => false
  end.

Section ZstdLaws.
Context `{Zstd}.

(** The stream the compressor produces for a sequence of writes and the
    final [Close]. *)
Fixpoint zstd_stream (zsw : zstd_Encoder) (chunks : list bytes) : bytes :=
  match chunks with
  | [] => fst (zstd_Close zsw)
  | p :: rest =>
    let '(zsw1, out, _) := zstd_Write zsw p in
    out ++ zstd_stream zsw1 rest
  end.

(** The compressor is lossless: a reader gets back what was written. *)
Definition zstd_lossless : Prop :=
  forall zsw chunks,
    zstd_NewWriter = inr zsw ->
    zstd_Decode (zstd_stream zsw chunks) = Some (concat chunks).

(** Neither the compressor nor the pipe beneath it fails. *)
Definition zstd_never_fails : Prop :=
  (exists zsw, zstd_NewWriter = inr zsw)
  /\ (forall zsw p, snd (zstd_Write zsw p) = None)
  /\ (forall zsw, snd (zstd_Close zsw) = None).
End ZstdLaws.

(** ** A world to run the code in *)

(** Instances of the libraries, for running the code on examples: URLs
    that are plain absolute paths, events that are flat objects of string
    fields, a compressor that stores its input behind a frame header. *)
Module Example.

Local Open Scope string_scope.

Fixpoint split_query (s : string) : string * string :=
  match s with
  | EmptyString => (EmptyString, EmptyString)
  | String c s' =>
    if Ascii.eqb c "?" then (EmptyString, s')
    else let '(p, q) := split_query s' in (String c p, q)
  end.

(** [url.ParseRequestURI] on an absolute path without escapes. *)
Definition plain_ParseRequestURI (s : string) : string + URL :=
  match s with
  | EmptyString => inl "empty url"
  | String c _ =>
    if Ascii.eqb c "/"
    then let '(p, q) := split_query s in inr (mkURL "" "" p q)
    else inl "invalid URI for request"
  end.

(** [ResolveReference] for a reference that is an absolute path without
    dot segments. *)
Definition plain_ResolveReference (base rel : URL) : URL :=
  mkURL (url_Scheme base) (url_Host base) (url_Path rel) (url_RawQuery rel).

Definition plain_String (u : URL) : string :=
  (url_Scheme u ++ "://" ++ url_Host u ++ url_Path u
   ++ (if String.eqb (url_RawQuery u) "" then ""
       else "?" ++ url_RawQuery u))%string.

#[export] Instance url : NetURL := {|
  url_ParseRequestURI := plain_ParseRequestURI;
  url_ResolveReference := plain_ResolveReference;
  url_String := plain_String
|}.

Definition StatusText (code : Z) : string :=
  match code with
  | 200 => "OK"
  | 400 => "Bad Request"
  | 401 => "Unauthorized"
  | 403 => "Forbidden"
  | 404 => "Not Found"
  | 409 => "Conflict"
  | 418 => "I'm a teapot"
  | 429 => "Too Many Requests"
  | 500 => "Internal Server Error"
  | 503 => "Service Unavailable"
  | _ => ""
  end.

#[export] Instance http : NetHTTP := {|
  http_NewRequest_error := fun _ _ => None;
  http_StatusText := StatusText
|}.

(** An event: a flat object of string fields free of escapes. *)
Definition Fields := list (string * string).

Definition quoted (s : string) : string :=
  String "034" (s ++ String "034" EmptyString).

Fixpoint members (fs : Fields) : string :=
  match fs with
  | [] => EmptyString
  | [(k, v)] => (quoted k ++ ":" ++ quoted v)%string
  | (k, v) :: rest =>
    (quoted k ++ ":" ++ quoted v ++ "," ++ members rest)%string
  end.

Definition Marshal (fs : Fields) : string + bytes :=
  inr (list_ascii_of_string ("{" ++ members fs ++ "}")%string).

(** The error body that is an empty object spread over two lines. *)
Definition empty_object_2_lines : bytes := ["{"; newline; "}"]%char.

(** The decoder of error bodies, on the body above: an error object
    without a message. *)
Definition Decode_Error (body : bytes) : bytes * (string + option string) :=
  if list_eq_dec Ascii.ascii_dec body empty_object_2_lines
  then (body, inr (Some EmptyString))
  else (body, inl "invalid character").

#[export] Instance json : EncodingJSON Fields := {|
  json_Marshal := Marshal;
  json_Decode_Error := Decode_Error
|}.

(** The decoder of ingest statuses, on the body [{}]: all fields are
    absent, so the status is the zero one. *)
Definition Decode_Status (strict : bool) (body : bytes) : string + Status :=
  if list_eq_dec Ascii.ascii_dec body ["{"; "}"]%char
  then inr Status_zero
  else inl "invalid character".

Definition query_param (k v : string) : list string :=
  if String.eqb v "" then [] else [(k ++ "=" ++ v)%string].

(** [AddOptions] on values free of characters to escape. *)
Definition plain_AddOptions (path : string) (o : Options) : string + string :=
  match (query_param "csv-delimiter" (CSVDelimiter o)
         ++ query_param "timestamp-field" (TimestampField o)
         ++ query_param "timestamp-format" (TimestampFormat o))%list with
  | [] => inr path
  | ps => inr (path ++ "?" ++ String.concat "&" ps)%string
  end.

#[export] Instance pkg : AxiomPkg := {|
  IsAPIToken := String.prefix "xaat-";
  IsPersonalToken := String.prefix "xapt-";
  httpStatusLimitExceeded := 430;
  parseLimit := fun _ => mkLimit "" 0 0 0;
  AddOptions := plain_AddOptions
|}.

(** A compressor that stores: the frame header, then the bytes as they
    come.  Its state says whether the header is out. *)
Definition magic : bytes := ["040"; "181"; "047"; "253"]%char.

Definition stored_Write (started : bool) (p : bytes)
  : bool * bytes * option string :=
  (true, ((if started then [] else magic) ++ p)%list, None).

Definition stored_Close (started : bool) : bytes * option string :=
  (if started then [] else magic, None).

Definition stored_Decode (s : bytes) : option bytes :=
  match s with
  | a :: b :: c :: d :: rest =>
    if list_eq_dec Ascii.ascii_dec [a; b; c; d] magic then Some rest
    else None
  | _ => None
  end.

#[export] Instance stored : Zstd := {|
  zstd_Encoder := bool;
  zstd_NewWriter := inr false;
  zstd_Write := stored_Write;
  zstd_Close := stored_Close;
  zstd_Decode := stored_Decode
|}.

Definition base : URL := mkURL "https" "api.axiom.co" "" "".

(** A client with a token of API scope, and one with a personal token. *)
Definition api_client : Client :=
  mkClient (mkConfig base "xaat-test" "") "axiom-go" false.

Definition personal_client : Client :=
  mkClient (mkConfig base "xapt-test" "org") "axiom-go" false.

Definition datasets (c : Client) : DatasetsService :=
  mkDatasetsService c "/api/v1/datasets".

Definition json_header : Header := [("Content-Type", "application/json")].

Definition respond (code : Z) (body : bytes) : Attempt :=
  mkAttempt 1000000 (inr (mkHTTPResponse code json_header body)) 0.

(** A server that answers every request with 200 and [{}]. *)
Definition server_ok : World := fun _ => respond 200 ["{"; "}"]%char.

(** A server that fails once with 500 and answers 200 from then on. *)
Definition server_500_then_ok : World :=
  fun i => match i with
           | O => respond 500 []
           | _ => respond 200 ["{"; "}"]%char
           end.


(** A transport that fails after two seconds, every time. *)
Definition server_down : World :=
  fun _ => mkAttempt 2000000000 (inl "connection refused") 0.

Definition no_options : Options := mkOptions "" "" "".

Definition event1 : Fields := [("a", "b")].
Definition event2 : Fields := [("c", "d")].

(** The table of letters above Latin-1 plays no part on ASCII input. *)
Definition no_letters : Z -> bool := fun _ => false.

(** An input of the detector: an array with one object. *)
Definition json_array : Reader :=
  [Data (list_ascii_of_string "[{"
         ++ ["034"; "a"; "034"; ":"; "034"; "b"; "034"; "}"; "]"]%char)%list].

Definition get_datasets : Request :=
  mkRequest "GET" "https://api.axiom.co/api/v1/datasets" [] None.

End Example.

(** ** What a trace amounts to *)

(** The requests that went to the transport. *)
Fixpoint round_trips (tr : list Event) : nat :=
  match tr with
  | [] => 0
  | EvRoundTrip _ _ :: tr' => S (round_trips tr')
  | _ :: tr' => round_trips tr'
  end.


(** ** package ingest: options.go *)

Module ingest.

(** An [Option] works on the [Options] it is pointed to. *)
Definition Option_ : Type := Options -> Options.

Definition SetTimestampField (field : string) : Option_ :=
  fun o => mkOptions field (TimestampFormat o) (CSVDelimiter o).

Definition SetTimestampFormat (format : string) : Option_ :=
  fun o => mkOptions (TimestampField o) format (CSVDelimiter o).

Definition SetCSVDelimiter (delim : string) : Option_ :=
  fun o => mkOptions (TimestampField o) (TimestampFormat o) delim.

(** [var opts ingest.Options], then the loop
    [for _, option := range options { option(&opts) }]. *)
Definition apply (options : list Option_) : Options :=
  fold_left (fun opts option => option opts) options
            (mkOptions EmptyString EmptyString EmptyString).

(** The three fields, and the option that sets one of them. *)
Inductive Field : Type := timestamp_field | timestamp_format | csv_delimiter.

Definition set (k : Field) (v : string) : Option_ :=
  match k with
  | timestamp_field => SetTimestampField v
  | timestamp_format => SetTimestampFormat v
  | csv_delimiter => SetCSVDelimiter v
  end.

Definition get (k : Field) (o : Options) : string :=
  match k with
  | timestamp_field => TimestampField o
  | timestamp_format => TimestampFormat o
  | csv_delimiter => CSVDelimiter o
  end.

Definition Field_eqb (k k' : Field) : bool :=
  match k, k' with
  | timestamp_field, timestamp_field => true
  | timestamp_format, timestamp_format => true
  | csv_delimiter, csv_delimiter => true
  | _, _ => false
  end.

End ingest.

(** ** package axiom: datasets.go, [Ingest] *)

(** [ErrUnknownContentType] and [ErrUnknownContentEncoding] *)
Definition ErrUnknownContentType : error := errors_New "unknown content type".
Definition ErrUnknownContentEncoding : error :=
  errors_New "unknown content encoding".

(** [ContentType] and [ContentEncoding] are [uint8]: the constants count
    from one ([iota + 1]), and any other number can be handed over. *)
Definition ContentType_of_uint8 (typ : Z) : option ContentType :=
  match typ with
  | 1 => Some JSON
  | 2 => Some NDJSON
  | 3 => Some CSV
  | _ => None
  end.

Definition ContentEncoding_of_uint8 (enc : Z) : option ContentEncoding :=
  match enc with
  | 1 => Some Identity
  | 2 => Some Gzip
  | 3 => Some Zstd_
  | _ => None
  end.

Section IngestReader.
Context {Value : Type} `{NetURL} `{NetHTTP} `{EncodingJSON Value} `{AxiomPkg}.
Variable json_Decode_Status : bool -> bytes -> string + Status.

(** [s.client.Do(req, &res)] and what [Ingest] returns after it. *)
Definition do_ingest (s : DatasetsService) (w : World) (t0 : Z)
  (req : Request) : option (IngestResult * list Event) :=
  match Do (client s) w t0 req (v_Value json_Decode_Status) with
  | None => None
  | Some (Returned _ (Some e) _, tr) => Some (Ingest_err e, tr)
  | Some (Returned _ None (out_decoded res), tr) => Some (Ingest_ok res, tr)
  (* res as declared, had Do decoded nothing into it *)
  | Some (Returned _ None _, tr) => Some (Ingest_ok Status_zero, tr)
  | Some (Panicked, tr) => Some (Ingest_panic, tr)
  end.

(** [Ingest], for a reader [r] that is not [nil]. *)
Definition Ingest (s : DatasetsService) (w : World) (t0 : Z) (id : string)
  (r : Reader) (typ enc : Z) (options : list ingest.Option_)
  : option (IngestResult * list Event) :=
  (* Apply supplied options. *)
  let opts := ingest.apply options in
  match AddOptions (basePath s ++ "/" ++ id ++ "/ingest")%string opts with
  | inl msg => Some (Ingest_err (url_Error msg), [])
  | inr path =>
    match NewRequest (client s) "POST" path (body_Reader r) with
    | inl e => Some (Ingest_err e, [])
    | inr req =>
      match ContentType_of_uint8 typ with
      | None => Some (Ingest_err ErrUnknownContentType, [])
      | Some t =>
        let h1 := Header_Set (req_Header req) "Content-Type"
                             (ContentType_String t) in
        match ContentEncoding_of_uint8 enc with
        | None => Some (Ingest_err ErrUnknownContentEncoding, [])
        | Some Identity =>
          do_ingest s w t0
            (mkRequest (req_Method req) (req_URL req) h1 (req_Body req))
        | Some e =>
          let h2 := Header_Set h1 "Content-Encoding"
                               (ContentEncoding_String e) in
          do_ingest s w t0
            (mkRequest (req_Method req) (req_URL req) h2 (req_Body req))
        end
      end
    end
  end.

End IngestReader.

(** ** package sas: filter.go *)

Module sas.

(** A Go slice as far as [range], [append] and equality go: [nil], or its
    elements. *)
Definition slice (A : Type) : Type := option (list A).

(** [append(s, x)] *)
Definition append {A : Type} (s : slice A) (x : A) : slice A :=
  match s with
  | None => Some [x]
  | Some l => Some (l ++ [x])
  end.

Section Filter.
(** [querylegacy.FilterOp], and what a [Value any] holds. *)
Variables FilterOp Any : Type.

#[local] Unset Elimination Schemes.

(** [querylegacy.Filter] *)
Inductive Filter : Type :=
  mkFilter (Op : FilterOp) (Field : string) (Value : Any)
           (CaseSensitive : bool) (Children : slice Filter).

(** [filter]: the same fields, under two-letter names in JSON. *)
Inductive filter : Type :=
  mkfilter (Op : FilterOp) (Field : string) (Value : Any)
           (CaseSensitive : bool) (Children : slice filter).

#[local] Set Elimination Schemes.

Fixpoint filterFromQueryFilter (qf : Filter) : filter :=
  match qf with
  | mkFilter op field value caseSensitive children =>
    mkfilter op field value caseSensitive
      match children with
      | None => None
      | Some l =>
        fold_left (fun acc child => append acc (filterFromQueryFilter child))
                  l None
      end
  end.

Fixpoint toQueryFilter (f : filter) : Filter :=
  match f with
  | mkfilter op field value caseSensitive children =>
    mkFilter op field value caseSensitive
      match children with
      | None => None
      | Some l =>
        fold_left (fun acc child => append acc (toQueryFilter child)) l None
      end
  end.

(** No filter of the tree has a [Children] that is empty without being
    [nil]. *)
Fixpoint Filter_nil_when_empty (qf : Filter) : bool :=
  match qf with
  | mkFilter _ _ _ _ None => true
  | mkFilter _ _ _ _ (Some []) => false
  | mkFilter _ _ _ _ (Some l) => forallb Filter_nil_when_empty l
  end.

Fixpoint filter_nil_when_empty (f : filter) : bool :=
  match f with
  | mkfilter _ _ _ _ None => true
  | mkfilter _ _ _ _ (Some []) => false
  | mkfilter _ _ _ _ (Some l) => forallb filter_nil_when_empty l
  end.

End Filter.
End sas.

(** ** package axiom: orgs.go, [Plan] *)

(** [strconv.FormatInt(i, 10)] *)
Definition FormatInt (i : Z) : string :=
  DecimalString.NilZero.string_of_int (Z.to_int i).

Module orgs.

(** [Plan] is a [uint8]. *)
Definition emptyPlan : Z := 0.
Definition Hobby : Z := 1.
Definition Basic : Z := 2.
Definition Enterprise : Z := 3.
Definition Comped : Z := 4.

(** [String], as [stringer -linecomment] writes it: the comment on the
    line of a constant is its name, and a number without a constant is
    printed in brackets. *)
Definition Plan_String (i : Z) : string :=
  match i with
  | 0 => ""
  | 1 => "hobby"
  | 2 => "basic"
  | 3 => "enterprise"
  | 4 => "comped"
  | _ => "Plan(" ++ FormatInt i ++ ")"
  end.

Inductive plan_error : Type :=
  (* fmt.Errorf("unknown plan %q", s) *)
  | ErrUnknownPlan (s : string)
  (* the error of json.Marshal or json.Unmarshal *)
  | ErrJSON (msg : string).

(** The results are named: [plan] is zero unless a case sets it. *)
Definition planFromString (s : string) : Z * option plan_error :=
  if String.eqb s (Plan_String emptyPlan) then (emptyPlan, None)
  else if String.eqb s (Plan_String Hobby) then (Hobby, None)
  else if String.eqb s (Plan_String Basic) then (Basic, None)
  else if String.eqb s (Plan_String Enterprise) then (Enterprise, None)
  else if String.eqb s (Plan_String Comped) then (Comped, None)
  else (0, Some (ErrUnknownPlan s)).

Section PlanJSON.
(** [json.Marshal] of a string, and [json.Unmarshal] into a string. *)
Variable json_Marshal_string : string -> string + bytes.
Variable json_Unmarshal_string : bytes -> string + string.

Definition MarshalJSON (p : Z) : plan_error + bytes :=
  match json_Marshal_string (Plan_String p) with
  | inl msg => inl (ErrJSON msg)
  | inr b => inr b
  end.

(** [p.UnmarshalJSON(b)]: what [p] points to afterwards, and the error. *)
Definition UnmarshalJSON (p : Z) (b : bytes) : Z * option plan_error :=
  match json_Unmarshal_string b with
  | inl msg => (p, Some (ErrJSON msg))
  | inr s => planFromString s
  end.

(** The JSON codec gives back the names of the plans. *)
Definition names_survive_json : Prop :=
  forall i, 0 <= i <= 4 ->
    exists b, json_Marshal_string (Plan_String i) = inr b
              /\ json_Unmarshal_string b = inr (Plan_String i).

End PlanJSON.
End orgs.

(** ** float64 and int64 *)

Module float64.

(** The integer nearest to [q], the even one of two that are as near. *)
Definition round_even (q : Q) : Z :=
  let f := Qfloor q in
  match (q - inject_Z f ?= 1 # 2)%Q with
  | Lt => f
  | Gt => f + 1
  | Eq => if Z.even f then f else f + 1
  end.

(** The [k] with [2^k <= q < 2^(k+1)], for [q] above 0: the difference of
    the lengths of numerator and denominator, or one less. *)
Definition ilog2 (q : Q) : Z :=
  let k := Z.log2 (Qnum q) - Z.log2 (Zpos (Qden q)) in
  if Qle_bool (2 ^ k) q then k else k - 1.

(** The [float64] nearest to [q] above 0: 53 binary digits, ties to
    even.  The exponent is taken to be in range, as it is for the numbers
    of seconds and their fractions. *)
Definition round_pos (q : Q) : Q :=
  let e := ilog2 q - 52 in
  (inject_Z (round_even (q / 2 ^ e)) * 2 ^ e)%Q.

(** The result of an operation of [float64] whose exact result is [q]. *)
Definition round (q : Q) : Q :=
  match (q ?= 0)%Q with
  | Eq => 0%Q
  | Gt => round_pos q
  | Lt => (- round_pos (- q))%Q
  end.

End float64.

(** The [int64] that [z] is, with the wrap-around of the arithmetic. *)
Definition int64 (z : Z) : Z := (z + 2 ^ 63) mod 2 ^ 64 - 2 ^ 63.

(** ** package time *)

(** [d.Seconds()]:
    [sec := d / Second; nsec := d % Second;
     return float64(sec) + float64(nsec)/1e9] *)
Definition Seconds (d : Z) : Q :=
  let sec := Z.quot d Second in
  let nsec := Z.rem d Second in
  float64.round
    (float64.round (inject_Z sec)
     + float64.round (float64.round (inject_Z nsec) / inject_Z 1000000000))%Q.

(** ** package axiom: orgs.go, [License] *)

Module license.
Section License.
(** The fields of a [License] other than the two windows. *)
Variable Others : Type.

Record License : Type := mkLicense {
  MaxQueryWindow : Z;      (* time.Duration *)
  MaxAuditWindow : Z;      (* time.Duration *)
  others : Others
}.

(** [json.Marshal(localLicense(l))], and [json.Unmarshal(b, localLicense(l))]
    (what [l] points to afterwards); the windows go as their numbers. *)
Variable json_Marshal_License : License -> string + bytes.
Variable json_Unmarshal_License : bytes -> License -> string + License.

Definition MarshalJSON (l : License) : string + bytes :=
  (* Set to the value in seconds. *)
  json_Marshal_License
    (mkLicense (backoff.Duration_of (Seconds (MaxQueryWindow l)))
               (backoff.Duration_of (Seconds (MaxAuditWindow l)))
               (others l)).

Definition UnmarshalJSON (l : License) (b : bytes) : string + License :=
  match json_Unmarshal_License b l with
  | inl msg => inl msg
  | inr l1 =>
    (* Set to a proper time.Duration value by interpreting the server
       response value in seconds. *)
    inr (mkLicense (int64 (MaxQueryWindow l1 * Second))
                   (int64 (MaxAuditWindow l1 * Second))
                   (others l1))
  end.



End License.
End license.

(** ** A reader that fails *)

Section FailingReader.
(** The error of the read that fails, and the reader from then on. *)
Variables (e : error) (post : Reader).

(** [b], had its reader a failing read and [post] after what it holds. *)
Definition followed (b : bufio.Reader_) : bufio.Reader_ :=
  bufio.mkReader (bufio.size b) (bufio.data b) (bufio.r b)
                 (bufio.rd b ++ Fail e :: post) (bufio.err b)
                 (bufio.lastRuneSize b).

(** [b], had the failing read taken the place of the end of input. *)
Definition failed (b : bufio.Reader_) : bufio.Reader_ :=
  bufio.mkReader (bufio.size b) (bufio.data b) (bufio.r b) post (Some e)
                 (bufio.lastRuneSize b).

(** The reader has had no error but, maybe, that of reads that were all
    empty. *)
Definition calm (b : bufio.Reader_) : Prop :=
  bufio.err b = None \/ bufio.err b = Some ErrNoProgress.

(** What [DetectContentType] returns for the error [e] of [ReadRune]. *)
Definition reported : error :=
  match e with
  | EOF => errors_New "couldn't find beginning of supported ingestion format"
  | _ => e
  end.

(** The result of [detect_loop] on the reader that fails, given the
    result on the reader that comes to its end instead. *)
Definition alike (res1 res2 : option (error + (Reader * ContentType)))
  : Prop :=
  match res1 with
  | None => res2 = None
  | Some (inl x) =>
    (x <> errors_New "couldn't find beginning of supported ingestion format"
     /\ res2 = Some (inl x))
    \/ (x = errors_New "couldn't find beginning of supported ingestion format"
        /\ res2 = Some (inl reported))
  | Some (inr (_, typ)) => exists r', res2 = Some (inr (r', typ))
  end.

End FailingReader.

(** ** package axiom: datasets.go, the paths of the requests *)

(** The paths [DatasetsService] asks for, [basePath] being
    [/api/v1/datasets] as [NewClient] sets it. *)
Module paths.

Definition basePath : string := "/api/v1/datasets".

(* Ingest, IngestEvents, IngestChannel, before AddOptions *)
Definition ingest (id : string) : string :=
  (basePath ++ "/" ++ id ++ "/ingest")%string.


End paths.

(** ** More of the world to run the code in *)

Module Cases.
Import Example.
Local Open Scope string_scope.

(** The JSON [null]. *)
Definition null : bytes := ["n"; "u"; "l"; "l"]%char.

(** A decoder of error bodies that knows [null] as well: it leaves no
    error object. *)
Definition Decode_Error_null (body : bytes)
  : bytes * (string + option string) :=
  if list_eq_dec Ascii.ascii_dec body null then (body, inr None)
  else Decode_Error body.

Definition json_null : EncodingJSON Fields := {|
  json_Marshal := Marshal;
  json_Decode_Error := Decode_Error_null
|}.

(** A server that answers 400 with [null]. *)
Definition server_null : World := fun _ => respond 400 null.

(** Events some of which cannot be serialized: [None] stands for a value
    that [json.Marshal] refuses. *)
Definition Marshal_opt (v : option Fields) : string + bytes :=
  match v with
  | Some fs => Marshal fs
  | None => inl "json: unsupported type: chan int"
  end.

Definition json_opt : EncodingJSON (option Fields) := {|
  json_Marshal := Marshal_opt;
  json_Decode_Error := Decode_Error
|}.

(** JSON strings free of escapes: between two quotes. *)
Definition Marshal_string (s : string) : string + bytes :=
  inr (list_ascii_of_string (quoted s)).

Definition Unmarshal_string (b : bytes) : string + string :=
  match b with
  | [] => inl "unexpected end of JSON input"
  | q :: rest =>
    match rev rest with
    | [] => inl "unexpected end of JSON input"
    | q' :: inner =>
      if Ascii.eqb q "034" && Ascii.eqb q' "034"
      then inr (string_of_list_ascii (rev inner))
      else inl "invalid character"
    end
  end.








(** An input of [Ingest]. *)
Definition two_spaces_and_object : Reader :=
  [Data [" "; " "]%char; Data ["{"; "}"]%char].

End Cases.


(** * Proofs *)

(** ** unicode/utf8 *)

Section Utf8Facts.
Import utf8.

Lemma first_cases (b : ascii) :
  In (first b) [as_; xx; s1; s2; s3; s4; s5; s6; s7].
Proof.
  unfold first.
  repeat match goal with |- context [if ?c then _ else _] => destruct c end;
    simpl; tauto.
Qed.

Ltac first_case b :=
  let H := fresh "Hf" in
  pose proof (first_cases b) as H; simpl in H;
  repeat (destruct H as [H|H]); try contradiction;
  rewrite <- H; clear H.

Lemma FullRune_long (p : bytes) : (4 <= length p)%nat -> FullRune p = true.
Proof.
  destruct p as [|p0 t]; simpl; [lia|]. intros H.
  unfold FullRune. 
  first_case p0; vm_compute (Z.to_nat _);
  match goal with |- context [(?a <=? ?b)%nat] => destruct (Nat.leb_spec a b) end; try reflexivity; simpl in *; lia.
Qed.

Ltac width_norm :=
  repeat match goal with
  | |- context [Z.to_nat (Z.land ?c 7)] =>
    let v := eval vm_compute in (Z.to_nat (Z.land c 7)) in
    change (Z.to_nat (Z.land c 7)) with v
  | |- context [acceptRanges (Z.shiftr ?c 4)] =>
    let v := eval vm_compute in (acceptRanges (Z.shiftr c 4)) in
    change (acceptRanges (Z.shiftr c 4)) with v
  | |- context [(?a <=? ?c)%Z] =>
    let v := eval vm_compute in (a <=? c)%Z in
    match v with true => idtac | false => idtac end;
    change (a <=? c)%Z with v
  end.

Lemma DecodeRune_app (p q : bytes) :
  FullRune p = true -> DecodeRune (p ++ q) = DecodeRune p.
Proof.
  destruct p as [|p0 t]; [discriminate|].
  unfold FullRune, DecodeRune. rewrite <- app_comm_cons.
  first_case p0; width_norm; cbv iota beta zeta;
  destruct t as [|p1 [|p2 [|p3 t]]]; cbn [length app Nat.leb Nat.ltb];
  try reflexivity; try discriminate;
  repeat match goal with
  | |- context [outside ?b ?lo ?hi] => destruct (outside b lo hi)
  end; try reflexivity; try discriminate;
  intros _; repeat match goal with
  | |- context [if ?c then _ else _] => destruct c
  end; reflexivity.
Qed.

Lemma DecodeRune_size (p : bytes) :
  p <> [] -> (1 <= snd (DecodeRune p) <= length p)%nat.
Proof.
  destruct p as [|p0 t]; [congruence|]. intros _.
  unfold DecodeRune.
  first_case p0; width_norm; cbv iota beta zeta;
  destruct t as [|p1 [|p2 [|p3 t]]]; cbn [length app Nat.leb Nat.ltb];
  repeat match goal with
  | |- context [outside ?b ?lo ?hi] => destruct (outside b lo hi)
  end; cbn [snd length]; lia.
Qed.

Lemma DecodeRune_ascii (p0 : ascii) (t : bytes) :
  (val p0 <? RuneSelf) = true -> DecodeRune (p0 :: t) = (val p0, 1%nat).
Proof.
  intros H. unfold DecodeRune, first. unfold RuneSelf in H.
  change 0x80 with 128 in *. rewrite H. width_norm. cbv iota beta zeta.
  change (Z.testbit as_ 0) with false. cbv iota.
  change (Z.lnot 0) with (-1). rewrite Z.land_m1_r, Z.land_0_r, Z.lor_0_r.
  reflexivity.
Qed.

End Utf8Facts.

(** ** io, bufio *)

Section BufioFacts.
Import utf8 bufio.

Lemma content_cons bs rd0 : content (Data bs :: rd0) = bs ++ content rd0.
Proof. unfold content. simpl. destruct (ReadAll rd0). reflexivity. Qed.

Lemma reader_bytes_content rd0 :
  well_behaved rd0 = true -> reader_bytes rd0 = length (content rd0).
Proof.
  induction rd0 as [|[bs|e] rd0 IH]; simpl; intros H; try reflexivity.
  - apply andb_prop in H as [_ H]. rewrite content_cons, length_app, IH; auto.
  - discriminate.
Qed.

Lemma Read_spec rd0 n :
  well_behaved rd0 = true -> (0 < n)%nat ->
  match Read rd0 n with
  | (bs, None, rd1) =>
      bs <> [] /\ (length bs <= n)%nat /\ well_behaved rd1 = true
      /\ content rd0 = bs ++ content rd1
  | (bs, Some e, rd1) => bs = [] /\ e = EOF /\ rd0 = [] /\ rd1 = []
  end.
Proof.
  intros Hwb Hn. destruct rd0 as [|[bs|e] rd0]; simpl in *.
  - auto.
  - apply andb_prop in Hwb as [Hne Hwb].
    destruct (Nat.leb_spec (length bs) n).
    + repeat split; auto.
      * destruct bs; [discriminate|congruence].
      * apply content_cons.
    + repeat split.
      * destruct bs; [discriminate|]. destruct n; [lia|]. simpl. congruence.
      * rewrite length_firstn. lia.
      * simpl. rewrite Hwb.
        destruct (skipn n bs) eqn:E; [|reflexivity].
        apply (f_equal (@length _)) in E. rewrite length_skipn in E.
        simpl in E. lia.
      * rewrite !content_cons, app_assoc, firstn_skipn. reflexivity.
  - discriminate.
Qed.


Lemma fill_read_spec i b rest :
  inv b rest -> err b = None -> r b = 0%nat -> (w b < size b)%nat ->
  let b' := fill_read (S i) b in
  inv b' rest /\ r b' = 0%nat /\
  ((length (data b) < length (data b'))%nat /\ err b' = None
   \/ (err b' = Some EOF /\ data b' = data b)).
Proof.
  intros [Hr Hw Hs Hrd He Hrest] Herr Hr0 Hfull.
  cbv zeta. unfold unread in Hrest. rewrite Hr0 in Hrest. simpl in Hrest.
  change (fill_read (S i) b) with
    (let '(bs, e, rd') := Read (rd b) (size b - w b) in
     let b' := mkReader (size b) (data b ++ bs) (r b) rd' (err b)
                        (lastRuneSize b) in
     match e with
     | Some e' => mkReader (size b') (data b') (r b') (rd b') (Some e')
                           (lastRuneSize b')
     | None => if (0 <? length bs)%nat then b' else fill_read i b'
     end).
  pose proof (@Read_spec (rd b) (size b - w b) Hrd ltac:(lia)) as HR.
  destruct (Read (rd b) (size b - w b)) as [[bs [e|]] rd1]; cbv zeta.
  - destruct HR as (-> & -> & Hnil & ->).
    repeat split; unfold w, unread in *; simpl; rewrite ?app_nil_r;
      auto; try lia.
    rewrite Hr0. simpl. rewrite Hnil in Hrest. unfold content in Hrest.
    simpl in Hrest. rewrite app_nil_r in Hrest. exact Hrest.
  - destruct HR as (Hne & Hlen & Hwb & Hc).
    destruct (Nat.ltb_spec 0 (length bs)) as [Hpos|Hpos];
      [|destruct bs; [congruence|simpl in Hpos; lia]].
    repeat split; unfold w, unread in *; simpl; auto; try lia.
    + rewrite length_app. lia.
    + rewrite Hr0. simpl. rewrite <- Hrest, Hc, app_assoc. reflexivity.
    + left. rewrite length_app. split; [lia|exact Herr].
Qed.

(** One call of [fill] on a reader that holds no error and whose buffer is
    not full either buffers more bytes or records the end of the input. *)
Lemma fill_spec b rest :
  inv b rest -> err b = None -> (w b - r b < size b)%nat ->
  inv (fill b) rest /\
  ((length (unread b) < length (unread (fill b)))%nat /\ err (fill b) = None
   \/ (err (fill b) = Some EOF /\ unread (fill b) = unread b)).
Proof.
  intros Hinv Herr Hfull. pose proof Hinv as [Hr Hw Hs Hrd He Hrest].
  unfold fill.
  set (b1 := if (0 <? r b)%nat then _ else b).
  assert (H1 : inv b1 rest /\ data b1 = unread b /\ r b1 = 0%nat
               /\ size b1 = size b /\ err b1 = None).
  { subst b1. destruct (Nat.ltb_spec 0 (r b)).
    - repeat split; unfold unread, w in *; simpl; auto; try lia.
      rewrite length_skipn. lia.
    - assert (r b = 0%nat) as Hz by lia.
      split; [exact Hinv|]. unfold unread. rewrite Hz. auto. }
  destruct H1 as (Hinv1 & Hd1 & Hr1 & Hs1 & He1).
  clearbody b1. unfold maxConsecutiveEmptyReads.
  assert (Hfull1 : (w b1 < size b1)%nat).
  { unfold w. rewrite Hd1, Hs1. unfold unread. rewrite length_skipn.
    unfold w in Hfull. lia. }
  pose proof (@fill_read_spec 99 b1 rest Hinv1 He1 Hr1 Hfull1) as Hspec.
  cbv zeta in Hspec.
  change (fill_read 100 b1) with (fill_read (S 99) b1).
  generalize dependent (fill_read (S 99) b1).
  intros b2 (Hinv2 & Hr2 & Hprog).
  split; [exact Hinv2|].
  assert (Hu2 : unread b2 = data b2).
  { unfold unread. rewrite Hr2. reflexivity. }
  rewrite Hu2.
  destruct Hprog as [[Hlt Hn]|[He2 Hd2]]; [left|right].
  - split; [|exact Hn]. rewrite <- Hd1. exact Hlt.
  - split; [exact He2|]. rewrite Hd2. exact Hd1.
Qed.

Lemma unread_length b : (r b <= w b)%nat -> length (unread b) = (w b - r b)%nat.
Proof. intros _. unfold unread, w. apply length_skipn. Qed.

Lemma inv_eof b rest :
  inv b rest -> err b <> None -> unread b = rest.
Proof.
  intros [Hr Hw Hs Hrd He Hrest] Hne.
  destruct He as [He|[He Hnil]]; [congruence|].
  rewrite Hnil in Hrest. unfold content in Hrest. simpl in Hrest.
  rewrite app_nil_r in Hrest. exact Hrest.
Qed.

Lemma loop_cond_false b rest :
  inv b rest -> loop_cond b = false -> settled b rest.
Proof.
  intros Hinv Hc. pose proof Hinv as [Hr Hw Hs Hrd He Hrest].
  pose proof (unread_length b Hr) as Hlen.
  assert (Hfull : (4 <= length (unread b))%nat ->
                  DecodeRune (unread b) = DecodeRune rest).
  { intros H4. rewrite <- Hrest. symmetry. apply DecodeRune_app.
    apply FullRune_long. exact H4. }
  unfold loop_cond, UTFMax in Hc.
  destruct (Nat.ltb_spec (w b) (r b + 4)) as [H1|H1]; cbn [andb] in Hc.
  2:{ split; [exact Hinv|]. split; [|intros _; apply Hfull; lia].
      intros Hnil. rewrite Hnil in Hlen. simpl in Hlen. lia. }
  destruct (FullRune (unread b)) eqn:HF; cbn [andb negb] in Hc.
  { split; [exact Hinv|]. split.
    - intros Hnil. rewrite Hnil in HF. discriminate.
    - intros _. rewrite <- Hrest. symmetry. apply DecodeRune_app, HF. }
  destruct (err b) as [e|] eqn:Herr; cbn [andb] in Hc.
  { assert (Hu : unread b = rest) by (apply (inv_eof Hinv); congruence).
    split; [exact Hinv|]. split.
    - intros Hnil. destruct He as [He|[He _]]; [congruence|].
      split; congruence.
    - intros _. rewrite Hu. reflexivity. }
  destruct (Nat.ltb_spec (w b - r b) (size b)) as [H2|H2]; [discriminate|].
  split; [exact Hinv|]. split; [|intros _; apply Hfull; lia].
  intros Hnil. rewrite Hnil in Hlen. simpl in Hlen. lia.
Qed.

Lemma ReadRune_loop_eq n b :
  ReadRune_loop (S n) b
  = if loop_cond b then ReadRune_loop n (fill b) else b.
Proof. reflexivity. Qed.

Lemma ReadRune_loop_stopped n b :
  err b <> None -> ReadRune_loop n b = b.
Proof.
  intros H. destruct n; [reflexivity|]. rewrite ReadRune_loop_eq.
  unfold loop_cond. destruct (err b); [|congruence].
  rewrite andb_false_r. reflexivity.
Qed.

Lemma ReadRune_loop_spec n : forall b rest,
  inv b rest -> (4 <= length (unread b) + n)%nat ->
  settled (ReadRune_loop n b) rest.
Proof.
  induction n as [|n IH]; intros b rest Hinv Hn.
  - simpl. pose proof Hinv as [Hr Hw Hs Hrd He Hrest].
    split; [exact Hinv|]. split.
    + intros Hnil. rewrite Hnil in Hn. simpl in Hn. lia.
    + intros _. rewrite <- Hrest. symmetry.
      apply DecodeRune_app, FullRune_long. lia.
  - rewrite ReadRune_loop_eq. destruct (loop_cond b) eqn:Hc.
    2:{ apply loop_cond_false; assumption. }
    unfold loop_cond in Hc.
    apply andb_prop in Hc as [Hc H4]. apply andb_prop in Hc as [Hc H3].
    assert (Herr : err b = None) by (destruct (err b); [discriminate|auto]).
    apply Nat.ltb_lt in H4.
    destruct (fill_spec Hinv Herr H4) as (Hinv' & [[Hlt He']|[He' Hu]]).
    + apply IH; [exact Hinv'|lia].
    + rewrite ReadRune_loop_stopped by congruence.
      apply loop_cond_false; [exact Hinv'|].
      unfold loop_cond. rewrite He'. rewrite andb_false_r. reflexivity.
Qed.

(** [ReadRune] on a reader in the state [inv b rest]. *)
Lemma ReadRune_spec b rest :
  inv b rest ->
  match rest with
  | [] => exists b', ReadRune b = (0, 0%nat, Some EOF, b')
  | _ :: _ =>
    exists b', ReadRune b
               = (fst (DecodeRune rest), snd (DecodeRune rest), None, b')
    /\ inv b' (skipn (snd (DecodeRune rest)) rest)
    /\ lastRuneSize b' = Z.of_nat (snd (DecodeRune rest))
    /\ (snd (DecodeRune rest) <= r b')%nat
    /\ skipn (r b' - snd (DecodeRune rest)) (data b') ++ content (rd b')
       = rest
  end.
Proof.
  intros Hinv.
  assert (H40 : (4 <= length (unread b) + UTFMax)%nat) by (unfold UTFMax; lia).
  destruct (ReadRune_loop_spec UTFMax Hinv H40) as (Hinv1 & Hnil & Hdec).
  unfold ReadRune. set (b1 := ReadRune_loop UTFMax b) in *. clearbody b1.
  pose proof Hinv1 as [Hr Hw Hs Hrd He Hrest].
  pose proof (unread_length b1 Hr) as Hlen.
  destruct (Nat.eqb_spec (r b1) (w b1)) as [Heq|Hne].
  - assert (Hu : unread b1 = []).
    { apply length_zero_iff_nil. lia. }
    destruct (Hnil Hu) as [He1 ->]. unfold readErr. rewrite He1.
    eexists. reflexivity.
  - assert (Hu : unread b1 <> []).
    { intros Hu. rewrite Hu in Hlen. simpl in Hlen. lia. }
    specialize (Hdec Hu).
    assert (Hrest_ne : rest <> []).
    { intros ->. rewrite <- Hrest in Hu.
      destruct (unread b1); [congruence|discriminate]. }
    destruct rest as [|c0 rest']; [congruence|].
    assert (Hsame : (match unread b1 with
                     | [] => (0, 1%nat)
                     | p0 :: _ => if val p0 <? RuneSelf then (val p0, 1%nat)
                                  else DecodeRune (unread b1)
                     end) = DecodeRune (c0 :: rest')).
    { rewrite <- Hdec. destruct (unread b1) as [|p0 t] eqn:E; [congruence|].
      destruct (val p0 <? RuneSelf) eqn:Ha; [|reflexivity].
      symmetry. apply DecodeRune_ascii. exact Ha. }
    rewrite Hsame.
    pose proof (DecodeRune_size Hu) as Hsz. rewrite Hdec in Hsz.
    destruct (DecodeRune (c0 :: rest')) as [c sz] eqn:ED. cbn [fst snd] in *.
    eexists. split; [reflexivity|]. cbn [lastRuneSize r].
    split; [|split; [reflexivity|split; [lia|]]].
    2:{ replace (r b1 + sz - sz)%nat with (r b1) by lia. exact Hrest. }
    unfold unread, w in *.
    constructor; unfold unread, w; cbn [r data size rd err]; auto; try lia.
    rewrite <- Hrest, skipn_app, skipn_skipn.
    replace (sz - length (skipn (r b1) (data b1)))%nat with 0%nat by lia.
    rewrite (Nat.add_comm sz). reflexivity.
Qed.

Lemma skip_space_aux_fuel n : forall m s,
  (length s <= n)%nat -> (length s <= m)%nat ->
  skip_space_aux n s = skip_space_aux m s.
Proof.
  induction n as [|n IH]; intros m s Hn Hm.
  - destruct s; [|simpl in Hn; lia]. destruct m; reflexivity.
  - destruct m as [|m].
    + destruct s; [reflexivity|simpl in Hm; lia].
    + destruct s as [|c0 s']; [reflexivity|].
      cbn [skip_space_aux].
      pose proof (@DecodeRune_size (c0 :: s') ltac:(discriminate)) as Hsz.
      destruct (DecodeRune (c0 :: s')) as [c sz]. cbn [snd] in Hsz.
      destruct (unicode.IsSpace c); [|reflexivity].
      apply IH; rewrite length_skipn; cbn [length] in *; lia.
Qed.

Lemma skip_space_nil : skip_space [] = [].
Proof. reflexivity. Qed.

Lemma skip_space_cons c0 s :
  skip_space (c0 :: s)
  = if unicode.IsSpace (fst (DecodeRune (c0 :: s)))
    then skip_space (skipn (snd (DecodeRune (c0 :: s))) (c0 :: s))
    else c0 :: s.
Proof.
  unfold skip_space at 1. cbn [length skip_space_aux].
  pose proof (@DecodeRune_size (c0 :: s) ltac:(discriminate)) as Hsz.
  destruct (DecodeRune (c0 :: s)) as [c sz]. cbn [fst snd] in *.
  destruct (unicode.IsSpace c); [|reflexivity].
  apply skip_space_aux_fuel; rewrite length_skipn; cbn [length] in *; lia.
Qed.

Lemma ReadAll_well_behaved rd0 :
  well_behaved rd0 = true -> ReadAll rd0 = (content rd0, None).
Proof.
  induction rd0 as [|[bs|e] rd0 IH]; simpl; intros H.
  - reflexivity.
  - apply andb_prop in H as [_ H]. rewrite content_cons.
    rewrite (IH H). reflexivity.
  - discriminate.
Qed.

Lemma ReadAll_MultiReader buf rd0 :
  well_behaved rd0 = true ->
  ReadAll (MultiReader buf rd0) = (buf ++ content rd0, None).
Proof.
  intros H. destruct buf as [|c buf]; simpl.
  - apply ReadAll_well_behaved, H.
  - rewrite (ReadAll_well_behaved _ H). reflexivity.
Qed.

(** After a successful [ReadRune], the tail of [DetectContentType] succeeds
    and hands back the buffered bytes from the rune on, followed by what the
    underlying reader still holds. *)
Lemma detected_spec typ b rest sz :
  (r b <= w b)%nat -> (w b <= size b)%nat ->
  lastRuneSize b = Z.of_nat sz -> (sz <= r b)%nat ->
  well_behaved (rd b) = true ->
  skipn (r b - sz) (data b) ++ content (rd b) = rest ->
  exists r', detected typ b = inr (r', typ) /\ ReadAll r' = (rest, None).
Proof.
  intros Hr Hw Hl Hsz Hwb Hrest.
  unfold detected, UnreadRune. rewrite Hl.
  destruct (Z.ltb_spec (Z.of_nat sz) 0) as [H|_]; [lia|].
  destruct (Z.ltb_spec (Z.of_nat (r b)) (Z.of_nat sz)) as [H|_]; [lia|].
  cbn [orb]. rewrite Nat2Z.id.
  set (b1 := mkReader _ _ _ _ _ _).
  unfold Peek, Buffered.
  set (b0 := mkReader _ _ _ _ _ _).
  assert (Hloop : Peek_loop (S (w b1 - r b1)) (w b1 - r b1) b0 = b0).
  { cbn [Peek_loop]. unfold w. cbn [data r b0 b1].
    rewrite Nat.ltb_irrefl. reflexivity. }
  rewrite Hloop. unfold w. cbn [data r size b0 b1 rd err].
  unfold w in *.
  destruct (Nat.ltb_spec (size b) (length (data b) - (r b - sz))) as [H|_];
    [lia|].
  rewrite Nat.ltb_irrefl.
  eexists. split; [reflexivity|].
  rewrite ReadAll_MultiReader by exact Hwb.
  unfold unread. subst b0 b1. cbn [r data rd].
  rewrite <- length_skipn, firstn_all. rewrite Hrest. reflexivity.
Qed.

Lemma IsSpace_not_structural c :
  (c =? rune "[") || (c =? rune "{") || (c =? rune "034") = true ->
  unicode.IsSpace c = false.
Proof.
  intros H. apply orb_prop in H as [H|H]; [apply orb_prop in H as [H|H]|];
    apply Z.eqb_eq in H; subst c; reflexivity.
Qed.

End BufioFacts.

(** ** DetectContentType *)

Section Detect.
Import utf8 bufio.
Variable L : Z -> bool.
Hypothesis HL : letters_not_space L.

Lemma classify_skip c0 s :
  unicode.IsSpace (fst (DecodeRune (c0 :: s))) = true ->
  classify L (c0 :: s)
  = classify L (skipn (snd (DecodeRune (c0 :: s))) (c0 :: s)).
Proof.
  intros H. unfold classify. rewrite skip_space_cons, H. reflexivity.
Qed.

Lemma detect_loop_spec fuel : forall b rest,
  inv b rest -> (length rest < fuel)%nat ->
  match classify L rest with
  | inl e => detect_loop L fuel b = Some (inl e)
  | inr typ =>
    exists r', detect_loop L fuel b = Some (inr (r', typ))
               /\ ReadAll r' = (skip_space rest, None)
  end.
Proof.
  induction fuel as [|fuel IH]; intros b rest Hinv Hfuel; [lia|].
  pose proof (ReadRune_spec Hinv) as HR.
  cbn [detect_loop].
  destruct rest as [|c0 s].
  - destruct HR as [b' ->]. reflexivity.
  - destruct HR as (b' & -> & Hinv' & Hl & Hsz & Hun).
    pose proof (@DecodeRune_size (c0 :: s) ltac:(discriminate)) as Hsize.
    set (c := fst (DecodeRune (c0 :: s))) in *.
    set (sz := snd (DecodeRune (c0 :: s))) in *.
    pose proof Hinv' as [Hr Hw Hs Hrd He Hrest].
    assert (Hstop : unicode.IsSpace c = false ->
                    skip_space (c0 :: s) = c0 :: s).
    { intros Hns. rewrite skip_space_cons. fold c. rewrite Hns. reflexivity. }
    assert (Hok : forall typ, unicode.IsSpace c = false ->
              exists r', Some (detected typ b') = Some (inr (r', typ))
                         /\ ReadAll r' = (c0 :: s, None)).
    { intros typ Hns.
      destruct (@detected_spec typ b' (c0 :: s) sz Hr Hw Hl Hsz Hrd Hun)
        as (r' & -> & HRA).
      exists r'. auto. }
    destruct (c =? rune "[") eqn:E1.
    { assert (Hns : unicode.IsSpace c = false).
      { apply IsSpace_not_structural. rewrite E1. reflexivity. }
      unfold classify. rewrite (Hstop Hns). fold c. rewrite E1.
      apply Hok, Hns. }
    destruct (c =? rune "{") eqn:E2.
    { assert (Hns : unicode.IsSpace c = false).
      { apply IsSpace_not_structural. rewrite E2, orb_true_r. reflexivity. }
      unfold classify. rewrite (Hstop Hns). fold c. rewrite E1, E2.
      apply Hok, Hns. }
    destruct (unicode.IsLetter L c || (c =? rune "034")) eqn:E3.
    { assert (Hns : unicode.IsSpace c = false).
      { apply orb_prop in E3 as [E3|E3].
        - destruct (unicode.IsSpace c) eqn:Hsp; [|reflexivity].
          rewrite (HL _ Hsp) in E3. discriminate.
        - apply IsSpace_not_structural. rewrite E3, orb_true_r. reflexivity. }
      unfold classify. rewrite (Hstop Hns). fold c. rewrite E1, E2, E3.
      apply Hok, Hns. }
    destruct (unicode.IsSpace c) eqn:E4.
    + rewrite classify_skip by exact E4. fold sz.
      specialize (IH b' (skipn sz (c0 :: s)) Hinv').
      assert (Hlen : (length (skipn sz (c0 :: s)) < fuel)%nat).
      { rewrite length_skipn. cbn [length] in *. lia. }
      specialize (IH Hlen).
      destruct (classify L (skipn sz (c0 :: s))) as [e|typ]; [exact IH|].
      destruct IH as (r' & -> & HRA). exists r'. split; [reflexivity|].
      rewrite skip_space_cons. fold c sz. rewrite E4. exact HRA.
    + unfold classify. rewrite (Hstop eq_refl). fold c. rewrite E1, E2, E3.
      reflexivity.
Qed.

Lemma NewReader_inv rd0 :
  well_behaved rd0 = true -> inv (NewReader rd0) (content rd0).
Proof.
  intros H. constructor; unfold w, unread; cbn; auto;
    unfold defaultBufSize; lia.
Qed.

(** What [DetectContentType] returns for a reader whose reads all
    succeed: the content type, or the error, that the first character that
    is not white space calls for, and a reader that delivers the input from
    that character on. *)
Lemma DetectContentType_spec rd0 :
  well_behaved rd0 = true ->
  match classify L (content rd0) with
  | inl e => DetectContentType L rd0 = Some (inl e)
  | inr typ =>
    exists r', DetectContentType L rd0 = Some (inr (r', typ))
               /\ ReadAll r' = (skip_space (content rd0), None)
  end.
Proof.
  intros H. unfold DetectContentType.
  apply detect_loop_spec; [apply NewReader_inv, H|].
  rewrite reader_bytes_content by exact H. lia.
Qed.

(** C6. [DetectContentType] skips the leading white space and goes by the
    first character after it: JSON for an opening bracket, NDJSON for an
    opening brace, CSV for a letter or a double quote, the error
    [cannot determine content type] for any other character, and the error
    [couldn't find beginning of supported ingestion format] when the input
    ends before such a character ([classify] says just this). *)
Theorem DetectContentType_classifies rd0 :
  well_behaved rd0 = true ->
  match classify L (content rd0) with
  | inl e => DetectContentType L rd0 = Some (inl e)
  | inr typ => exists r', DetectContentType L rd0 = Some (inr (r', typ))
  end.
Proof.
  intros H. pose proof (DetectContentType_spec rd0 H) as Hspec.
  destruct (classify L (content rd0)) as [e|typ]; [exact Hspec|].
  destruct Hspec as (r' & Hr & _). exists r'. exact Hr.
Qed.

End Detect.


(** ** DetectContentType returns *)

Section DetectTotal.
Import utf8 bufio.

Lemma Read_bytes rd0 n :
  let '(bs, _, rd1) := Read rd0 n in
  (length bs + reader_bytes rd1)%nat = reader_bytes rd0.
Proof.
  destruct rd0 as [|[bs|e] rd0]; cbn [Read reader_bytes length]; try lia.
  destruct (Nat.leb_spec (length bs) n); cbn [reader_bytes]; [lia|].
  rewrite length_firstn, length_skipn. lia.
Qed.

Lemma fill_read_pending i : forall b,
  r b = 0%nat ->
  r (fill_read i b) = 0%nat /\ pending (fill_read i b) = pending b.
Proof.
  induction i as [|i IH]; intros b Hr.
  - change (fill_read 0 b)
      with (mkReader (size b) (data b) (r b) (rd b) (Some ErrNoProgress)
                     (lastRuneSize b)).
    split; [exact Hr|reflexivity].
  - change (fill_read (S i) b) with
      (let '(bs, e, rd') := Read (rd b) (size b - w b) in
       let b' := mkReader (size b) (data b ++ bs) (r b) rd' (err b)
                          (lastRuneSize b) in
       match e with
       | Some e' => mkReader (size b') (data b') (r b') (rd b') (Some e')
                             (lastRuneSize b')
       | None => if (0 <? length bs)%nat then b' else fill_read i b'
       end).
    pose proof (Read_bytes (rd b) (size b - w b)) as HR.
    destruct (Read (rd b) (size b - w b)) as [[bs e] rd1]. cbv zeta.
    assert (Hp : pending (mkReader (size b) (data b ++ bs) (r b) rd1 (err b)
                                   (lastRuneSize b)) = pending b).
    { unfold pending, unread. cbn [r data rd]. rewrite Hr. cbn [skipn].
      rewrite length_app. lia. }
    destruct e as [e|].
    + split; [exact Hr|]. rewrite <- Hp. reflexivity.
    + destruct (0 <? length bs)%nat.
      * split; [exact Hr|exact Hp].
      * destruct (IH (mkReader (size b) (data b ++ bs) (r b) rd1 (err b)
                               (lastRuneSize b)) Hr) as [Hr' Hp'].
        split; [exact Hr'|]. rewrite Hp'. exact Hp.
Qed.

Lemma fill_pending b :
  (r (fill b) <= w (fill b))%nat /\ pending (fill b) = pending b.
Proof.
  unfold fill.
  set (b1 := if (0 <? r b)%nat then _ else b).
  assert (H1 : r b1 = 0%nat /\ pending b1 = pending b).
  { subst b1. destruct (Nat.ltb_spec 0 (r b)).
    - split; reflexivity.
    - split; [lia|reflexivity]. }
  destruct H1 as [Hr1 Hp1].
  destruct (fill_read_pending maxConsecutiveEmptyReads b1 Hr1) as [Hr2 Hp2].
  split; [lia|]. rewrite Hp2. exact Hp1.
Qed.

Lemma ReadRune_loop_pending n : forall b,
  (r b <= w b)%nat ->
  (r (ReadRune_loop n b) <= w (ReadRune_loop n b))%nat
  /\ pending (ReadRune_loop n b) = pending b.
Proof.
  induction n as [|n IH]; intros b Hr; [auto|].
  rewrite ReadRune_loop_eq. destruct (loop_cond b); [|auto].
  destruct (fill_pending b) as [Hr' Hp'].
  destruct (IH (fill b) Hr') as [Hr'' Hp''].
  split; [exact Hr''|]. rewrite Hp''. exact Hp'.
Qed.

(** A rune that [ReadRune] delivers takes a byte at least from what is
    still to come (or it is the rune 0 of a reader that has nothing). *)
Lemma ReadRune_pending b :
  (r b <= w b)%nat ->
  let '(c, _, e, b') := ReadRune b in
  e = None ->
  (r b' <= w b')%nat /\ ((pending b' < pending b)%nat \/ c = 0).
Proof.
  intros Hr. unfold ReadRune.
  destruct (@ReadRune_loop_pending UTFMax b Hr) as [Hr1 Hp1].
  set (b1 := ReadRune_loop UTFMax b) in *. clearbody b1.
  pose proof (unread_length b1 Hr1) as Hlen.
  destruct (Nat.eqb_spec (r b1) (w b1)) as [Heq|Hne].
  - unfold readErr. intros _. split; [exact Hr1|]. right. reflexivity.
  - assert (Hu : unread b1 <> []).
    { intros Hu. rewrite Hu in Hlen. cbn [length] in Hlen. lia. }
    pose proof (DecodeRune_size Hu) as Hsz.
    assert (Hdec : exists c sz,
              (match unread b1 with
               | [] => (0, 1%nat)
               | p0 :: _ => if val p0 <? RuneSelf then (val p0, 1%nat)
                            else DecodeRune (unread b1)
               end) = (c, sz)
              /\ (1 <= sz <= length (unread b1))%nat).
    { destruct (unread b1) as [|p0 t] eqn:E; [congruence|].
      destruct (val p0 <? RuneSelf).
      - exists (val p0), 1%nat. split; [reflexivity|]. cbn [length]. lia.
      - destruct (DecodeRune (p0 :: t)) as [c sz]. exists c, sz.
        split; [reflexivity|exact Hsz]. }
    destruct Hdec as (c & sz & -> & Hsz1). intros _.
    unfold pending, unread, w in *. cbn [r data rd].
    rewrite length_skipn in *. split; [lia|]. left. lia.
Qed.

Section Total.
Variable L : Z -> bool.

Lemma detect_loop_total fuel : forall b,
  (r b <= w b)%nat -> (pending b < fuel)%nat ->
  exists res, detect_loop L fuel b = Some res.
Proof.
  induction fuel as [|fuel IH]; intros b Hr Hfuel; [lia|].
  cbn [detect_loop]. pose proof (@ReadRune_pending b Hr) as HR.
  destruct (ReadRune b) as [[[c sz] e] b'].
  destruct e as [e|].
  { destruct e; eauto. }
  destruct (HR eq_refl) as [Hr' Hp].
  destruct (c =? rune "["); [eauto|].
  destruct (c =? rune "{"); [eauto|].
  destruct (unicode.IsLetter L c || (c =? rune "034")); [eauto|].
  destruct (unicode.IsSpace c) eqn:Hsp; [|eauto].
  destruct Hp as [Hp|Hc].
  - apply IH; [exact Hr'|lia].
  - subst c. discriminate.
Qed.

(** [DetectContentType] returns, whatever the reader delivers: the bound
    on the rounds of its loop is never reached. *)
Lemma DetectContentType_total rd0 :
  exists res, DetectContentType L rd0 = Some res.
Proof.
  unfold DetectContentType. apply detect_loop_total.
  - cbn. lia.
  - unfold pending, unread. cbn. lia.
Qed.
End Total.

End DetectTotal.

(** ** The bounds on the loops of [bufio] are never reached *)

Section BufioLoops.
Import utf8 bufio.

(** [fill_read] buffers a byte at least, or it records an error. *)
Lemma fill_read_progress i : forall b,
  err b = None ->
  let b' := fill_read i b in
  r b' = r b
  /\ (err b' <> None
      \/ (err b' = None /\ (length (data b) < length (data b'))%nat)).
Proof.
  induction i as [|i IH]; intros b Herr.
  - change (fill_read 0 b)
      with (mkReader (size b) (data b) (r b) (rd b) (Some ErrNoProgress)
                     (lastRuneSize b)).
    cbv zeta. split; [reflexivity|]. left. discriminate.
  - change (fill_read (S i) b) with
      (let '(bs, e, rd') := Read (rd b) (size b - w b) in
       let b' := mkReader (size b) (data b ++ bs) (r b) rd' (err b)
                          (lastRuneSize b) in
       match e with
       | Some e' => mkReader (size b') (data b') (r b') (rd b') (Some e')
                             (lastRuneSize b')
       | None => if (0 <? length bs)%nat then b' else fill_read i b'
       end).
    destruct (Read (rd b) (size b - w b)) as [[bs e] rd1]. cbv zeta.
    destruct e as [e|].
    + split; [reflexivity|]. left. discriminate.
    + destruct (Nat.ltb_spec 0 (length bs)) as [Hpos|Hzero].
      * split; [reflexivity|]. right. split; [exact Herr|].
        cbn [data]. rewrite length_app. lia.
      * destruct (IH (mkReader (size b) (data b ++ bs) (r b) rd1 (err b)
                               (lastRuneSize b)) Herr) as [Hr Hprog].
        cbv zeta in Hr, Hprog. cbn [r data] in Hr, Hprog.
        split; [exact Hr|]. destruct Hprog as [He|[He Hlen]]; [left; exact He|].
        right. split; [exact He|]. rewrite length_app in Hlen. lia.
Qed.

Lemma fill_progress b :
  (r b <= w b)%nat -> err b = None ->
  (r (fill b) <= w (fill b))%nat
  /\ (err (fill b) <> None
      \/ (length (unread b) < length (unread (fill b)))%nat).
Proof.
  intros Hr Herr. unfold fill.
  set (b1 := if (0 <? r b)%nat then _ else b).
  assert (H1 : r b1 = 0%nat /\ err b1 = None /\ data b1 = unread b).
  { subst b1. destruct (Nat.ltb_spec 0 (r b)).
    - repeat split; assumption.
    - repeat split; [lia|assumption|]. unfold unread.
      replace (r b) with 0%nat by lia. reflexivity. }
  destruct H1 as (Hr1 & He1 & Hd1).
  destruct (@fill_read_progress maxConsecutiveEmptyReads b1 He1)
    as [Hr2 Hprog].
  cbv zeta in Hr2, Hprog. split; [lia|].
  destruct Hprog as [He|[_ Hlen]]; [left; exact He|]. right.
  unfold unread at 2. rewrite Hr2, Hr1. cbn [skipn]. rewrite <- Hd1.
  exact Hlen.
Qed.

(** The loop at the head of [ReadRune] is through after [UTFMax] rounds:
    the bound of [ReadRune_loop] cuts nothing off. *)
Lemma ReadRune_loop_exact n : forall b,
  (r b <= w b)%nat -> (4 <= length (unread b) + n)%nat ->
  loop_cond (ReadRune_loop n b) = false.
Proof.
  induction n as [|n IH]; intros b Hr Hn.
  - cbn [ReadRune_loop]. unfold loop_cond.
    rewrite unread_length in Hn by exact Hr.
    destruct (Nat.ltb_spec (w b) (r b + UTFMax)) as [Hlt|_];
      [unfold UTFMax in Hlt; lia|reflexivity].
  - rewrite ReadRune_loop_eq. destruct (loop_cond b) eqn:Hc; [|exact Hc].
    assert (Herr : err b = None).
    { unfold loop_cond in Hc. destruct (err b); [|reflexivity].
      rewrite andb_false_r in Hc. discriminate. }
    destruct (fill_progress b Hr Herr) as [Hr' [He|Hlen]].
    + rewrite ReadRune_loop_stopped by exact He.
      unfold loop_cond. destruct (err (fill b)); [|congruence].
      rewrite andb_false_r. reflexivity.
    + apply IH; [exact Hr'|lia].
Qed.

Lemma ReadRune_loop_UTFMax b :
  (r b <= w b)%nat -> loop_cond (ReadRune_loop UTFMax b) = false.
Proof. intros Hr. apply ReadRune_loop_exact; [exact Hr|unfold UTFMax; lia]. Qed.

(** So is the loop at the head of [Peek] after [n] rounds. *)
Lemma Peek_loop_exact fuel : forall n b,
  (r b <= w b)%nat -> (n < length (unread b) + fuel)%nat ->
  let b' := Peek_loop fuel n b in
  (w b' - r b' <? n)%nat && (w b' - r b' <? size b')%nat
  && (match err b' with None => true | Some _ => false end) = false.
Proof.
  induction fuel as [|fuel IH]; intros n b Hr Hn; cbv zeta.
  - cbn [Peek_loop]. rewrite unread_length in Hn by exact Hr.
    destruct (Nat.ltb_spec (w b - r b) n); [lia|reflexivity].
  - cbn [Peek_loop].
    destruct ((w b - r b <? n)%nat && (w b - r b <? size b)%nat
              && (match err b with None => true | Some _ => false end))
      eqn:Hc; [|exact Hc].
    assert (Herr : err b = None).
    { destruct (err b); [|reflexivity].
      rewrite andb_false_r in Hc. discriminate. }
    destruct (fill_progress b Hr Herr) as [Hr' [He|Hlen]].
    + assert (Hoff : (w (fill b) - r (fill b) <? n)%nat
                     && (w (fill b) - r (fill b) <? size (fill b))%nat
                     && (match err (fill b) with
                         | None => true
                         | Some _ => false
                         end) = false).
      { destruct (err (fill b)); [|congruence]. apply andb_false_r. }
      destruct fuel as [|fuel']; cbn [Peek_loop]; [exact Hoff|].
      rewrite Hoff. exact Hoff.
    + apply IH; [exact Hr'|lia].
Qed.

End BufioLoops.

(** ** regexp *)


Section RegexpFacts.
Import regexp.

Ltac inv_lang H := inversion H; subst; clear H.

Lemma lang_Cat_inv r1 r2 s :
  lang (Cat r1 r2) s ->
  exists s1 s2, s = s1 ++ s2 /\ lang r1 s1 /\ lang r2 s2.
Proof. intros Hl. inv_lang Hl. eauto. Qed.

Lemma lang_Alt_inv r1 r2 s :
  lang (Alt r1 r2) s -> lang r1 s \/ lang r2 s.
Proof. intros Hl. inv_lang Hl; auto. Qed.

Lemma nullable_spec r : nullable r = true <-> lang r [].
Proof.
  induction r as [| |c|c|r1 IH1 r2 IH2|r1 IH1 r2 IH2|r1 IH1]; simpl.
  - split; [discriminate|intros Hn; inversion Hn].
  - split; [constructor|reflexivity].
  - split; [discriminate|intros Hn; inversion Hn].
  - split; [discriminate|intros Hn; inversion Hn].
  - split; intros Hn.
    + apply andb_prop in Hn as [H1 H2].
      change (@nil ascii) with (@nil ascii ++ []). constructor; tauto.
    + apply lang_Cat_inv in Hn as (s1 & s2 & Hs & H1 & H2).
      symmetry in Hs. apply app_eq_nil in Hs as [-> ->].
      apply andb_true_intro. tauto.
  - split; intros Hn.
    + apply orb_prop in Hn as [Hn|Hn];
        [apply lang_AltL|apply lang_AltR]; tauto.
    + apply lang_Alt_inv in Hn as [Hn|Hn]; apply orb_true_intro; tauto.
  - split; [constructor|reflexivity].
Qed.

Lemma lang_Star_cons r a s :
  lang (Star r) (a :: s) ->
  exists s1 s2, s = s1 ++ s2 /\ lang r (a :: s1) /\ lang (Star r) s2.
Proof.
  intros Hl. remember (Star r) as r' eqn:Er. remember (a :: s) as t eqn:Et.
  revert a s Et.
  induction Hl as [| | | | | | |r0 s1 s2 H1 _ H2 IH2]; intros a' s' Et;
    try discriminate.
  injection Er as ->. destruct s1 as [|b s1].
  - simpl in Et. apply IH2; auto.
  - simpl in Et. injection Et as -> <-. exists s1, s2. auto.
Qed.

Lemma lang_cons_Cat r1 r2 a s1 s2 :
  lang r1 (a :: s1) -> lang r2 s2 -> lang (Cat r1 r2) (a :: s1 ++ s2).
Proof.
  intros H1 H2. change (a :: s1 ++ s2) with ((a :: s1) ++ s2).
  constructor; assumption.
Qed.

Lemma deriv_spec r : forall a s, lang (deriv a r) s <-> lang r (a :: s).
Proof.
  induction r as [| |c|c|r1 IH1 r2 IH2|r1 IH1 r2 IH2|r1 IH1];
    intros a s; simpl.
  - split; intros Hl; inversion Hl.
  - split; intros Hl; inversion Hl.
  - destruct (Ascii.eqb_spec a c) as [->|Hne]; split; intros Hl;
      inv_lang Hl; try constructor; congruence.
  - destruct (Ascii.eqb_spec a c) as [->|Hne]; split; intros Hl;
      inv_lang Hl; try constructor; congruence.
  - destruct (nullable r1) eqn:Hn.
    + split; intros Hl.
      * apply lang_Alt_inv in Hl as [Hc|Hd].
        -- apply lang_Cat_inv in Hc as (s1 & s2 & -> & H1 & H2).
           apply lang_cons_Cat; [apply IH1, H1|exact H2].
        -- apply IH2 in Hd. apply nullable_spec in Hn.
           change (a :: s) with ([] ++ a :: s). constructor; assumption.
      * apply lang_Cat_inv in Hl as (s1 & s2 & Hs & H1 & H2).
        destruct s1 as [|b s1].
        -- simpl in Hs. subst s2. apply lang_AltR, IH2, H2.
        -- simpl in Hs. injection Hs as <- ->.
           apply lang_AltL. constructor; [apply IH1, H1|exact H2].
    + split; intros Hl.
      * apply lang_Cat_inv in Hl as (s1 & s2 & -> & H1 & H2).
        apply lang_cons_Cat; [apply IH1, H1|exact H2].
      * apply lang_Cat_inv in Hl as (s1 & s2 & Hs & H1 & H2).
        destruct s1 as [|b s1].
        -- apply nullable_spec in H1. congruence.
        -- simpl in Hs. injection Hs as <- ->.
           constructor; [apply IH1, H1|exact H2].
  - split; intros Hl; apply lang_Alt_inv in Hl as [Hl|Hl];
      solve [apply lang_AltL, IH1, Hl | apply lang_AltR, IH2, Hl].
  - split; intros Hl.
    + apply lang_Cat_inv in Hl as (s1 & s2 & -> & H1 & H2).
      change (a :: s1 ++ s2) with ((a :: s1) ++ s2).
      constructor; [apply IH1, H1|exact H2].
    + apply lang_Star_cons in Hl as (s1 & s2 & -> & H1 & H2).
      constructor; [apply IH1, H1|exact H2].
Qed.

(** The matcher decides the language of the pattern. *)
Lemma matches_spec s : forall r, matches r s = true <-> lang r s.
Proof.
  induction s as [|a s IH]; intros r; simpl.
  - apply nullable_spec.
  - rewrite IH. apply deriv_spec.
Qed.

Lemma lang_Str s t : lang (Str s) t <-> t = list_ascii_of_string s.
Proof.
  revert t. induction s as [|c s IH]; intros t; simpl.
  - split; intros Hl; [inv_lang Hl; reflexivity|subst; constructor].
  - split; intros Hl.
    + apply lang_Cat_inv in Hl as (s1 & s2 & -> & H1 & H2).
      inv_lang H1. apply IH in H2. subst. reflexivity.
    + subst. change (c :: list_ascii_of_string s)
        with ([c] ++ list_ascii_of_string s).
      constructor; [constructor|apply IH; reflexivity].
Qed.

Lemma lang_Star_NotChr c t :
  lang (Star (NotChr c)) t <-> Forall (fun a => a <> c) t.
Proof.
  split.
  - intros Hl. remember (Star (NotChr c)) as r eqn:Er.
    induction Hl as [| | | | | | |r0 s1 s2 H1 _ H2 IH2]; try discriminate.
    + constructor.
    + injection Er as ->. inv_lang H1. constructor; auto.
  - induction 1 as [|a t Ha Ht IH].
    + constructor.
    + change (a :: t) with ([a] ++ t). constructor; [constructor|]; auto.
Qed.

Lemma lang_Plus_NotChr c t :
  lang (Plus (NotChr c)) t <-> t <> [] /\ Forall (fun a => a <> c) t.
Proof.
  unfold Plus. split.
  - intros Hl. apply lang_Cat_inv in Hl as (s1 & s2 & -> & H1 & H2).
    inv_lang H1. apply lang_Star_NotChr in H2.
    split; [discriminate|constructor; auto].
  - intros [Hne Hall]. destruct t as [|a t]; [congruence|].
    inversion Hall; subst. change (a :: t) with ([a] ++ t).
    constructor; [constructor; auto|apply lang_Star_NotChr; auto].
Qed.

(** The language of [validOnlyAPITokenPaths]. *)
Lemma validOnlyAPITokenPaths_lang p :
  lang validOnlyAPITokenPaths p <-> api_token_path p.
Proof.
  unfold validOnlyAPITokenPaths, api_token_path, query_suffix, Opt, Dot.
  split.
  - intros Hl.
    apply lang_Cat_inv in Hl as (s0 & s1 & -> & H0 & Hl).
    apply lang_Str in H0. subst s0.
    apply lang_Cat_inv in Hl as (rest & q & -> & Hrest & Hq).
    exists rest, q. split; [reflexivity|]. split.
    + apply lang_Alt_inv in Hq as [Hq|Hq]; [|inv_lang Hq; auto].
      apply lang_Cat_inv in Hq as (q0 & q' & -> & Hq0 & Hq').
      inv_lang Hq0. apply lang_Plus_NotChr in Hq' as [Hne Hall].
      right. exists q'. auto.
    + apply lang_Alt_inv in Hrest as [Hrest|Hrest].
      * apply lang_Cat_inv in Hrest as (id & t & -> & Hid & Ht).
        apply lang_Plus_NotChr in Hid as [Hne Hall].
        apply lang_Cat_inv in Ht as (sl & act & -> & Hsl & Hact).
        inv_lang Hsl. left.
        apply lang_Alt_inv in Hact as [Hact|Hact]; apply lang_Str in Hact;
          subst act; [exists id, "ingest"%string|exists id, "query"%string];
          auto.
      * apply lang_Str in Hrest. auto.
  - intros (rest & q & -> & Hq & Hrest).
    constructor; [apply lang_Str; reflexivity|].
    constructor.
    + destruct Hrest as [(id & action & -> & Hne & Hall & Hact)| ->].
      * apply lang_AltL. constructor; [apply lang_Plus_NotChr; auto|].
        change ("/"%char :: list_ascii_of_string action)
          with (["/"%char] ++ list_ascii_of_string action).
        constructor; [constructor|].
        destruct Hact as [-> | ->];
          [apply lang_AltL|apply lang_AltR]; apply lang_Str; reflexivity.
      * apply lang_AltR, lang_Str. reflexivity.
    + destruct Hq as [-> |(q' & -> & Hne & Hall)].
      * apply lang_AltR. constructor.
      * apply lang_AltL. change ("?"%char :: q') with (["?"%char] ++ q').
        constructor; [constructor|apply lang_Plus_NotChr; auto].
Qed.

Lemma MatchString_validOnlyAPITokenPaths p :
  MatchString validOnlyAPITokenPaths p = true
  <-> api_token_path (list_ascii_of_string p).
Proof.
  unfold MatchString. rewrite matches_spec.
  apply validOnlyAPITokenPaths_lang.
Qed.

End RegexpFacts.


(** ** backoff *)

Section BackoffFacts.
Import backoff.

Lemma Float64_of_nonneg k : (0 <= Float64_of k)%Q.
Proof.
  unfold Float64_of. apply Qle_shift_div_l; [reflexivity|].
  rewrite Qmult_0_l. change 0%Q with (inject_Z 0). rewrite <- Zle_Qle.
  apply Z.mod_pos_bound. reflexivity.
Qed.

Lemma Float64_of_lt_1 k : (Float64_of k < 1)%Q.
Proof.
  unfold Float64_of. apply Qlt_shift_div_r; [reflexivity|].
  rewrite Qmult_1_l. rewrite <- Zlt_Qlt.
  apply Z.mod_pos_bound. reflexivity.
Qed.

Lemma Duration_of_ge z q : 0 <= z -> (inject_Z z <= q)%Q -> z <= Duration_of q.
Proof.
  intros Hz Hq. unfold Duration_of.
  assert (H0 : (0 <= q)%Q).
  { eapply Qle_trans; [|exact Hq]. change 0%Q with (inject_Z 0).
    rewrite <- Zle_Qle. exact Hz. }
  apply Qle_bool_iff in H0. rewrite H0.
  rewrite <- (Qfloor_Z z). apply Qfloor_resp_le. exact Hq.
Qed.

Lemma Duration_of_le z q : (0 <= q)%Q -> (q <= inject_Z z)%Q -> Duration_of q <= z.
Proof.
  intros H0 Hq. unfold Duration_of.
  apply Qle_bool_iff in H0. rewrite H0.
  rewrite <- (Qfloor_Z z). apply Qfloor_resp_le. exact Hq.
Qed.

Lemma Duration_of_inject z : Duration_of (inject_Z z) = z.
Proof.
  unfold Duration_of. destruct (Qle_bool 0 (inject_Z z)).
  - apply Qfloor_Z.
  - apply Qceiling_Z.
Qed.

(** The jitter keeps a wait between half the interval and one and a half
    times the interval (and a nanosecond). *)
Lemma getRandomValueFromInterval_bounds k cur :
  0 <= cur ->
  let next := getRandomValueFromInterval (1 # 2) (Float64_of k) cur in
  cur <= 2 * next + 1 /\ 2 * next <= 3 * cur + 2.
Proof.
  intros Hcur next. subst next. unfold getRandomValueFromInterval.
  pose proof (Float64_of_nonneg k) as H0. pose proof (Float64_of_lt_1 k) as H1.
  set (f := Float64_of k) in *. clearbody f.
  set (c := inject_Z cur).
  assert (Hc : (0 <= c)%Q).
  { subst c. change 0%Q with (inject_Z 0). rewrite <- Zle_Qle. exact Hcur. }
  set (q := (c - (1 # 2) * c + f * (c + (1 # 2) * c - (c - (1 # 2) * c) + 1))%Q).
  assert (Hlo : ((1 # 2) * c <= q)%Q) by (subst q; nra).
  assert (Hhi : (q <= (3 # 2) * c + 1)%Q) by (subst q; nra).
  assert (Hq0 : (0 <= q)%Q) by nra.
  unfold Duration_of. apply Qle_bool_iff in Hq0. rewrite Hq0.
  pose proof (Qfloor_le q) as Hfl. pose proof (Qlt_floor q) as Hfu.
  set (n := Qfloor q) in *. clearbody n.
  split.
  - assert (H' : (inject_Z cur < inject_Z (2 * (n + 1)))%Q).
    { rewrite inject_Z_mult. change (inject_Z 2) with 2%Q. fold c. nra. }
    rewrite <- Zlt_Qlt in H'. lia.
  - assert (H' : (inject_Z (2 * n) <= inject_Z (3 * cur + 2))%Q).
    { rewrite inject_Z_plus, !inject_Z_mult.
      change (inject_Z 2) with 2%Q. change (inject_Z 3) with 3%Q. fold c.
      nra. }
    rewrite <- Zle_Qle in H'. exact H'.
Qed.

Lemma spec_interval_pos j : 200 * Millisecond <= spec_interval j.
Proof.
  unfold spec_interval, Millisecond, Second, Millisecond.
  assert (1 <= 2 ^ Z.of_nat j) by (apply Z.pow_le_mono_r with (b := 0); lia).
  lia.
Qed.

Lemma spec_interval_S j :
  spec_interval (S j)
  = if 30 * Second <=? spec_interval j then 60 * Second
    else 2 * spec_interval j.
Proof.
  unfold spec_interval. rewrite Nat2Z.inj_succ, Z.pow_succ_r by lia.
  assert (1 <= 2 ^ Z.of_nat j) by (apply Z.pow_le_mono_r with (b := 0); lia).
  set (p := 2 ^ Z.of_nat j) in *. clearbody p.
  unfold Second, Millisecond.
  destruct (Z.leb_spec (30 * (1000 * 1000000))
                       (Z.min (200 * 1000000 * p) (60 * (1000 * 1000000))));
    lia.
Qed.

Lemma incrementCurrentInterval_policy j start :
  incrementCurrentInterval (policy j start) = policy (S j) start.
Proof.
  unfold incrementCurrentInterval, policy. cbn [MaxInterval Multiplier
    currentInterval InitialInterval RandomizationFactor MaxElapsedTime
    startTime].
  f_equal. rewrite spec_interval_S.
  pose proof (spec_interval_pos j) as Hpos.
  set (cur := spec_interval j) in *. clearbody cur.
  destruct (Z.leb_spec (30 * Second) cur) as [Hle|Hlt].
  - assert (Hq : Qle_bool (inject_Z (60 * Second) / 2) (inject_Z cur) = true).
    { apply Qle_bool_iff. apply Qle_shift_div_r; [reflexivity|].
      change 2%Q with (inject_Z 2). rewrite <- inject_Z_mult, <- Zle_Qle.
      unfold Second, Millisecond in *. lia. }
    rewrite Hq. reflexivity.
  - assert (Hq : Qle_bool (inject_Z (60 * Second) / 2) (inject_Z cur) = false).
    { destruct (Qle_bool (inject_Z (60 * Second) / 2) (inject_Z cur)) eqn:E;
        [|reflexivity].
      apply Qle_bool_iff in E.
      assert (E' : (inject_Z (60 * Second) <= inject_Z cur * 2)%Q).
      { apply Qle_shift_div_l in E; [exact E|reflexivity]. }
      change 2%Q with (inject_Z 2) in E'.
      rewrite <- inject_Z_mult, <- Zle_Qle in E'.
      unfold Second, Millisecond in *. lia. }
    rewrite Hq. change 2%Q with (inject_Z 2).
    rewrite <- inject_Z_mult, Duration_of_inject. lia.
Qed.

Lemma spec_wait_bounds w j :
  spec_interval j <= 2 * spec_wait w j + 1
  /\ 2 * spec_wait w j <= 3 * spec_interval j + 2.
Proof.
  unfold spec_wait. apply getRandomValueFromInterval_bounds.
  pose proof (spec_interval_pos j). unfold Millisecond in *. lia.
Qed.

Lemma spec_wait_min w j : 100 * Millisecond <= spec_wait w j.
Proof.
  pose proof (spec_wait_bounds w j) as [Hlo _].
  pose proof (spec_interval_pos j). unfold Millisecond in *. lia.
Qed.

Lemma NextBackOff_policy j start now k :
  NextBackOff now (Float64_of k) (policy j start)
  = (let wait := getRandomValueFromInterval (1 # 2) (Float64_of k)
                                             (spec_interval j) in
     if 10 * Second <? now - start + wait then Stop else wait,
     policy (S j) start).
Proof.
  unfold NextBackOff. rewrite incrementCurrentInterval_policy.
  unfold policy, GetElapsedTime. cbn [MaxInterval Multiplier
    currentInterval InitialInterval RandomizationFactor MaxElapsedTime
    startTime].
  change (10 * Second =? 0) with false. cbn [negb andb]. cbv zeta.
  destruct (10 * Second <? _); reflexivity.
Qed.

End BackoffFacts.


(** ** Do *)

Section DoFacts.
Context {Value : Type} `{NetHTTP} `{EncodingJSON Value} `{AxiomPkg}.

Lemma spec_err_retryable a :
  spec_err a = None <-> retryable a = false.
Proof.
  unfold spec_err, retryable. destruct (outcome a) as [msg|h].
  - split; discriminate.
  - destruct (500 <=? StatusCode h); split; congruence.
Qed.

Lemma operation_state_at w req t0 j :
  operation w req (state_at w req t0 j)
  = (spec_err (w j), state_after w req t0 j).
Proof.
  unfold operation, state_at, state_after, spec_err, spec_finish.
  cbn [now attempts resp trace spec_resp].
  destruct (outcome (w j)) as [msg|h]; [reflexivity|].
  destruct (500 <=? StatusCode h); reflexivity.
Qed.

Lemma spec_wait_not_Stop w j : (spec_wait w j =? backoff.Stop) = false.
Proof.
  apply Z.eqb_neq. pose proof (spec_wait_min w j).
  unfold backoff.Stop, Millisecond in *. lia.
Qed.

(** The loop of [backoff.Retry], started at attempt [j]: it goes on as
    long as [spec_retry] says and stops at the first attempt that is not
    retried. *)
Lemma Retry_loop_run w req t0 m : forall j fuel,
  (forall i, (j <= i < j + m)%nat -> spec_retry w t0 i = true) ->
  spec_retry w t0 (j + m) = false ->
  (m < fuel)%nat ->
  Retry_loop fuel w req (policy j t0) (state_at w req t0 j)
  = Some (spec_err (w (j + m)%nat), state_after w req t0 (j + m)).
Proof.
  induction m as [|m IH]; intros j fuel Hretry Hstop Hfuel;
    (destruct fuel as [|fuel]; [lia|]); cbn [Retry_loop];
    rewrite operation_state_at.
  - rewrite Nat.add_0_r in *.
    destruct (spec_err (w j)) as [e|] eqn:Ee; [|reflexivity].
    unfold state_at at 1. cbn [attempts].
    unfold state_after at 1. cbn [now].
    rewrite NextBackOff_policy. cbv zeta. fold (spec_wait w j).
    unfold spec_retry in Hstop.
    assert (Hr : retryable (w j) = true).
    { destruct (retryable (w j)) eqn:E; [reflexivity|].
      apply spec_err_retryable in E. congruence. }
    rewrite Hr in Hstop. cbn [andb] in Hstop.
    apply Z.leb_gt in Hstop. apply Z.ltb_lt in Hstop. rewrite Hstop.
    reflexivity.
  - assert (Hj : spec_retry w t0 j = true) by (apply Hretry; lia).
    unfold spec_retry in Hj. apply andb_prop in Hj as [Hr Hb].
    destruct (spec_err (w j)) as [e|] eqn:Ee.
    2:{ apply spec_err_retryable in Ee. congruence. }
    unfold state_at at 1. cbn [attempts].
    unfold state_after at 1. cbn [now].
    rewrite NextBackOff_policy. cbv zeta. fold (spec_wait w j).
    apply Z.leb_le in Hb.
    destruct (Z.ltb_spec (10 * Second) (spec_finish w t0 j - t0 + spec_wait w j))
      as [Hlt|_]; [lia|].
    rewrite spec_wait_not_Stop.
    unfold state_after. cbn [now attempts resp trace].
    replace (mkDoState (spec_finish w t0 j + spec_wait w j) (S j)
               (spec_resp w (S j))
               ((spec_trace w req j ++ [EvRoundTrip j req])
                ++ [EvSleep (spec_wait w j)]))
      with (state_at w req t0 (S j)).
    2:{ unfold state_at, spec_finish. cbn [spec_start spec_trace].
        rewrite <- app_assoc. reflexivity. }
    replace (j + S m)%nat with (S j + m)%nat in * by lia.
    apply IH; [|exact Hstop|lia].
    intros i Hi. apply Hretry. lia.
Qed.

Lemma spec_start_lower w t0 j :
  t0 + Z.of_nat j * (100 * Millisecond) <= spec_start w t0 j.
Proof.
  induction j as [|j IH].
  - simpl. lia.
  - cbn [spec_start]. pose proof (spec_wait_min w j).
    rewrite Nat2Z.inj_succ. unfold Millisecond in *. lia.
Qed.

(** No attempt after the hundredth is retried. *)
Lemma spec_retry_100 w t0 j : (100 <= j)%nat -> spec_retry w t0 j = false.
Proof.
  intros Hj. unfold spec_retry. apply andb_false_iff. right.
  apply Z.leb_gt. unfold spec_finish.
  pose proof (spec_start_lower w t0 j). pose proof (spec_wait_min w j).
  unfold Second, Millisecond in *. lia.
Qed.

(** The attempt [Do] stops at: the first that is not retried. *)
Lemma spec_retry_first w t0 :
  exists n, (n <= 100)%nat
            /\ (forall j, (j < n)%nat -> spec_retry w t0 j = true)
            /\ spec_retry w t0 n = false.
Proof.
  assert (Hsearch : forall k, (k <= 100)%nat ->
            (forall j, (j < 100 - k)%nat -> spec_retry w t0 j = true) ->
            exists n, (n <= 100)%nat
              /\ (forall j, (j < n)%nat -> spec_retry w t0 j = true)
              /\ spec_retry w t0 n = false).
  { induction k as [|k IH]; intros Hk Hall.
    - exists 100%nat. split; [lia|]. split.
      + intros j Hj. apply Hall. lia.
      + apply spec_retry_100. lia.
    - destruct (spec_retry w t0 (100 - S k)) eqn:E.
      + apply IH; [lia|]. intros j Hj.
        destruct (Nat.eq_dec j (100 - S k)) as [->|Hne]; [exact E|].
        apply Hall. lia.
      + exists (100 - S k)%nat. split; [lia|]. split; [exact Hall|exact E]. }
  apply (Hsearch 100%nat); [lia|]. intros j Hj. lia.
Qed.

(** [Do], when attempt [n] is the first that is not retried. *)
Lemma Do_run {A : Type} (c : Client) w t0 req (v : Target A) n :
  (forall j, (j < n)%nat -> spec_retry w t0 j = true) ->
  spec_retry w t0 n = false ->
  Do c w t0 req v
  = Some (Do_result c (spec_resp w (S n)) (spec_err (w n)) v,
          spec_trace w req n ++ [EvRoundTrip n req]
          ++ Do_deferred (spec_resp w (S n))).
Proof.
  intros Hretry Hstop.
  assert (Hn : (n <= 100)%nat).
  { destruct (Nat.le_gt_cases n 100) as [Hle|Hgt]; [exact Hle|].
    pose proof (Hretry 100%nat Hgt) as E1.
    pose proof (@spec_retry_100 w t0 100%nat (Nat.le_refl _)) as E2.
    congruence. }
  unfold Do, Retry. cbn [now].
  change (backoff.Reset t0 _) with (policy 0 t0).
  change (mkDoState t0 0 None []) with (state_at w req t0 0).
  rewrite (@Retry_loop_run w req t0 n 0%nat max_attempts).
  - cbn [Nat.add]. unfold state_after. cbn [resp trace].
    rewrite <- app_assoc. reflexivity.
  - intros i Hi. apply Hretry. lia.
  - exact Hstop.
  - unfold max_attempts. lia.
Qed.

(** [Do] returns, whatever the world does. *)
Lemma Do_total {A : Type} (c : Client) w t0 req (v : Target A) :
  exists r tr, Do c w t0 req v = Some (r, tr).
Proof.
  destruct (spec_retry_first w t0) as (n & _ & Hretry & Hstop).
  erewrite Do_run by eassumption. eauto.
Qed.

End DoFacts.


(** ** NewRequest *)

Section NewRequestFacts.
Context {Value : Type} `{NetURL} `{NetHTTP} `{EncodingJSON Value} `{AxiomPkg}.

Ltac case_matches :=
  repeat match goal with
  | |- context [match ?x with _ => _ end] => destruct x
  end.

Lemma api_token_path_decide (p : string) :
  api_token_path (list_ascii_of_string p)
  <-> regexp.MatchString validOnlyAPITokenPaths p = true.
Proof. symmetry. apply MatchString_validOnlyAPITokenPaths. Qed.

(** C4 (as amended). With a token of API scope [NewRequest] fails with
    [ErrUnprivilegedToken] exactly when the path of the endpoint is not on
    the allow-list, and the allow-list is made of the ingest and the query
    endpoint of a dataset and of the APL query endpoint: the path
    [/api/v1/datasets] is not on it, [/api/v1/datasets/test/ingest] is, and
    the path that validates ingest tokens is not.  [NewRequest] takes no
    world: it performs no network I/O. *)
Theorem NewRequest_api_token_gate (c : Client) (method path : string)
  (body : Body Value) :
  (NewRequest c method path body = inl ErrUnprivilegedToken
   <-> IsAPIToken (AccessToken (config c)) = true
       /\ exists rel,
            url_ParseRequestURI path = inr rel
            /\ ~ api_token_path
                   (list_ascii_of_string
                      (url_Path
                         (url_ResolveReference (BaseURL (config c)) rel))))
  /\ ~ api_token_path (list_ascii_of_string "/api/v1/datasets")
  /\ api_token_path (list_ascii_of_string "/api/v1/datasets/test/ingest")
  /\ ~ api_token_path (list_ascii_of_string "/api/v1/tokens/ingest/validate").
Proof.
  split; [|repeat split].
  - unfold NewRequest.
    destruct (url_ParseRequestURI path) as [msg|rel].
    { split; [discriminate|]. intros (_ & rel & Hrel & _). discriminate. }
    set (p := url_Path (url_ResolveReference (BaseURL (config c)) rel)).
    destruct (IsAPIToken (AccessToken (config c))) eqn:Htok; cbn [andb].
    + destruct (regexp.MatchString validOnlyAPITokenPaths p) eqn:Hm;
        cbn [negb].
      * split.
        -- destruct body as [|r|v]; cbv beta iota zeta;
             [| |destruct (Encoder_bytes v); cbv beta iota zeta];
             case_matches; intros Hx; discriminate Hx.
        -- intros (_ & rel' & Hrel & Hno). injection Hrel as <-.
           exfalso. apply Hno. apply api_token_path_decide. exact Hm.
      * split; [|reflexivity]. intros _. split; [reflexivity|].
        exists rel. split; [reflexivity|]. intros Hp.
        apply api_token_path_decide in Hp. fold p in Hp. congruence.
    + split; [|intros (Hf & _); discriminate].
      destruct body as [|r|v]; cbv beta iota zeta;
             [| |destruct (Encoder_bytes v); cbv beta iota zeta];
             case_matches; intros Hx; discriminate Hx.
  - intros Hp. apply api_token_path_decide in Hp. vm_compute in Hp.
    discriminate.
  - apply api_token_path_decide. vm_compute. reflexivity.
  - intros Hp. apply api_token_path_decide in Hp. vm_compute in Hp.
    discriminate.
Qed.

Lemma Header_Get_Set_same h k v : Header_Get (Header_Set h k v) k = v.
Proof.
  unfold Header_Get, Header_Set. cbn [find fst snd].
  rewrite String.eqb_refl. reflexivity.
Qed.

Lemma Header_Get_Set_other h k k' v :
  k <> k' -> Header_Get (Header_Set h k' v) k = Header_Get h k.
Proof.
  intros Hne. unfold Header_Get, Header_Set. cbn [find fst snd].
  destruct (String.eqb_spec k' k) as [->|_]; [congruence|].
  induction h as [|[k0 v0] h IH]; [reflexivity|]. cbn [filter fst find].
  destruct (String.eqb_spec k0 k') as [->|Hk0]; cbn [negb find fst].
  - destruct (String.eqb_spec k' k) as [->|_]; [congruence|]. exact IH.
  - destruct (String.eqb k0 k); [reflexivity|exact IH].
Qed.

Lemma Header_has_Set_same h k v : Header_has (Header_Set h k v) k = true.
Proof.
  unfold Header_has, Header_Set. cbn [existsb fst].
  rewrite String.eqb_refl. reflexivity.
Qed.

Lemma Header_has_Set_other h k k' v :
  k <> k' -> Header_has (Header_Set h k' v) k = Header_has h k.
Proof.
  intros Hne. unfold Header_has, Header_Set. cbn [existsb fst].
  destruct (String.eqb_spec k' k) as [->|_]; [congruence|]. cbn [orb].
  induction h as [|[k0 v0] h IH]; [reflexivity|]. cbn [filter fst existsb].
  destruct (String.eqb_spec k0 k') as [->|Hk0]; cbn [negb existsb fst].
  - destruct (String.eqb_spec k' k) as [->|_]; [congruence|]. exact IH.
  - rewrite IH. reflexivity.
Qed.

(** The headers [NewRequest] sets after the content type leave the
    content type alone. *)
Lemma later_headers_keep_content_type (c : Client) (h1 : Header) :
  let h2 :=
    if String.eqb (AccessToken (config c)) EmptyString then h1
    else Header_Set h1 headerAuthorization
           ("Bearer " ++ AccessToken (config c))%string in
  let h3 :=
    if IsPersonalToken (AccessToken (config c))
       && negb (String.eqb (OrganizationID (config c)) EmptyString)
    then Header_Set h2 headerOrganizationID (OrganizationID (config c))
    else h2 in
  let h4 := Header_Set h3 headerAccept mediaTypeJSON in
  let h5 := Header_Set h4 headerUserAgent (userAgent c) in
  Header_Get h5 headerContentType = Header_Get h1 headerContentType
  /\ Header_has h5 headerContentType = Header_has h1 headerContentType.
Proof.
  cbv zeta.
  rewrite Header_Get_Set_other, Header_has_Set_other by discriminate.
  rewrite Header_Get_Set_other, Header_has_Set_other by discriminate.
  destruct (IsPersonalToken _ && _);
    [rewrite Header_Get_Set_other, Header_has_Set_other by discriminate|];
    (destruct (String.eqb (AccessToken (config c)) "");
     [|rewrite Header_Get_Set_other, Header_has_Set_other by discriminate]);
    split; reflexivity.
Qed.

(** [NewRequest] hands a reader on as it is. *)
Lemma NewRequest_reader_body (c : Client) (method path : string)
  (r : Reader) (req : Request) :
  NewRequest c method path (body_Reader r) = inr req ->
  req_Body req = Some r.
Proof.
  unfold NewRequest.
  destruct (url_ParseRequestURI path) as [msg|rel]; [discriminate|].
  destruct (IsAPIToken _ && negb _); [discriminate|].
  cbv beta iota zeta.
  destruct (http_NewRequest_error _ _); [discriminate|].
  intros Hreq. injection Hreq as <-. reflexivity.
Qed.

(** C10. A request that [NewRequest] builds has no body and no
    [Content-Type] header when [body] is nil; has the reader itself as body
    and the content type [application/octet-stream] when [body] is an
    [io.Reader]; has the JSON encoding of [body] as body and the content type
    [application/json] otherwise. *)
Theorem NewRequest_body (c : Client) (method path : string)
  (body : Body Value) (req : Request) :
  NewRequest c method path body = inr req ->
  match body with
  | body_nil =>
    req_Body req = None
    /\ Header_has (req_Header req) headerContentType = false
  | body_Reader r =>
    req_Body req = Some r
    /\ Header_has (req_Header req) headerContentType = true
    /\ Header_Get (req_Header req) headerContentType
       = "application/octet-stream"%string
  | body_Value v =>
    exists encoding,
      json_Marshal v = inr encoding
      /\ req_Body req = Some (bytes_Buffer (encoding ++ [newline]))
      /\ Header_has (req_Header req) headerContentType = true
      /\ Header_Get (req_Header req) headerContentType
         = "application/json"%string
  end.
Proof.
  unfold NewRequest.
  destruct (url_ParseRequestURI path) as [msg|rel]; [discriminate|].
  destruct (IsAPIToken _ && negb _); [discriminate|].
  destruct body as [|r|v]; cbv beta iota zeta.
  - destruct (http_NewRequest_error _ _); [discriminate|].
    intros Hreq. injection Hreq as <-. cbn [req_Body req_Header].
    split; [reflexivity|].
    cbn [body_not_nil andb].
    destruct (later_headers_keep_content_type c []) as [_ Hhas].
    exact Hhas.
  - destruct (http_NewRequest_error _ _); [discriminate|].
    intros Hreq. injection Hreq as <-. cbn [req_Body req_Header].
    split; [reflexivity|].
    cbn [body_not_nil andb negb].
    destruct (later_headers_keep_content_type c
                (Header_Set [] headerContentType defaultMediaType))
      as [Hget Hhas].
    split; (etransitivity; [eassumption|]);
      [apply Header_has_Set_same|apply Header_Get_Set_same].
  - unfold Encoder_bytes.
    destruct (json_Marshal v) as [msg|encoding]; [discriminate|].
    destruct (http_NewRequest_error _ _); [discriminate|].
    intros Hreq. injection Hreq as <-. cbn [req_Body req_Header].
    exists encoding. split; [reflexivity|]. split; [reflexivity|].
    cbn [body_not_nil andb negb].
    destruct (later_headers_keep_content_type c
                (Header_Set [] headerContentType mediaTypeJSON))
      as [Hget Hhas].
    split; (etransitivity; [eassumption|]);
      [apply Header_has_Set_same|apply Header_Get_Set_same].
Qed.

End NewRequestFacts.


(** ** Do: the retry policy and the errors *)

Section DoClaims.
Context {Value : Type} `{NetHTTP} `{EncodingJSON Value} `{AxiomPkg}.

(** C5. [Do] makes the attempts 0 to [n], where [n] is the first attempt
    that is not retried; an attempt is retried exactly when the transport
    failed or the status is 500 or above and the wait that follows ends
    within ten seconds of the start; the wait after attempt [j] is the
    interval [min(200ms * 2^j, 60s)] with its jitter of one half; and when
    the last attempt was worth a retry, [Do] returns the response stored
    last and the error of the last attempt. *)
Theorem Do_retry_policy {A : Type} (c : Client) (w : World) (t0 : Z)
  (req : Request) (v : Target A) :
  exists n,
    (n <= 100)%nat
    /\ (forall j, (j < n)%nat ->
          retryable (w j) = true
          /\ spec_finish w t0 j - t0 + spec_wait w j <= 10 * Second)
    /\ (retryable (w n) = false
        \/ 10 * Second < spec_finish w t0 n - t0 + spec_wait w n)
    /\ (forall j, spec_interval j <= 2 * spec_wait w j + 1
                  /\ 2 * spec_wait w j <= 3 * spec_interval j + 2)
    /\ Do c w t0 req v
       = Some (Do_result c (spec_resp w (S n)) (spec_err (w n)) v,
               spec_trace w req n ++ [EvRoundTrip n req]
               ++ Do_deferred (spec_resp w (S n)))
    /\ (retryable (w n) = true ->
        exists e, spec_err (w n) = Some e
                  /\ Do_result c (spec_resp w (S n)) (spec_err (w n)) v
                     = Returned (spec_resp w (S n)) (Some e) out_none).
Proof.
  destruct (spec_retry_first w t0) as (n & Hn & Hretry & Hstop).
  exists n. split; [exact Hn|]. split; [|split; [|split; [|split]]].
  - intros j Hj. specialize (Hretry j Hj). unfold spec_retry in Hretry.
    apply andb_prop in Hretry as [Hr Hb]. apply Z.leb_le in Hb. auto.
  - unfold spec_retry in Hstop. apply andb_false_iff in Hstop as [Hr|Hb].
    + left. exact Hr.
    + right. apply Z.leb_gt in Hb. exact Hb.
  - intros j. apply spec_wait_bounds.
  - apply Do_run; assumption.
  - intros Hr. destruct (spec_err (w n)) as [e|] eqn:Ee.
    + exists e. split; reflexivity.
    + apply spec_err_retryable in Ee. congruence.
Qed.


Lemma spec_resp_last (w : World) (n : nat) (h : HTTPResponse) :
  outcome (w n) = inr h -> spec_resp w (S n) = Some (newResponse h n).
Proof. intros Ho. cbn [spec_resp]. rewrite Ho. reflexivity. Qed.

Lemma spec_err_client_error (w : World) (n : nat) (h : HTTPResponse) :
  outcome (w n) = inr h -> StatusCode h < 500 -> spec_err (w n) = None.
Proof.
  intros Ho Hs. unfold spec_err. rewrite Ho.
  destruct (Z.leb_spec 500 (StatusCode h)); [lia|reflexivity].
Qed.

Lemma spec_retry_client_error (w : World) (t0 : Z) (n : nat)
  (h : HTTPResponse) :
  outcome (w n) = inr h -> StatusCode h < 500 -> spec_retry w t0 n = false.
Proof.
  intros Ho Hs. unfold spec_retry, retryable. rewrite Ho.
  destruct (Z.leb_spec 500 (StatusCode h)); [lia|reflexivity].
Qed.



End DoClaims.


(** ** Ingestion *)

Section IngestFacts.
Context {Value : Type} `{NetURL} `{NetHTTP} `{EncodingJSON Value} `{AxiomPkg}
        `{Zstd}.
Variable json_Decode_Status : bool -> bytes -> string + Status.

Lemma ReadAll_bytes_Buffer out rd :
  ReadAll (bytes_Buffer out ++ rd)
  = (out ++ fst (ReadAll rd), snd (ReadAll rd)).
Proof.
  destruct out as [|a out]; cbn [bytes_Buffer app ReadAll];
    destruct (ReadAll rd); reflexivity.
Qed.

(** Reading the pipe to its end yields what was written before it was
    closed without an error. *)
Lemma ReadAll_pipe_reader log :
  forallb (fun op => match op with
                     | OpCloseWithError _ => false
                     | _ => true
                     end) log = true ->
  ReadAll (pipe_reader (log ++ [OpCloseWithError None])) = (written log, None).
Proof.
  induction log as [|[out|out|e] log IH]; cbn [forallb]; intros Hlog.
  - reflexivity.
  - cbn [app pipe_reader written]. rewrite ReadAll_bytes_Buffer, IH by exact Hlog.
    reflexivity.
  - cbn [app pipe_reader written]. rewrite ReadAll_bytes_Buffer, IH by exact Hlog.
    reflexivity.
  - discriminate.
Qed.

Lemma written_app log1 log2 : written (log1 ++ log2) = written log1 ++ written log2.
Proof.
  induction log1 as [|[out|out|e] log1 IH]; cbn [app written];
    rewrite ?IH, ?app_assoc; reflexivity.
Qed.

(** The loop writes, and does nothing else to the compressor or to the
    pipe. *)
Lemma encode_events_writes events : forall zsw,
  forallb is_write (snd (fst (encode_events zsw events))) = true.
Proof.
  induction events as [|event events IH]; intros zsw; cbn [encode_events].
  - reflexivity.
  - destruct (Encoder_bytes event) as [msg|line]; [reflexivity|].
    destruct (zstd_Write zsw line) as [[zsw1 out] [msg|]]; [reflexivity|].
    specialize (IH zsw1).
    destruct (encode_events zsw1 events) as [[zsw2 ops] encErr].
    exact IH.
Qed.

(** When nothing fails, the loop and the final [Close] produce the
    stream of the lines of the events. *)
Lemma encode_events_stream events lines :
  zstd_never_fails ->
  Forall2 (fun event line => json_Marshal event = inr line) events lines ->
  forall zsw,
    exists zsw1 ops,
      encode_events zsw events = (zsw1, ops, None)
      /\ written ops ++ fst (zstd_Close zsw1)
         = zstd_stream zsw (map (fun line => line ++ [newline]) lines).
Proof.
  intros (_ & Hwrite & _). induction 1 as [|event line events lines Hm _ IH];
    intros zsw.
  - exists zsw, []. split; reflexivity.
  - cbn [encode_events map zstd_stream]. unfold Encoder_bytes. rewrite Hm.
    specialize (Hwrite zsw (line ++ [newline])).
    destruct (zstd_Write zsw (line ++ [newline])) as [[zsw1 out] werr].
    cbn [snd] in Hwrite. subst werr.
    destruct (IH zsw1) as (zsw2 & ops & -> & Hstream).
    exists zsw2, (OpWrite out :: ops). split; [reflexivity|].
    cbn [written]. rewrite <- app_assoc, Hstream. reflexivity.
Qed.

(** C1. When every event serializes and neither the compressor nor the
    pipe fails, reading the pipe to its end and decompressing what was
    read yields the events as newline-delimited JSON: one object for each
    event, in the order of the slice. *)
Theorem IngestEvents_stream (events : list Value) (objects : list bytes) :
  zstd_never_fails ->
  zstd_lossless ->
  Forall2 (fun event object => json_Marshal event = inr object)
          events objects ->
  exists z,
    ReadAll (pipe_reader (IngestEvents_goroutine events)) = (z, None)
    /\ zstd_Decode z = Some (ndjson objects).
Proof.
  intros Hnf Hll Hm. pose proof Hnf as ([zsw0 Hnew] & _ & Hclose).
  unfold IngestEvents_goroutine, encode_and_close. rewrite Hnew.
  destruct (encode_events_stream Hnf Hm zsw0) as (zsw1 & ops & Henc & Hstream).
  pose proof (encode_events_writes events zsw0) as Hops.
  rewrite Henc in *. cbn [fst snd] in Hops.
  specialize (Hclose zsw1).
  destruct (zstd_Close zsw1) as [out closeErr]. cbn [fst snd] in *.
  subst closeErr. cbn [option_map].
  exists (written (ops ++ [OpClose out])). split.
  - change (ops ++ [OpClose out; OpCloseWithError None])
      with (ops ++ [OpClose out] ++ [OpCloseWithError None]).
    rewrite app_assoc. apply ReadAll_pipe_reader.
    rewrite forallb_app. apply andb_true_intro. split; [|reflexivity].
    rewrite forallb_forall in *. intros op Hin. specialize (Hops op Hin).
    destruct op; [reflexivity|reflexivity|discriminate].
  - rewrite written_app. cbn [written]. rewrite app_nil_r, Hstream.
    rewrite (Hll zsw0 _ Hnew). reflexivity.
Qed.


Lemma spec_trace_head (w : World) (req : Request) (n : nat) (rest : list Event) :
  exists tl,
    spec_trace w req n ++ EvRoundTrip n req :: rest = EvRoundTrip 0 req :: tl.
Proof.
  revert rest. induction n as [|n IH]; intros rest.
  - exists rest. reflexivity.
  - cbn [spec_trace]. rewrite <- app_assoc. cbn [app]. apply IH.
Qed.

(** A request that [Do] is given reaches the transport. *)
Lemma Do_sends {A : Type} (c : Client) (w : World) (t0 : Z) (req : Request)
  (v : Target A) :
  exists r tl, Do c w t0 req v = Some (r, EvRoundTrip 0 req :: tl).
Proof.
  destruct (spec_retry_first w t0) as (n & _ & Hretry & Hstop).
  erewrite Do_run by eassumption.
  destruct (spec_trace_head w req n (Do_deferred (spec_resp w (S n))))
    as [tl Htl].
  cbn [app]. rewrite Htl. eauto.
Qed.


End IngestFacts.

(** ** The code at work *)

Section Examples.
Import Example.

Lemma no_letters_not_space : letters_not_space no_letters.
Proof.
  intros c Hc. unfold unicode.IsLetter, unicode.IsSpace in *.
  destruct (unicode.between 0 unicode.MaxLatin1 c); [|reflexivity].
  repeat (apply orb_prop in Hc as [Hc|Hc]);
    apply Z.eqb_eq in Hc; subst c; reflexivity.
Qed.

Example DetectContentType_json_array :
  exists r', DetectContentType no_letters json_array = Some (inr (r', JSON)).
Proof. eexists. vm_compute. reflexivity. Qed.

Example DetectContentType_csv :
  exists r',
    DetectContentType no_letters (strings_NewReader "Year,Make,Model,Length")
    = Some (inr (r', CSV)).
Proof. eexists. vm_compute. reflexivity. Qed.

Example DetectContentType_eof :
  DetectContentType no_letters (strings_NewReader "")
  = Some (inl (errors_New
                 "couldn't find beginning of supported ingestion format")).
Proof. vm_compute. reflexivity. Qed.

Example DetectContentType_invalid :
  DetectContentType no_letters (strings_NewReader "123")
  = Some (inl (errors_New "cannot determine content type")).
Proof. vm_compute. reflexivity. Qed.

(** C6, at the input [  {}] delivered in two reads. *)
Lemma DetectContentType_classifies_witness :
  letters_not_space no_letters
  /\ well_behaved [Data [" "; " "]%char; Data ["{"; "}"]%char] = true
  /\ exists r',
       DetectContentType no_letters
         [Data [" "; " "]%char; Data ["{"; "}"]%char]
       = Some (inr (r', NDJSON)).
Proof.
  split; [exact no_letters_not_space|]. split; [reflexivity|].
  exact (@DetectContentType_classifies no_letters no_letters_not_space
           [Data [" "; " "]%char; Data ["{"; "}"]%char] eq_refl).
Defined.

(** C3, where the code goes wrong: for the input [ {}] the reader that
    [DetectContentType] returns delivers [{}], without the space that the
    detector has skipped; reading the input itself delivers [ {}]. *)
Theorem DetectContentType_drops_leading_space (L : Z -> bool) :
  DetectContentType L (strings_NewReader " {}")
  = Some (inr ([Data ["{"; "}"]%char], NDJSON))
  /\ ReadAll [Data ["{"; "}"]%char] = (["{"; "}"]%char, None)
  /\ ReadAll (strings_NewReader " {}") = ([" "; "{"; "}"]%char, None).
Proof. repeat split. Qed.

(** C4, the path the claim has on the allow-list and the code has not:
    with a token of API scope the request that validates an ingest token is
    refused. *)
Lemma NewRequest_refuses_token_validation :
  IsAPIToken (AccessToken (config api_client)) = true
  /\ NewRequest api_client "GET" "/api/v1/tokens/ingest/validate"
       (body_nil (Value := Fields))
     = inl ErrUnprivilegedToken.
Proof. split; reflexivity. Qed.

Example NewRequest_refuses_datasets :
  NewRequest api_client "GET" "/api/v1/datasets" (body_nil (Value := Fields))
  = inl ErrUnprivilegedToken.
Proof. reflexivity. Qed.

Example NewRequest_admits_ingest :
  exists req tl r,
    NewRequest api_client "POST" "/api/v1/datasets/test/ingest"
      (body_nil (Value := Fields)) = inr req
    /\ Do api_client server_ok 0 req (v_nil (A := unit))
       = Some (r, EvRoundTrip 0 req :: tl).
Proof. do 3 eexists. split; vm_compute; reflexivity. Qed.

(** C10, for an event as body. *)
Lemma NewRequest_body_witness :
  exists req,
    NewRequest personal_client "POST" "/api/v1/datasets" (body_Value event1)
    = inr req
    /\ exists encoding,
         json_Marshal event1 = inr encoding
         /\ req_Body req = Some (bytes_Buffer (encoding ++ [newline]))
         /\ Header_has (req_Header req) headerContentType = true
         /\ Header_Get (req_Header req) headerContentType
            = "application/json"%string.
Proof.
  eexists. split; [reflexivity|].
  exact (@NewRequest_body Fields url http json pkg personal_client "POST"
           "/api/v1/datasets" (body_Value event1) _ eq_refl).
Defined.



(** C9, where the code goes wrong: the first attempt is answered with 500
    and retried, the second with 200; the body of the second response is
    drained and closed, that of the first never is. *)
Theorem Do_leaves_retried_body_open :
  exists r,
    Do personal_client server_500_then_ok 0 get_datasets (v_nil (A := unit))
    = Some (r, [EvRoundTrip 0 get_datasets; EvSleep (100 * Millisecond);
                EvRoundTrip 1 get_datasets; EvDrain 1; EvClose 1]).
Proof. eexists. vm_compute. reflexivity. Qed.

(** The budget at work: with a transport that fails after two seconds
    each time, [Do] waits 0.1s, 0.2s, 0.4s and 0.8s (the draws are 0, the
    waits the least the jitter allows) and gives up after the fifth
    attempt, 11.5s after the start, as the next wait would end later than
    ten seconds after the start; it returns the error of that attempt. *)
Example Do_gives_up :
  Do personal_client server_down 0 get_datasets (v_nil (A := unit))
  = Some (Returned None (Some (net_Error "connection refused")) out_none,
          [EvRoundTrip 0 get_datasets; EvSleep (100 * Millisecond);
           EvRoundTrip 1 get_datasets; EvSleep (200 * Millisecond);
           EvRoundTrip 2 get_datasets; EvSleep (400 * Millisecond);
           EvRoundTrip 3 get_datasets; EvSleep (800 * Millisecond);
           EvRoundTrip 4 get_datasets]).
Proof. vm_compute. reflexivity. Qed.

(** The stored codec gives back what it was given. *)
Lemma stored_stream_started chunks :
  zstd_stream (H := stored) true chunks = concat chunks.
Proof.
  induction chunks as [|p chunks IH]; [reflexivity|].
  cbn [zstd_stream zstd_Write stored stored_Write concat app].
  rewrite IH. reflexivity.
Qed.

Lemma stored_lossless : zstd_lossless (H := stored).
Proof.
  intros zsw chunks Hnew. injection Hnew as <-.
  destruct chunks as [|p chunks]; [reflexivity|].
  cbn [zstd_stream zstd_Write stored stored_Write].
  rewrite stored_stream_started. reflexivity.
Qed.

Lemma stored_never_fails : zstd_never_fails (H := stored).
Proof.
  split; [exists false; reflexivity|]. split; reflexivity.
Qed.

(** C1, for two events and the stored codec. *)
Lemma IngestEvents_stream_witness :
  exists z,
    ReadAll (pipe_reader (IngestEvents_goroutine [event1; event2]))
    = (z, None)
    /\ zstd_Decode z
       = Some (list_ascii_of_string "{" ++ ["034"; "a"; "034"; ":"; "034";
                 "b"; "034"; "}"; newline; "{"; "034"; "c"; "034"; ":";
                 "034"; "d"; "034"; "}"; newline]%char)%list.
Proof.
  exact (@IngestEvents_stream Fields json stored [event1; event2] _
           stored_never_fails stored_lossless
           (Forall2_cons _ _ eq_refl (Forall2_cons _ _ eq_refl (Forall2_nil _)))).
Defined.


End Examples.


(** ** Do: what it returns and how long it waits *)

Section DoMore.
Context {Value : Type} `{NetHTTP} `{EncodingJSON Value} `{AxiomPkg}.

Lemma round_trips_app (tr1 tr2 : list Event) :
  round_trips (tr1 ++ tr2) = (round_trips tr1 + round_trips tr2)%nat.
Proof.
  induction tr1 as [|[j r|d|j|j] tr1 IH]; cbn [app round_trips];
    rewrite ?IH; reflexivity.
Qed.


Lemma round_trips_spec_trace (w : World) (req : Request) (n : nat) :
  round_trips (spec_trace w req n) = n.
Proof.
  induction n as [|n IH]; [reflexivity|].
  cbn [spec_trace]. rewrite round_trips_app, IH. cbn [round_trips]. lia.
Qed.




Lemma spec_err_None_response (w : World) (n : nat) :
  spec_err (w n) = None ->
  exists h, outcome (w n) = inr h /\ StatusCode h < 500.
Proof.
  unfold spec_err. destruct (outcome (w n)) as [msg|h]; [discriminate|].
  destruct (Z.leb_spec 500 (StatusCode h)); [discriminate|]. eauto.
Qed.

Lemma spec_resp_None (w : World) (n : nat) :
  spec_resp w n = None ->
  forall j, (j < n)%nat -> exists msg, outcome (w j) = inl msg.
Proof.
  induction n as [|n IH]; intros Hnone j Hj; [lia|].
  cbn [spec_resp] in Hnone.
  destruct (outcome (w n)) as [msg|h] eqn:Ho; [|discriminate].
  destruct (Nat.eq_dec j n) as [->|Hne]; [eauto|]. apply IH; [exact Hnone|lia].
Qed.

(** [Do] returns a response with every result but one: the error of the
    transport, when the transport has failed at each attempt.  It never
    returns [nil, nil]: a caller that finds no error has a response at
    hand. *)
Theorem Do_nil_response_only_with_error {A : Type} (c : Client)
  (w : World) (t0 : Z) (req : Request) (v : Target A) :
  exists r tr,
    Do c w t0 req v = Some (r, tr)
    /\ forall err out,
         r = Returned None err out ->
         (exists msg, err = Some (net_Error msg))
         /\ out = out_none
         /\ (forall j, (j < round_trips tr)%nat ->
                       exists msg, outcome (w j) = inl msg)
         /\ (forall j, ~ In (EvClose j) tr).
Proof.
  destruct (spec_retry_first w t0) as (n & Hn & Hretry & Hstop).
  eexists. eexists. split; [eapply Do_run; eassumption|].
  intros err out Hr.
  destruct (spec_resp w (S n)) as [resp0|] eqn:Hresp.
  - exfalso. unfold Do_result in Hr.
    repeat match type of Hr with
    | match ?x with _ => _ end = _ => destruct x
    | (if ?x then _ else _) = _ => destruct x
    | (let '(_, _) := ?x in _) = _ => destruct x
    end; discriminate.
  - pose proof (spec_resp_None _ Hresp) as Hall.
    destruct (Hall n (Nat.lt_succ_diag_r n)) as [msg Ho].
    unfold spec_err in Hr. rewrite Ho in Hr. cbn [Do_result] in Hr.
    injection Hr as <- <-.
    split; [eauto|]. split; [reflexivity|]. split.
    + rewrite !round_trips_app, round_trips_spec_trace. cbn [round_trips Do_deferred].
      intros j Hj. apply Hall. lia.
    + intros j Hin. cbn [Do_deferred] in Hin. rewrite app_nil_r in Hin.
      apply in_app_or in Hin as [Hin|Hin].
      * clear - Hin. induction n as [|n IH]; [exact Hin|].
        cbn [spec_trace] in Hin. apply in_app_or in Hin as [Hin|Hin]; [auto|].
        cbn [In] in Hin. destruct Hin as [Hin|[Hin|[]]]; discriminate.
      * cbn [In] in Hin. destruct Hin as [Hin|[]]. discriminate.
Qed.


(** An error response whose body is the JSON [null] makes [Do] panic:
    decoding [null] into [&errResp] sets [errResp] to [nil], and the
    test of [errResp.Message] that follows dereferences it.  This is so for
    every status from 400 to 499 that has no error of its own, when the
    response is announced as JSON; the deferred function still drains and
    closes the body. *)
Theorem Do_null_error_body_panics {A : Type} (c : Client) (w : World)
  (t0 : Z) (req : Request) (v : Target A) (n : nat) (h : HTTPResponse)
  (buf : bytes) :
  (forall j, (j < n)%nat -> spec_retry w t0 j = true) ->
  outcome (w n) = inr h ->
  400 <= StatusCode h < 500 ->
  ~ In (StatusCode h) [401; 403; 404; 409; 429; httpStatusLimitExceeded] ->
  HasPrefix (Header_Get (resp_Header h) headerContentType) mediaTypeJSON
  = true ->
  json_Decode_Error (resp_Body h) = (buf, inr None) ->
  exists tr,
    Do c w t0 req v = Some (Panicked, tr ++ [EvDrain n; EvClose n]).
Proof.
  intros Hretry Ho Hs Hnot Hct Hdec.
  assert (Hstop : spec_retry w t0 n = false).
  { apply (spec_retry_client_error w t0 n Ho). lia. }
  exists (spec_trace w req n ++ [EvRoundTrip n req]).
  erewrite Do_run by eassumption.
  rewrite (spec_resp_last w n Ho), (@spec_err_client_error w n h Ho) by lia.
  cbn [Do_deferred newResponse Response_attempt]. rewrite <- app_assoc.
  f_equal. f_equal. unfold Do_result. cbn [Response_http newResponse
    StatusCode resp_Header resp_Body Response_Limit].
  destruct (Z.leb_spec 400 (StatusCode h)) as [_|Hlt]; [|lia].
  cbn [In] in Hnot.
  repeat match goal with
  | |- context [StatusCode h =? ?k] =>
    destruct (Z.eqb_spec (StatusCode h) k); [exfalso; intuition congruence|]
  end.
  cbn [orb]. rewrite Hct, Hdec. reflexivity.
Qed.

End DoMore.


(** ** The headers of a request *)

Section Headers.
Context {Value : Type} `{NetURL} `{NetHTTP} `{EncodingJSON Value} `{AxiomPkg}.

Lemma Header_has_Set_inv h k k' v :
  Header_has (Header_Set h k' v) k = true -> k = k' \/ Header_has h k = true.
Proof.
  intros Hhas. destruct (string_dec k k') as [->|Hne]; [left; reflexivity|].
  right. rewrite Header_has_Set_other in Hhas by exact Hne. exact Hhas.
Qed.

(** The request [NewRequest] builds, header by header. *)
Lemma NewRequest_inv (c : Client) (method path : string) (body : Body Value)
  (req : Request) :
  NewRequest c method path body = inr req ->
  exists h1 r,
    (forall k, Header_has h1 k = true -> k = headerContentType)
    /\ req
       = mkRequest
           (if String.eqb method EmptyString then "GET" else method)
           (req_URL req)
           (Header_Set
              (Header_Set
                 (let h2 :=
                    if String.eqb (AccessToken (config c)) EmptyString then h1
                    else Header_Set h1 headerAuthorization
                           ("Bearer " ++ AccessToken (config c))%string in
                  if IsPersonalToken (AccessToken (config c))
                     && negb (String.eqb (OrganizationID (config c))
                                         EmptyString)
                  then Header_Set h2 headerOrganizationID
                                  (OrganizationID (config c))
                  else h2)
                 headerAccept mediaTypeJSON)
              headerUserAgent (userAgent c))
           r.
Proof.
  unfold NewRequest.
  destruct (url_ParseRequestURI path) as [msg|rel]; [discriminate|].
  destruct (IsAPIToken _ && negb _); [discriminate|].
  assert (Hct : forall (b : bool) (v : string) (k : string),
            Header_has (if b then Header_Set [] headerContentType v else [])
                       k = true -> k = headerContentType).
  { intros b v k Hk. destruct b; [|discriminate].
    apply Header_has_Set_inv in Hk as [->|Hk]; [reflexivity|discriminate]. }
  destruct body as [|r|v]; cbv beta iota zeta.
  - destruct (http_NewRequest_error _ _); [discriminate|].
    intros Hreq. injection Hreq as <-. cbn [body_not_nil andb req_URL].
    exists [], None. split; [discriminate|reflexivity].
  - destruct (http_NewRequest_error _ _); [discriminate|].
    intros Hreq. injection Hreq as <-. cbn [body_not_nil andb negb req_URL].
    eexists. eexists. split; [apply (Hct true)|reflexivity].
  - destruct (Encoder_bytes v) as [msg|buf]; [discriminate|].
    cbv beta iota zeta.
    destruct (http_NewRequest_error _ _); [discriminate|].
    intros Hreq. injection Hreq as <-. cbn [body_not_nil andb negb req_URL].
    eexists. eexists. split; [apply (Hct true)|reflexivity].
Qed.

(** Every request [NewRequest] builds asks for JSON and names the
    client; it carries the access token as a bearer token exactly when the
    client has one, and the organization ID exactly when the token is a
    personal one and the ID is not empty; besides these and the content
    type it has no header. *)
Theorem NewRequest_headers (c : Client) (method path : string)
  (body : Body Value) (req : Request) :
  NewRequest c method path body = inr req ->
  let token := AccessToken (config c) in
  let org := OrganizationID (config c) in
  let h := req_Header req in
  Header_Get h headerAccept = mediaTypeJSON
  /\ Header_Get h headerUserAgent = userAgent c
  /\ (if String.eqb token EmptyString
      then Header_has h headerAuthorization = false
      else Header_Get h headerAuthorization = ("Bearer " ++ token)%string)
  /\ (if IsPersonalToken token && negb (String.eqb org EmptyString)
      then Header_Get h headerOrganizationID = org
      else Header_has h headerOrganizationID = false)
  /\ (forall k, Header_has h k = true ->
                In k [headerContentType; headerAuthorization;
                      headerOrganizationID; headerAccept; headerUserAgent]).
Proof.
  intros Hreq token org h.
  destruct (NewRequest_inv _ _ _ _ Hreq) as (h1 & r & Hh1 & Heq).
  subst h. rewrite Heq. cbn [req_Header]. clear Heq Hreq. fold token org.
  assert (Hno : forall k, k <> headerContentType -> Header_has h1 k = false).
  { intros k Hk. destruct (Header_has h1 k) eqn:E; [|reflexivity].
    apply Hh1 in E. congruence. }
  split; [|split; [|split; [|split]]].
  - rewrite Header_Get_Set_other by discriminate. apply Header_Get_Set_same.
  - apply Header_Get_Set_same.
  - destruct (String.eqb token "") eqn:Et.
    + rewrite !Header_has_Set_other by discriminate.
      destruct (IsPersonalToken token && negb (String.eqb org ""));
        [rewrite Header_has_Set_other by discriminate|];
        apply Hno; discriminate.
    + rewrite !Header_Get_Set_other by discriminate.
      destruct (IsPersonalToken token && negb (String.eqb org ""));
        [rewrite Header_Get_Set_other by discriminate|];
        apply Header_Get_Set_same.
  - rewrite ?Header_has_Set_other, ?Header_Get_Set_other by discriminate.
    destruct (IsPersonalToken token && negb (String.eqb org "")).
    + apply Header_Get_Set_same.
    + destruct (String.eqb token "");
        [|rewrite Header_has_Set_other by discriminate];
        apply Hno; discriminate.
  - intros k Hk. cbn [In].
    apply Header_has_Set_inv in Hk as [->|Hk]; [auto 6|].
    apply Header_has_Set_inv in Hk as [->|Hk]; [auto 6|].
    destruct (IsPersonalToken token && negb (String.eqb org ""));
      [apply Header_has_Set_inv in Hk as [->|Hk]; [auto 6|]|];
      (destruct (String.eqb token "");
       [|apply Header_has_Set_inv in Hk as [->|Hk]; [auto 6|]]);
      apply Hh1 in Hk; auto.
Qed.

End Headers.

(** ** Ingest *)

Section IngestReaderFacts.
Context {Value : Type} `{NetURL} `{NetHTTP} `{EncodingJSON Value} `{AxiomPkg}.
Variable json_Decode_Status : bool -> bytes -> string + Status.

Lemma do_ingest_sends (s : DatasetsService) (w : World) (t0 : Z)
  (req : Request) :
  exists res tl,
    do_ingest json_Decode_Status s w t0 req
    = Some (res, EvRoundTrip 0 req :: tl).
Proof.
  unfold do_ingest.
  destruct (Do_sends (client s) w t0 req (v_Value json_Decode_Status))
    as (r0 & tl & ->).
  destruct r0 as [resp0 [e|] out|]; [| destruct out |]; eauto.
Qed.

Lemma NewRequest_POST (c : Client) (path : string) (body : Body Value)
  (req : Request) :
  NewRequest c "POST" path body = inr req -> req_Method req = "POST"%string.
Proof.
  intros Hreq. destruct (NewRequest_inv _ _ _ _ Hreq) as (h1 & r & _ & ->).
  reflexivity.
Qed.

Lemma NewRequest_no_content_encoding (c : Client) (method path : string)
  (body : Body Value) (req : Request) :
  NewRequest c method path body = inr req ->
  Header_has (req_Header req) "Content-Encoding" = false.
Proof.
  intros Hreq.
  destruct (Header_has (req_Header req) "Content-Encoding") eqn:E;
    [|reflexivity].
  destruct (NewRequest_headers _ _ _ _ Hreq) as (_ & _ & _ & _ & Hkeys).
  apply Hkeys in E. cbn [In] in E.
  destruct E as [E|[E|[E|[E|[E|[]]]]]]; discriminate.
Qed.

(** [Ingest] refuses a content type or a content encoding that is none
    of the three constants (the zero value is none of them) without
    sending anything: once the request could be built the error is
    [ErrUnknownContentType], and [ErrUnknownContentEncoding] when only the
    encoding is unknown. *)
Theorem Ingest_unknown_type_or_encoding (s : DatasetsService) (w : World)
  (t0 : Z) (id : string) (r : Reader) (typ enc : Z)
  (options : list ingest.Option_) :
  ~ 1 <= typ <= 3 \/ ~ 1 <= enc <= 3 ->
  exists e,
    Ingest json_Decode_Status s w t0 id r typ enc options
    = Some (Ingest_err e, [])
    /\ forall path req,
         AddOptions (basePath s ++ "/" ++ id ++ "/ingest")%string
                    (ingest.apply options) = inr path ->
         NewRequest (client s) "POST" path (body_Reader r) = inr req ->
         e = if (1 <=? typ) && (typ <=? 3) then ErrUnknownContentEncoding
             else ErrUnknownContentType.
Proof.
  intros Hunknown. unfold Ingest. cbv zeta.
  destruct (AddOptions _ _) as [msg|path].
  { eexists. split; [reflexivity|]. intros path req Hp. discriminate. }
  destruct (NewRequest _ _ _ _) as [e|req] eqn:Er.
  { eexists. split; [reflexivity|]. intros path' req Hp Hr.
    injection Hp as <-. congruence. }
  assert (Htyp : (1 <=? typ) && (typ <=? 3) = true -> 1 <= typ <= 3).
  { intros Hb. apply andb_prop in Hb as [H5 H6].
    apply Z.leb_le in H5. apply Z.leb_le in H6. lia. }
  destruct (ContentType_of_uint8 typ) as [t|] eqn:Et.
  - assert (Ht : 1 <= typ <= 3).
    { unfold ContentType_of_uint8 in Et.
      destruct typ as [|[[|[]|]|[|[]|]|]|]; try discriminate; lia. }
    assert (He : ContentEncoding_of_uint8 enc = None).
    { unfold ContentEncoding_of_uint8.
      destruct enc as [|[[|[]|]|[|[]|]|]|]; try reflexivity; lia. }
    rewrite He. eexists. split; [reflexivity|]. intros _ _ _ _.
    destruct (Z.leb_spec 1 typ); [|lia].
    destruct (Z.leb_spec typ 3); [|lia]. reflexivity.
  - eexists. split; [reflexivity|]. intros _ _ _ _.
    destruct ((1 <=? typ) && (typ <=? 3)) eqn:Eb; [|reflexivity].
    specialize (Htyp eq_refl). unfold ContentType_of_uint8 in Et.
    destruct typ as [|[[|[]|]|[|[]|]|]|]; try discriminate; lia.
Qed.

(** The request [Ingest] sends when content type and encoding are known:
    a POST of the reader as it is, with the content type of the data in
    place of the one [NewRequest] had set, with the encoding of the data as
    content encoding unless that is [Identity], where there is no such
    header, and with the other headers as [NewRequest] has set them. *)
Theorem Ingest_request (s : DatasetsService) (w : World) (t0 : Z)
  (id : string) (r : Reader) (typ enc : Z) (options : list ingest.Option_)
  (t : ContentType) (e : ContentEncoding) (path : string) (req : Request) :
  ContentType_of_uint8 typ = Some t ->
  ContentEncoding_of_uint8 enc = Some e ->
  AddOptions (basePath s ++ "/" ++ id ++ "/ingest")%string
             (ingest.apply options) = inr path ->
  NewRequest (client s) "POST" path (body_Reader r) = inr req ->
  exists res sent tl,
    Ingest json_Decode_Status s w t0 id r typ enc options
    = Some (res, EvRoundTrip 0 sent :: tl)
    /\ req_Method sent = "POST"%string
    /\ req_URL sent = req_URL req
    /\ req_Body sent = Some r
    /\ Header_Get (req_Header sent) "Content-Type" = ContentType_String t
    /\ match e with
       | Identity => Header_has (req_Header sent) "Content-Encoding" = false
       | _ => Header_Get (req_Header sent) "Content-Encoding"
              = ContentEncoding_String e
       end
    /\ forall k, k <> "Content-Type"%string ->
                 k <> "Content-Encoding"%string ->
                 Header_Get (req_Header sent) k = Header_Get (req_Header req) k.
Proof.
  intros Et Ee Hpath Hreq. unfold Ingest. cbv zeta.
  rewrite Hpath, Hreq, Et, Ee.
  pose proof (NewRequest_POST _ _ _ Hreq) as Hm.
  pose proof (NewRequest_reader_body _ _ _ _ Hreq) as Hb.
  pose proof (NewRequest_no_content_encoding _ _ _ _ Hreq) as Hce.
  destruct e;
    match goal with
    | |- context [do_ingest _ ?s ?w ?t ?q] =>
      destruct (do_ingest_sends s w t q) as (res & tl & ->)
    end;
    exists res; eexists; exists tl; (split; [reflexivity|]);
    cbn [req_Method req_URL req_Body req_Header];
    (split; [exact Hm|]); (split; [reflexivity|]); (split; [exact Hb|]).
  - split; [apply Header_Get_Set_same|]. split.
    + rewrite Header_has_Set_other by discriminate. exact Hce.
    + intros k Hk _. apply Header_Get_Set_other. exact Hk.
  - split.
    { rewrite Header_Get_Set_other by discriminate. apply Header_Get_Set_same. }
    split; [apply Header_Get_Set_same|].
    intros k Hk1 Hk2. rewrite !Header_Get_Set_other by assumption. reflexivity.
  - split.
    { rewrite Header_Get_Set_other by discriminate. apply Header_Get_Set_same. }
    split; [apply Header_Get_Set_same|].
    intros k Hk1 Hk2. rewrite !Header_Get_Set_other by assumption. reflexivity.
Qed.

End IngestReaderFacts.

Section IngestRequest.
Context {Value : Type} `{NetURL} `{NetHTTP} `{EncodingJSON Value} `{AxiomPkg}
        `{Zstd}.
Variable json_Decode_Status : bool -> bytes -> string + Status.

Lemma send_ingest_request (s : DatasetsService) (w : World) (t0 : Z)
  (path : string) (pr : Reader) (req : Request) :
  NewRequest (client s) "POST" path (body_Reader pr) = inr req ->
  exists res sent tl,
    send_ingest json_Decode_Status s w t0 path pr
    = Some (res, EvRoundTrip 0 sent :: tl)
    /\ req_Method sent = "POST"%string
    /\ req_URL sent = req_URL req
    /\ req_Body sent = Some pr
    /\ Header_Get (req_Header sent) "Content-Type"
       = "application/x-ndjson"%string
    /\ Header_Get (req_Header sent) "Content-Encoding" = "zstd"%string
    /\ forall k, k <> "Content-Type"%string ->
                 k <> "Content-Encoding"%string ->
                 Header_Get (req_Header sent) k = Header_Get (req_Header req) k.
Proof.
  intros Hreq. unfold send_ingest. rewrite Hreq.
  pose proof (NewRequest_POST _ _ _ Hreq) as Hm.
  pose proof (NewRequest_reader_body _ _ _ _ Hreq) as Hb.
  match goal with
  | |- context [Do ?c ?w ?t ?q ?v] =>
    destruct (Do_sends c w t q v) as (r0 & tl & ->)
  end.
  assert (Hgoal : forall res : IngestResult,
    exists res' sent tl',
      Some (res, EvRoundTrip 0
                   (mkRequest (req_Method req) (req_URL req)
                      (Header_Set
                         (Header_Set (req_Header req) "Content-Type"
                                     (ContentType_String NDJSON))
                         "Content-Encoding" (ContentEncoding_String Zstd_))
                      (req_Body req)) :: tl)
      = Some (res', EvRoundTrip 0 sent :: tl')
      /\ req_Method sent = "POST"%string
      /\ req_URL sent = req_URL req
      /\ req_Body sent = Some pr
      /\ Header_Get (req_Header sent) "Content-Type"
         = "application/x-ndjson"%string
      /\ Header_Get (req_Header sent) "Content-Encoding" = "zstd"%string
      /\ forall k, k <> "Content-Type"%string ->
                   k <> "Content-Encoding"%string ->
                   Header_Get (req_Header sent) k
                   = Header_Get (req_Header req) k).
  { intros res. exists res. eexists. exists tl. split; [reflexivity|].
    cbn [req_Method req_URL req_Body req_Header].
    split; [exact Hm|]. split; [reflexivity|]. split; [exact Hb|].
    split.
    { rewrite Header_Get_Set_other by discriminate. apply Header_Get_Set_same. }
    split; [apply Header_Get_Set_same|].
    intros k Hk1 Hk2. rewrite !Header_Get_Set_other by assumption.
    reflexivity. }
  destruct r0 as [resp0 [e|] out|]; [| destruct out |]; apply Hgoal.
Qed.

(** [IngestEvents], when there are events, and [IngestChannel], whatever
    the channel delivers, send a POST whose body is the read end of the
    pipe, announced as newline-delimited JSON compressed with zstd; the
    other headers are those [NewRequest] has set. *)
Theorem IngestEvents_request (s : DatasetsService) (w : World) (t0 : Z)
  (id : string) (events : list Value) (opts : Options) (path : string) :
  AddOptions (basePath s ++ "/" ++ id ++ "/ingest")%string opts = inr path ->
  (forall req,
     events <> [] ->
     NewRequest (client s) "POST" path
       (body_Reader (pipe_reader (IngestEvents_goroutine events))) = inr req ->
     exists res sent tl,
       IngestEvents json_Decode_Status s w t0 id events opts
       = Some (res, EvRoundTrip 0 sent :: tl)
       /\ req_Method sent = "POST"%string
       /\ req_URL sent = req_URL req
       /\ req_Body sent = Some (pipe_reader (IngestEvents_goroutine events))
       /\ Header_Get (req_Header sent) "Content-Type"
          = "application/x-ndjson"%string
       /\ Header_Get (req_Header sent) "Content-Encoding" = "zstd"%string
       /\ forall k, k <> "Content-Type"%string ->
                    k <> "Content-Encoding"%string ->
                    Header_Get (req_Header sent) k
                    = Header_Get (req_Header req) k)
  /\ (forall req,
        NewRequest (client s) "POST" path
          (body_Reader (pipe_reader (IngestChannel_goroutine events)))
        = inr req ->
        exists res sent tl,
          IngestChannel json_Decode_Status s w t0 id events opts
          = Some (res, EvRoundTrip 0 sent :: tl)
          /\ req_Method sent = "POST"%string
          /\ req_URL sent = req_URL req
          /\ req_Body sent
             = Some (pipe_reader (IngestChannel_goroutine events))
          /\ Header_Get (req_Header sent) "Content-Type"
             = "application/x-ndjson"%string
          /\ Header_Get (req_Header sent) "Content-Encoding" = "zstd"%string
          /\ forall k, k <> "Content-Type"%string ->
                       k <> "Content-Encoding"%string ->
                       Header_Get (req_Header sent) k
                       = Header_Get (req_Header req) k).
Proof.
  intros Hpath. split.
  - intros req Hne Hreq. unfold IngestEvents. rewrite Hpath.
    destruct events as [|event events]; [congruence|]. cbn [length Nat.eqb].
    apply send_ingest_request. exact Hreq.
  - intros req Hreq. unfold IngestChannel. rewrite Hpath.
    apply send_ingest_request. exact Hreq.
Qed.

End IngestRequest.


(** ** The options of an ingest *)

Section IngestOptions.
Import ingest.

Lemma get_set (k k' : Field) (v : string) (o : Options) :
  get k (set k' v o) = if Field_eqb k' k then v else get k o.
Proof. destruct k, k'; reflexivity. Qed.

(** The options are applied in the order they are given, on options that
    are empty at first: each field ends up with the value of the last
    option that sets it, and is empty when no option does. *)
Theorem ingest_options_last_wins (k : Field) (xs : list (Field * string)) :
  get k (apply (map (fun x => set (fst x) (snd x)) xs))
  = match find (fun x => Field_eqb (fst x) k) (rev xs) with
    | Some x => snd x
    | None => EmptyString
    end.
Proof.
  assert (Hfrom : forall o,
            get k (fold_left (fun opts option => option opts)
                             (map (fun x => set (fst x) (snd x)) xs) o)
            = match find (fun x => Field_eqb (fst x) k) (rev xs) with
              | Some x => snd x
              | None => get k o
              end).
  { induction xs as [|x xs IH] using rev_ind; intros o; [reflexivity|].
    rewrite map_app, fold_left_app, rev_app_distr.
    cbn [map fold_left rev app find]. rewrite get_set.
    destruct (Field_eqb (fst x) k); [reflexivity|]. apply IH. }
  unfold apply. rewrite Hfrom. destruct k; reflexivity.
Qed.

End IngestOptions.

(** ** package sas: the two shapes of a filter *)

Section FilterFacts.
Import sas.
Variables FilterOp Any : Type.
Abbreviation Filter := (Filter FilterOp Any).
Abbreviation filter := (filter FilterOp Any).

(** Induction on a filter, the children being filters of the same
    kind. *)
Section Filter_ind.
Variable P : Filter -> Prop.
Hypothesis Hnil : forall op field value cs, P (mkFilter op field value cs None).
Hypothesis Hsome : forall op field value cs l,
  Forall P l -> P (mkFilter op field value cs (Some l)).

Lemma Filter_induction (qf : Filter) : P qf.
Proof.
  revert qf. fix IH 1. intros [op field value cs [l|]].
  - apply Hsome. induction l as [|child rest IHl]; constructor;
      [apply IH|exact IHl].
  - apply Hnil.
Qed.
End Filter_ind.

Section filter_ind.
Variable P : filter -> Prop.
Hypothesis Hnil : forall op field value cs, P (mkfilter op field value cs None).
Hypothesis Hsome : forall op field value cs l,
  Forall P l -> P (mkfilter op field value cs (Some l)).

Lemma filter_induction (f : filter) : P f.
Proof.
  revert f. fix IH 1. intros [op field value cs [l|]].
  - apply Hsome. induction l as [|child rest IHl]; constructor;
      [apply IH|exact IHl].
  - apply Hnil.
Qed.
End filter_ind.

(** The loop over the children: [nil] when there is no child, the
    converted children in their order otherwise. *)
Lemma append_loop (A B : Type) (f : A -> B) (l : list A) (acc : list B) :
  fold_left (fun acc child => append acc (f child)) l (Some acc)
  = Some (acc ++ map f l).
Proof.
  revert acc. induction l as [|a l IH]; intros acc; cbn [fold_left map].
  - rewrite app_nil_r. reflexivity.
  - cbn [append]. rewrite IH, <- app_assoc. reflexivity.
Qed.

Lemma append_loop_nil (A B : Type) (f : A -> B) (l : list A) :
  fold_left (fun acc child => append acc (f child)) l None
  = match l with
    | [] => None
    | _ :: _ => Some (map f l)
    end.
Proof.
  destruct l as [|a l]; [reflexivity|]. cbn [fold_left append].
  rewrite append_loop. reflexivity.
Qed.

Lemma map_id_Forall (A : Type) (f : A -> A) (l : list A) :
  Forall (fun a => f a = a) l -> map f l = l.
Proof.
  induction 1 as [|a l Ha _ IH]; [reflexivity|]. cbn [map].
  rewrite Ha, IH. reflexivity.
Qed.

Lemma map_id_inv (A : Type) (f : A -> A) (l : list A) :
  map f l = l -> Forall (fun a => f a = a) l.
Proof.
  induction l as [|a l IH]; intros Hmap; [constructor|].
  cbn [map] in Hmap. injection Hmap as Ha Hl. constructor; auto.
Qed.

(** A [querylegacy.Filter] that is made a [filter] and a
    [querylegacy.Filter] again comes back as it was, children in their
    order, exactly when none of its filters has a [Children] that is empty
    without being [nil] (such a [Children] comes back as [nil]). *)
Theorem toQueryFilter_filterFromQueryFilter (qf : Filter) :
  toQueryFilter (filterFromQueryFilter qf) = qf
  <-> Filter_nil_when_empty qf = true.
Proof.
  induction qf as [op field value cs|op field value cs l IH]
    using Filter_induction.
  - split; reflexivity.
  - cbn [filterFromQueryFilter toQueryFilter Filter_nil_when_empty].
    rewrite append_loop_nil. destruct l as [|child l].
    + split; discriminate.
    + rewrite append_loop_nil. cbn [map]. rewrite map_map.
      set (rt := fun x => toQueryFilter (filterFromQueryFilter x)).
      change (toQueryFilter (filterFromQueryFilter child)) with (rt child).
      change (rt child :: map rt l) with (map rt (child :: l)).
      generalize dependent (child :: l). clear child l. intros l IH.
      split.
      * intros Heq. injection Heq as Hmap. apply map_id_inv in Hmap.
        apply forallb_forall. intros x Hx.
        rewrite Forall_forall in IH, Hmap. apply (IH x Hx), (Hmap x Hx).
      * intros Hall. f_equal. f_equal. apply map_id_Forall.
        rewrite forallb_forall in Hall. rewrite Forall_forall in *.
        intros x Hx. apply (IH x Hx), (Hall x Hx).
Qed.

(** Likewise from a [filter] to a [querylegacy.Filter] and back. *)
Theorem filterFromQueryFilter_toQueryFilter (f : filter) :
  filterFromQueryFilter (toQueryFilter f) = f
  <-> filter_nil_when_empty f = true.
Proof.
  induction f as [op field value cs|op field value cs l IH]
    using filter_induction.
  - split; reflexivity.
  - cbn [filterFromQueryFilter toQueryFilter filter_nil_when_empty].
    rewrite append_loop_nil. destruct l as [|child l].
    + split; discriminate.
    + rewrite append_loop_nil. cbn [map]. rewrite map_map.
      set (rt := fun x => filterFromQueryFilter (toQueryFilter x)).
      change (filterFromQueryFilter (toQueryFilter child)) with (rt child).
      change (rt child :: map rt l) with (map rt (child :: l)).
      generalize dependent (child :: l). clear child l. intros l IH.
      split.
      * intros Heq. injection Heq as Hmap. apply map_id_inv in Hmap.
        apply forallb_forall. intros x Hx.
        rewrite Forall_forall in IH, Hmap. apply (IH x Hx), (Hmap x Hx).
      * intros Hall. f_equal. f_equal. apply map_id_Forall.
        rewrite forallb_forall in Hall. rewrite Forall_forall in *.
        intros x Hx. apply (IH x Hx), (Hall x Hx).
Qed.

End FilterFacts.


(** ** Plans and their names *)

Section PlanFacts.
Import orgs.

Lemma Plan_String_undeclared (i : Z) :
  ~ 0 <= i <= 4 -> Plan_String i = ("Plan(" ++ FormatInt i ++ ")")%string.
Proof.
  intros Hi. unfold Plan_String.
  destruct i as [|[[p|p|]|[p|[p|p|]|]|]|p]; try reflexivity; lia.
Qed.

Lemma planFromString_undeclared (s : string) :
  planFromString ("Plan(" ++ s)
  = (0, Some (ErrUnknownPlan ("Plan(" ++ s))).
Proof. reflexivity. Qed.

Lemma planFromString_declared (i : Z) :
  0 <= i <= 4 -> planFromString (Plan_String i) = (i, None).
Proof.
  intros Hi. assert (H : i = 0 \/ i = 1 \/ i = 2 \/ i = 3 \/ i = 4) by lia.
  destruct H as [->|[->|[->|[->| ->]]]]; reflexivity.
Qed.

(** [planFromString] is the inverse of [String] on the five plans that
    are declared, and on them only: the name [String] gives to any other
    number is refused, and a string that is accepted is the name of the
    plan returned. *)
Theorem planFromString_String :
  (forall i,
     planFromString (Plan_String i)
     = if (0 <=? i) && (i <=? 4) then (i, None)
       else (0, Some (ErrUnknownPlan (Plan_String i))))
  /\ (forall s p,
        planFromString s = (p, None) -> 0 <= p <= 4 /\ Plan_String p = s).
Proof.
  split.
  - intros i. destruct (Z.leb_spec 0 i) as [H0|H0];
      [destruct (Z.leb_spec i 4) as [H4|H4]|]; cbn [andb].
    + apply planFromString_declared. lia.
    + rewrite Plan_String_undeclared by lia. apply planFromString_undeclared.
    + rewrite Plan_String_undeclared by lia. apply planFromString_undeclared.
  - intros s p. unfold planFromString.
    repeat match goal with
    | |- context [String.eqb s ?n] =>
      destruct (String.eqb_spec s n) as [->|_];
        [intros Hp; injection Hp as <-; split; [cbv; split; discriminate|reflexivity]|]
    end.
    discriminate.
Qed.

Section JSON.
Variable json_Marshal_string : string -> string + bytes.
Variable json_Unmarshal_string : bytes -> string + string.

(** A declared plan that is marshalled and unmarshalled comes back,
    whatever the receiver held, as long as the JSON codec gives back the
    five names.  When [UnmarshalJSON] fails, the receiver is left as it was
    if the text is no JSON string, and is reset to the empty plan if the
    string names no plan. *)
Theorem Plan_JSON_round_trip :
  names_survive_json json_Marshal_string json_Unmarshal_string ->
  (forall p p0,
     0 <= p <= 4 ->
     exists b,
       MarshalJSON json_Marshal_string p = inr b
       /\ UnmarshalJSON json_Unmarshal_string p0 b = (p, None))
  /\ (forall p0 b p' e,
        UnmarshalJSON json_Unmarshal_string p0 b = (p', Some e) ->
        (exists msg, json_Unmarshal_string b = inl msg
                     /\ e = ErrJSON msg /\ p' = p0)
        \/ (exists s, json_Unmarshal_string b = inr s
                      /\ e = ErrUnknownPlan s /\ p' = emptyPlan)).
Proof.
  intros Hjson. split.
  - intros p p0 Hp. destruct (Hjson p Hp) as (b & Hm & Hu).
    exists b. unfold MarshalJSON, UnmarshalJSON. rewrite Hm, Hu.
    split; [reflexivity|]. apply planFromString_declared, Hp.
  - intros p0 b p' e. unfold UnmarshalJSON.
    destruct (json_Unmarshal_string b) as [msg|s].
    + intros Hu. injection Hu as <- <-. left. eauto.
    + intros Hu. right. exists s. split; [reflexivity|].
      unfold planFromString in Hu.
      repeat match type of Hu with
      | (if ?c then _ else _) = _ => destruct c; [discriminate|]
      end.
      injection Hu as <- <-. split; reflexivity.
Qed.

End JSON.
End PlanFacts.

(** ** What the detector hands back *)

Section DetectReader.
Variable L : Z -> bool.
Hypothesis HL : letters_not_space L.



End DetectReader.

(** ** An event that cannot be serialized *)

Section EncodeFailure.
Context {Value : Type} `{EncodingJSON Value} `{Zstd}.

Lemma ReadAll_pipe_reader_error (log : list PipeOp) (e : error) :
  forallb (fun op => match op with
                     | OpCloseWithError _ => false
                     | _ => true
                     end) log = true ->
  ReadAll (pipe_reader (log ++ [OpCloseWithError (Some e)]))
  = (written log, Some e).
Proof.
  induction log as [|[out|out|e0] log IH]; cbn [forallb]; intros Hlog.
  - reflexivity.
  - cbn [app pipe_reader written].
    rewrite ReadAll_bytes_Buffer, IH by exact Hlog. reflexivity.
  - cbn [app pipe_reader written].
    rewrite ReadAll_bytes_Buffer, IH by exact Hlog. reflexivity.
  - discriminate.
Qed.

Lemma encode_events_failure (pre : list Value) (lines : list bytes)
  (bad : Value) (post : list Value) (msg : string) :
  zstd_never_fails ->
  Forall2 (fun event line => json_Marshal event = inr line) pre lines ->
  json_Marshal bad = inl msg ->
  forall zsw,
    exists zsw1 ops,
      encode_events zsw (pre ++ bad :: post)
      = (zsw1, ops, Some (json_Error msg))
      /\ forallb is_write ops = true
      /\ written ops ++ fst (zstd_Close zsw1)
         = zstd_stream zsw (map (fun line => line ++ [newline]) lines).
Proof.
  intros (_ & Hwrite & _) Hpre Hbad.
  induction Hpre as [|event line pre lines Hm _ IH]; intros zsw.
  - exists zsw, []. cbn [app encode_events]. unfold Encoder_bytes.
    rewrite Hbad. repeat split.
  - cbn [app encode_events map zstd_stream]. unfold Encoder_bytes at 1.
    rewrite Hm. specialize (Hwrite zsw (line ++ [newline])).
    destruct (zstd_Write zsw (line ++ [newline])) as [[zsw1 out] werr].
    cbn [snd] in Hwrite. subst werr.
    destruct (IH zsw1) as (zsw2 & ops & -> & Hops & Hstream).
    exists zsw2, (OpWrite out :: ops). split; [reflexivity|].
    split; [exact Hops|]. cbn [written].
    rewrite <- app_assoc, Hstream. reflexivity.
Qed.

(** When an event cannot be serialized, the goroutine of [IngestEvents]
    (and that of [IngestChannel]) encodes no event after it, closes the
    compressor and closes the pipe with the error of the encoder: whoever
    reads the pipe gets a complete compressed stream of the events before
    the failing one, one object a line, and then that error instead of the
    end of the stream. *)
Theorem goroutine_stops_at_first_failure (pre : list Value)
  (objects : list bytes) (bad : Value) (post : list Value) (msg : string) :
  zstd_never_fails ->
  zstd_lossless ->
  Forall2 (fun event object => json_Marshal event = inr object) pre objects ->
  json_Marshal bad = inl msg ->
  exists z,
    ReadAll (pipe_reader (IngestEvents_goroutine (pre ++ bad :: post)))
    = (z, Some (json_Error msg))
    /\ zstd_Decode z = Some (ndjson objects)
    /\ IngestChannel_goroutine (pre ++ bad :: post)
       = IngestEvents_goroutine (pre ++ bad :: post).
Proof.
  intros Hnf Hll Hpre Hbad. pose proof Hnf as ([zsw0 Hnew] & _ & _).
  unfold IngestChannel_goroutine, IngestEvents_goroutine, encode_and_close.
  rewrite Hnew.
  destruct (@encode_events_failure pre objects bad post msg Hnf Hpre Hbad zsw0)
    as (zsw1 & ops & -> & Hops & Hstream).
  destruct (zstd_Close zsw1) as [out closeErr]. cbn [fst] in Hstream.
  exists (written (ops ++ [OpClose out])). split; [|split; [|reflexivity]].
  - change (ops ++ [OpClose out; OpCloseWithError (Some (json_Error msg))])
      with (ops ++ [OpClose out] ++ [OpCloseWithError (Some (json_Error msg))]).
    rewrite app_assoc. apply ReadAll_pipe_reader_error.
    rewrite forallb_app. apply andb_true_intro. split; [|reflexivity].
    rewrite forallb_forall in *. intros op Hin. specialize (Hops op Hin).
    destruct op; [reflexivity|reflexivity|discriminate].
  - rewrite written_app. cbn [written]. rewrite app_nil_r, Hstream.
    rewrite (Hll zsw0 _ Hnew). reflexivity.
Qed.

End EncodeFailure.


(** ** What a token of API scope can ask for *)

Section APITokenPaths.
Import regexp.



(** The pattern matches exactly the paths of [api_token_path]. *)
Lemma matches_api_token_path (p : bytes) :
  matches validOnlyAPITokenPaths p = true <-> api_token_path p.
Proof. rewrite matches_spec. apply validOnlyAPITokenPaths_lang. Qed.

(** The pattern of the allow-list matches a path exactly when it is
    [/api/v1/datasets/] followed by an ID that is not empty and has no
    slash, a slash and [ingest] or [query], or followed by [_apl], and
    then, if anything, by a question mark and a query that is not empty
    and has no newline. *)
Theorem validOnlyAPITokenPaths_matches_exactly (p : string) :
  MatchString validOnlyAPITokenPaths p = true
  <-> api_token_path (list_ascii_of_string p).
Proof. unfold MatchString. apply matches_api_token_path. Qed.






End APITokenPaths.


(** ** The detector on a reader that fails *)

Section DetectFailing.
Import utf8 bufio.
Variables (e : error) (post : Reader).
Variable L : Z -> bool.

Lemma fill_read_S i b :
  fill_read (S i) b
  = let '(bs, x, rd') := Read (rd b) (size b - w b) in
    let b' := mkReader (size b) (data b ++ bs) (r b) rd' (err b)
                       (lastRuneSize b) in
    match x with
    | Some x' => mkReader (size b') (data b') (r b') (rd b') (Some x')
                          (lastRuneSize b')
    | None => if (0 <? length bs)%nat then b' else fill_read i b'
    end.
Proof. reflexivity. Qed.

Lemma well_behaved_skipn n bs rest :
  well_behaved rest = true -> (n < length bs)%nat ->
  well_behaved (Data (skipn n bs) :: rest) = true.
Proof.
  intros Hwb Hn. cbn [well_behaved forallb nonempty_data].
  destruct (skipn n bs) eqn:E; [|exact Hwb].
  apply (f_equal (@length _)) in E. rewrite length_skipn in E.
  cbn [length] in E. lia.
Qed.

(** One round of reads, in step: either both readers go on alike, or the
    one comes to its end where the other fails. *)
Lemma fill_read_followed i : forall b,
  well_behaved (rd b) = true -> calm b ->
  let b' := fill_read i b in
  well_behaved (rd b') = true
  /\ ((calm b' /\ fill_read i (followed e post b) = followed e post b')
      \/ (err b' = Some EOF /\ rd b' = []
          /\ fill_read i (followed e post b) = failed e post b')).
Proof.
  induction i as [|i IH]; intros [sz dt rr rdb eb lrs] Hwb Hcalm.
  - cbv zeta. split; [exact Hwb|]. left. split; [right; reflexivity|].
    reflexivity.
  - cbn [rd] in Hwb. cbv zeta. rewrite !fill_read_S. unfold followed, w.
    cbn [size data r rd err lastRuneSize].
    destruct rdb as [|[bs|x] rest].
    + cbn [app Read]. cbv zeta. cbn [size data r rd err lastRuneSize].
      split; [reflexivity|]. right. split; [reflexivity|].
      split; reflexivity.
    + cbn [well_behaved forallb] in Hwb. apply andb_prop in Hwb as [Hbs Hwb].
      cbn [app Read].
      destruct (Nat.leb_spec (length bs) (sz - length dt)) as [Hle|Hgt].
      * cbv zeta. destruct (0 <? length bs)%nat.
        -- cbn [rd err]. split; [exact Hwb|]. left. split; [exact Hcalm|].
           reflexivity.
        -- exact (IH (mkReader sz (dt ++ bs) rr rest eb lrs) Hwb Hcalm).
      * cbv zeta.
        pose proof (@well_behaved_skipn (sz - length dt)%nat bs rest Hwb Hgt) as Hwb1.
        destruct (0 <? length (firstn (sz - length dt) bs))%nat.
        -- cbn [rd err]. split; [exact Hwb1|]. left. split; [exact Hcalm|].
           reflexivity.
        -- exact (IH (mkReader sz (dt ++ firstn (sz - length dt) bs) rr
                        (Data (skipn (sz - length dt) bs) :: rest) eb lrs)
                     Hwb1 Hcalm).
    + discriminate.
Qed.

Lemma fill_followed b :
  well_behaved (rd b) = true -> calm b ->
  well_behaved (rd (fill b)) = true
  /\ ((calm (fill b) /\ fill (followed e post b) = followed e post (fill b))
      \/ (err (fill b) = Some EOF /\ rd (fill b) = []
          /\ fill (followed e post b) = failed e post (fill b))).
Proof.
  intros Hwb Hcalm. unfold fill.
  change (r (followed e post b)) with (r b).
  destruct (0 <? r b)%nat.
  - exact (@fill_read_followed maxConsecutiveEmptyReads
             (mkReader (size b) (skipn (r b) (data b)) 0 (rd b) (err b)
                       (lastRuneSize b)) Hwb Hcalm).
  - exact (@fill_read_followed maxConsecutiveEmptyReads b Hwb Hcalm).
Qed.

Lemma loop_cond_followed b :
  loop_cond (followed e post b) = loop_cond b.
Proof. reflexivity. Qed.

Lemma ReadRune_loop_failed n b :
  ReadRune_loop n (failed e post b) = failed e post b.
Proof. apply ReadRune_loop_stopped. discriminate. Qed.

Lemma ReadRune_loop_followed n : forall b,
  well_behaved (rd b) = true -> calm b ->
  let b' := ReadRune_loop n b in
  well_behaved (rd b') = true
  /\ ((calm b' /\ ReadRune_loop n (followed e post b) = followed e post b')
      \/ (err b' = Some EOF /\ rd b' = []
          /\ ReadRune_loop n (followed e post b) = failed e post b')).
Proof.
  induction n as [|n IH]; intros b Hwb Hcalm; cbv zeta.
  - split; [exact Hwb|]. left. split; [exact Hcalm|reflexivity].
  - rewrite !ReadRune_loop_eq, loop_cond_followed.
    destruct (loop_cond b).
    2:{ split; [exact Hwb|]. left. split; [exact Hcalm|reflexivity]. }
    destruct (fill_followed Hwb Hcalm) as [Hwb' [[Hcalm' ->]|(He & Hrd & ->)]].
    + apply IH; assumption.
    + rewrite ReadRune_loop_failed.
      rewrite (@ReadRune_loop_stopped n (fill b)) by congruence.
      split; [exact Hwb'|]. right. auto.
Qed.

Lemma detected_buffer typ b b' :
  size b = size b' -> data b = data b' -> r b = r b' ->
  lastRuneSize b = lastRuneSize b' ->
  alike e (Some (detected typ b)) (Some (detected typ b')).
Proof.
  destruct b as [sz dt rr rdb eb lrs], b' as [sz' dt' rr' rdb' eb' lrs'].
  cbn [size data r lastRuneSize]. intros <- <- <- <-.
  unfold detected, UnreadRune. cbn [size data r rd err lastRuneSize].
  destruct ((lrs <? 0) || (Z.of_nat rr <? lrs)).
  { left. split; [discriminate|reflexivity]. }
  unfold Peek, Buffered, w. cbn [size data r rd err lastRuneSize].
  set (n := (length dt - (rr - Z.to_nat lrs))%nat).
  assert (Hloop : forall b0, (w b0 - r b0 = n)%nat ->
                             Peek_loop (S n) n b0 = b0).
  { intros b0 Hb0. cbn [Peek_loop]. rewrite Hb0, Nat.ltb_irrefl.
    reflexivity. }
  rewrite !Hloop by reflexivity. cbn [size data r rd err lastRuneSize].
  destruct (sz <? n)%nat.
  { left. split; [discriminate|reflexivity]. }
  unfold w. cbn [data r]. fold n. rewrite Nat.ltb_irrefl.
  eexists. reflexivity.
Qed.

Lemma not_found_differs :
  errors_New "cannot determine content type"
  <> errors_New "couldn't find beginning of supported ingestion format".
Proof. discriminate. Qed.

Lemma ReadRune_after_loop b :
  err (ReadRune_loop UTFMax b) <> None ->
  ReadRune (ReadRune_loop UTFMax b) = ReadRune b.
Proof.
  intros Herr. unfold ReadRune.
  rewrite (@ReadRune_loop_stopped UTFMax (ReadRune_loop UTFMax b)) by exact Herr.
  reflexivity.
Qed.

Lemma detect_loop_failed fuel : forall b,
  err b = Some EOF -> rd b = [] ->
  alike e (detect_loop L fuel b) (detect_loop L fuel (failed e post b)).
Proof.
  induction fuel as [|fuel IH]; intros b He Hrd; [reflexivity|].
  cbn [detect_loop]. unfold ReadRune.
  rewrite ReadRune_loop_failed.
  rewrite (@ReadRune_loop_stopped UTFMax b) by congruence.
  change (r (failed e post b)) with (r b).
  change (w (failed e post b)) with (w b).
  change (unread (failed e post b)) with (unread b).
  destruct (r b =? w b)%nat.
  - unfold readErr. rewrite He. cbn [err failed].
    right. split; [reflexivity|]. unfold reported.
    destruct e; reflexivity.
  - destruct (match unread b with
              | [] => (0, 1%nat)
              | p0 :: _ => if val p0 <? RuneSelf then (val p0, 1%nat)
                           else DecodeRune (unread b)
              end) as [c sz].
    cbn [failed size data r rd err lastRuneSize].
    set (b1 := mkReader (size b) (data b) (r b + sz) (rd b) (err b)
                        (Z.of_nat sz)).
    change (mkReader (size b) (data b) (r b + sz) post (Some e) (Z.of_nat sz))
      with (failed e post b1).
    destruct (c =? rune "["); [apply detected_buffer; reflexivity|].
    destruct (c =? rune "{"); [apply detected_buffer; reflexivity|].
    destruct (unicode.IsLetter L c || (c =? rune "034"));
      [apply detected_buffer; reflexivity|].
    destruct (unicode.IsSpace c).
    + apply IH; [exact He|exact Hrd].
    + left. split; [apply not_found_differs|reflexivity].
Qed.

Lemma detect_loop_followed fuel : forall b,
  well_behaved (rd b) = true -> calm b ->
  alike e (detect_loop L fuel b) (detect_loop L fuel (followed e post b)).
Proof.
  induction fuel as [|fuel IH]; intros b Hwb Hcalm; [reflexivity|].
  destruct (ReadRune_loop_followed UTFMax Hwb Hcalm)
    as [Hwb1 [[Hcalm1 Hstep]|(He1 & Hrd1 & Hstep)]].
  - cbn [detect_loop]. unfold ReadRune. rewrite Hstep.
    set (b1 := ReadRune_loop UTFMax b) in *.
    change (r (followed e post b1)) with (r b1).
    change (w (followed e post b1)) with (w b1).
    change (unread (followed e post b1)) with (unread b1).
    destruct (r b1 =? w b1)%nat.
    + unfold readErr. cbn [err followed].
      destruct Hcalm1 as [-> | ->].
      * left. split; [apply not_found_differs|reflexivity].
      * left. split; [discriminate|reflexivity].
    + destruct (match unread b1 with
                | [] => (0, 1%nat)
                | p0 :: _ => if val p0 <? RuneSelf then (val p0, 1%nat)
                             else DecodeRune (unread b1)
                end) as [c sz].
      cbn [followed size data r rd err lastRuneSize].
      set (b2 := mkReader (size b1) (data b1) (r b1 + sz) (rd b1) (err b1)
                          (Z.of_nat sz)).
      change (mkReader (size b1) (data b1) (r b1 + sz)
                (rd b1 ++ Fail e :: post) (err b1) (Z.of_nat sz))
        with (followed e post b2).
      destruct (c =? rune "["); [apply detected_buffer; reflexivity|].
      destruct (c =? rune "{"); [apply detected_buffer; reflexivity|].
      destruct (unicode.IsLetter L c || (c =? rune "034"));
        [apply detected_buffer; reflexivity|].
      destruct (unicode.IsSpace c).
      * apply IH; [exact Hwb1|exact Hcalm1].
      * left. split; [apply not_found_differs|reflexivity].
  - pose proof (@detect_loop_failed (S fuel) (ReadRune_loop UTFMax b) He1 Hrd1)
      as Hfailed.
    cbn [detect_loop] in *.
    rewrite ReadRune_after_loop in Hfailed by congruence.
    replace (ReadRune (followed e post b))
      with (ReadRune (failed e post (ReadRune_loop UTFMax b))).
    + exact Hfailed.
    + unfold ReadRune. rewrite Hstep, ReadRune_loop_failed. reflexivity.
Qed.

Hypothesis HL : letters_not_space L.

(** [DetectContentType] on a reader that fails with [e] after it has
    delivered [pre]: when [pre] is white space from end to end the
    detector returns [e] (and its own error for want of a beginning when
    [e] is [io.EOF]); when [pre] has a character that is not white space,
    the detector never gets to see the failure and returns the content
    type, or the error, that this character calls for. *)
Theorem DetectContentType_failing_reader (pre : Reader) :
  well_behaved pre = true ->
  match classify L (content pre) with
  | inr typ =>
    exists r',
      DetectContentType L (pre ++ Fail e :: post) = Some (inr (r', typ))
  | inl x =>
    DetectContentType L (pre ++ Fail e :: post)
    = Some (inl (match skip_space (content pre) with
                 | [] => reported e
                 | _ :: _ => x
                 end))
  end.
Proof.
  intros Hwb.
  assert (Hinv : inv (NewReader pre) (content pre))
    by (apply NewReader_inv, Hwb).
  assert (Hfuel : (length (content pre)
                   < S (reader_bytes (pre ++ Fail e :: post)))%nat).
  { rewrite <- (reader_bytes_content pre Hwb). clear.
    induction pre as [|[bs|x] pre IH]; cbn [app reader_bytes]; lia. }
  pose proof (@detect_loop_spec L HL _ _ _ Hinv Hfuel) as Hspec.
  pose proof (@detect_loop_followed (S (reader_bytes (pre ++ Fail e :: post)))
                (NewReader pre) Hwb (or_introl eq_refl)) as Halike.
  unfold DetectContentType.
  change (NewReader (pre ++ Fail e :: post))
    with (followed e post (NewReader pre)).
  unfold classify in *. destruct (skip_space (content pre)) as [|c0 s].
  - rewrite Hspec in Halike. cbn [alike] in Halike.
    destruct Halike as [[Hne _]|[_ ->]]; [congruence|reflexivity].
  - set (c := fst (DecodeRune (c0 :: s))) in *.
    destruct (c =? rune "[").
    { destruct Hspec as (r0 & Hr0 & _). rewrite Hr0 in Halike. exact Halike. }
    destruct (c =? rune "{").
    { destruct Hspec as (r0 & Hr0 & _). rewrite Hr0 in Halike. exact Halike. }
    destruct (unicode.IsLetter L c || (c =? rune "034")).
    { destruct Hspec as (r0 & Hr0 & _). rewrite Hr0 in Halike. exact Halike. }
    rewrite Hspec in Halike. cbn [alike] in Halike.
    destruct Halike as [[_ ->]|[Heq _]]; [reflexivity|].
    exfalso. exact (not_found_differs Heq).
Qed.

End DetectFailing.


(** ** Rounding to a float64 *)

Section Float64Facts.
Import float64.





Lemma two_power_nonneg (k : Z) :
  0 <= k -> (2 ^ k == inject_Z (2 ^ k))%Q.
Proof. intros Hk. rewrite Qpower.Zpower_Qpower by exact Hk. reflexivity. Qed.


(** ... and not below it by one or more: it is the logarithm, rounded
    down. *)
Lemma ilog2_upper (q : Q) : (0 < q)%Q -> (q < 2 ^ (ilog2 q + 1))%Q.
Proof.
  intros Hq. unfold ilog2.
  set (k := Z.log2 (Qnum q) - Z.log2 (Zpos (Qden q))).
  destruct (Qle_bool (2 ^ k) q) eqn:E.
  2:{ replace (k - 1 + 1) with k by lia.
      apply Qnot_le_lt. intros Hle. apply Qle_bool_iff in Hle. congruence. }
  clear E. destruct q as [n d]. cbn [Qnum Qden] in *.
  assert (Hn : 0 < n).
  { unfold Qlt in Hq. cbn in Hq. lia. }
  pose proof (Z.log2_spec n Hn) as [_ Hn2].
  pose proof (Z.log2_spec (Zpos d) ltac:(lia)) as [Hd1 _].
  pose proof (Z.log2_nonneg n) as Hln.
  pose proof (Z.log2_nonneg (Zpos d)) as Hld.
  replace (k + 1) with (Z.succ (Z.log2 n) - Z.log2 (Zpos d)) by (subst k; lia).
  rewrite Qpower.Qpower_minus by discriminate.
  rewrite !two_power_nonneg by lia.
  rewrite (Qmake_Qdiv n d).
  apply Qlt_shift_div_r.
  { change 0%Q with (inject_Z 0). rewrite <- Zlt_Qlt. lia. }
  unfold Qdiv. rewrite <- Qmult_assoc, (Qmult_comm (/ _)), Qmult_assoc.
  apply Qlt_shift_div_l.
  { change 0%Q with (inject_Z 0). rewrite <- Zlt_Qlt. lia. }
  rewrite <- !inject_Z_mult, <- Zlt_Qlt. nia.
Qed.
(** The [float64] that is written [0.1], and the sum that comes to a whole
    number though neither term is one. *)
Example round_tenth :
  (round (1 # 10) == 3602879701896397 # 36028797018963968)%Q
  /\ (round (inject_Z 8589934591 + round (999999999 # 1000000000))
      == inject_Z 8589934592)%Q.
Proof. split; vm_compute; reflexivity. Qed.





End Float64Facts.

(** ** The windows of a license *)

Section LicenseFacts.
Import license.



Section JSON.
Variable Others : Type.
Variable json_Marshal_License : License Others -> string + bytes.
Variable json_Unmarshal_License : bytes -> License Others
                                  -> string + License Others.


End JSON.

(** The sum of [Seconds] rounds up: a window of 2^33 seconds less one
    nanosecond is written as 2^33 seconds. *)
Example Seconds_rounds_up :
  backoff.Duration_of (Seconds (8589934592 * Second - 1)) = 8589934592
  /\ (8589934592 * Second - 1) / Second = 8589934591.
Proof. split; vm_compute; reflexivity. Qed.

End LicenseFacts.


(** ** A reader that delivers nothing *)

Section NoProgress.
Variable L : Z -> bool.

(** A reader whose first hundred reads each deliver no byte and no error
    makes [DetectContentType] fail with [io.ErrNoProgress], whatever the
    reader would deliver after them. *)
Theorem DetectContentType_no_progress (rest : Reader) :
  DetectContentType L (repeat (Data []) 100 ++ rest)
  = Some (inl ErrNoProgress).
Proof.
  unfold DetectContentType. cbn [detect_loop].
  set (b := bufio.NewReader _).
  assert (HR : exists b', bufio.ReadRune b = (0, 0%nat, Some ErrNoProgress, b')).
  { eexists. subst b. vm_compute. reflexivity. }
  destruct HR as [b' ->]. reflexivity.
Qed.

End NoProgress.


(** ** More of the code at work *)

Section MoreExamples.
Import Example Cases.


(** [Do_null_error_body_panics], for the answer 400 with the body
    [null]. *)
Lemma Do_null_error_body_panics_witness :
  exists tr,
    @Do Fields http json_null pkg unit personal_client server_null 0
        get_datasets v_nil
    = Some (Panicked, tr ++ [EvDrain 0%nat; EvClose 0%nat]).
Proof.
  apply (@Do_null_error_body_panics Fields http json_null pkg unit
           personal_client server_null 0 get_datasets v_nil 0%nat
           (mkHTTPResponse 400 json_header null) null).
  - intros j Hj. inversion Hj.
  - reflexivity.
  - cbn. lia.
  - cbn. intuition discriminate.
  - reflexivity.
  - reflexivity.
Defined.

(** [NewRequest_headers], for a personal token with an organization. *)
Lemma NewRequest_headers_witness :
  exists req,
    NewRequest personal_client "GET" "/api/v1/datasets"
               (body_nil (Value := Fields)) = inr req
    /\ Header_Get (req_Header req) headerAccept = "application/json"%string
    /\ Header_Get (req_Header req) headerUserAgent = "axiom-go"%string
    /\ Header_Get (req_Header req) headerAuthorization
       = "Bearer xapt-test"%string
    /\ Header_Get (req_Header req) headerOrganizationID = "org"%string.
Proof.
  eexists. split; [reflexivity|].
  destruct (@NewRequest_headers Fields url http json pkg personal_client "GET"
              "/api/v1/datasets" body_nil _ eq_refl)
    as (Ha & Hu & Hauth & Horg & _).
  split; [exact Ha|]. split; [exact Hu|]. split; [exact Hauth|exact Horg].
Defined.

(** [Ingest_unknown_type_or_encoding], for the zero content type. *)
Lemma Ingest_unknown_type_or_encoding_witness :
  Ingest Decode_Status (datasets personal_client) server_ok 0 "test"
         two_spaces_and_object 0 1 []
  = Some (Ingest_err (errors_New "unknown content type"), []).
Proof.
  destruct (@Ingest_unknown_type_or_encoding Fields url http json pkg
              Decode_Status (datasets personal_client) server_ok 0 "test"
              two_spaces_and_object 0 1 [])
    as (e & HIngest & He).
  - left. lia.
  - rewrite HIngest. rewrite (He _ _ eq_refl eq_refl). reflexivity.
Defined.

(** [Ingest_request], for NDJSON compressed with gzip and a timestamp
    field. *)
Lemma Ingest_request_witness :
  exists res sent tl,
    Ingest Decode_Status (datasets personal_client) server_ok 0 "test"
           two_spaces_and_object 2 2 [ingest.SetTimestampField "time"]
    = Some (res, EvRoundTrip 0 sent :: tl)
    /\ req_URL sent
       = "https://api.axiom.co/api/v1/datasets/test/ingest?timestamp-field=time"%string
    /\ req_Body sent = Some two_spaces_and_object
    /\ Header_Get (req_Header sent) "Content-Type"
       = "application/x-ndjson"%string
    /\ Header_Get (req_Header sent) "Content-Encoding" = "gzip"%string.
Proof.
  destruct (@Ingest_request Fields url http json pkg Decode_Status
              (datasets personal_client) server_ok 0 "test"
              two_spaces_and_object 2 2 [ingest.SetTimestampField "time"]
              NDJSON Gzip _ _ eq_refl eq_refl eq_refl eq_refl)
    as (res & sent & tl & HIngest & _ & Hurl & Hbody & Hct & Hce & _).
  exists res, sent, tl. split; [exact HIngest|].
  split; [exact Hurl|]. split; [exact Hbody|]. split; [exact Hct|exact Hce].
Defined.

(** [IngestEvents_request], for one event. *)
Lemma IngestEvents_request_witness :
  exists res sent tl,
    IngestEvents Decode_Status (datasets personal_client) server_ok 0 "test"
                 [event1] no_options
    = Some (res, EvRoundTrip 0 sent :: tl)
    /\ Header_Get (req_Header sent) "Content-Type"
       = "application/x-ndjson"%string
    /\ Header_Get (req_Header sent) "Content-Encoding" = "zstd"%string.
Proof.
  destruct (@IngestEvents_request Fields url http json pkg stored
              Decode_Status (datasets personal_client) server_ok 0 "test"
              [event1] no_options _ eq_refl) as [Hevents _].
  destruct (Hevents _ ltac:(discriminate) eq_refl)
    as (res & sent & tl & HIngest & _ & _ & _ & Hct & Hce & _).
  exists res, sent, tl. split; [exact HIngest|]. split; [exact Hct|exact Hce].
Defined.

Lemma json_strings_survive :
  orgs.names_survive_json Marshal_string Unmarshal_string.
Proof.
  intros i Hi.
  assert (H : i = 0 \/ i = 1 \/ i = 2 \/ i = 3 \/ i = 4) by lia.
  destruct H as [->|[->|[->|[->| ->]]]]; eexists; split; reflexivity.
Qed.

(** [Plan_JSON_round_trip], for the enterprise plan read into a variable
    that held the hobby plan. *)
Lemma Plan_JSON_round_trip_witness :
  exists b,
    orgs.MarshalJSON Marshal_string orgs.Enterprise = inr b
    /\ orgs.UnmarshalJSON Unmarshal_string orgs.Hobby b
       = (orgs.Enterprise, None).
Proof.
  destruct (@Plan_JSON_round_trip Marshal_string Unmarshal_string
              json_strings_survive) as [Hround _].
  apply Hround. unfold orgs.Enterprise. lia.
Defined.


(** [goroutine_stops_at_first_failure], for an event, a value that cannot
    be serialized and another event. *)
Lemma goroutine_stops_at_first_failure_witness :
  exists z,
    ReadAll (pipe_reader
               (@IngestEvents_goroutine (option Fields) json_opt stored
                  [Some event1; None; Some event2]))
    = (z, Some (json_Error "json: unsupported type: chan int"))
    /\ zstd_Decode z
       = Some (list_ascii_of_string "{" ++ ["034"; "a"; "034"; ":"; "034";
                 "b"; "034"; "}"; newline]%char)%list.
Proof.
  destruct (@goroutine_stops_at_first_failure (option Fields) json_opt stored
              [Some event1]
              [list_ascii_of_string ("{" ++ members event1 ++ "}")]
              None [Some event2] "json: unsupported type: chan int"
              stored_never_fails stored_lossless)
    as (z & Hread & Hdec & _).
  - constructor; [reflexivity|constructor].
  - reflexivity.
  - exists z. split; [exact Hread|exact Hdec].
Defined.


(** [DetectContentType_failing_reader], for a connection that is reset
    after two spaces. *)
Lemma DetectContentType_failing_reader_witness :
  DetectContentType no_letters
    ([Data [" "; " "]%char] ++ [Fail (net_Error "connection reset")])
  = Some (inl (net_Error "connection reset")).
Proof.
  exact (@DetectContentType_failing_reader (net_Error "connection reset") []
           no_letters no_letters_not_space [Data [" "; " "]%char] eq_refl).
Defined.





End MoreExamples.
